(** * Hierarchical network processor (dbHierNetworkProcessor.cc)

    A shallow embedding of the connectivity relation, the local clusters
    and the receiver that builds them, the connected clusters, the
    stitching receiver, the recursive iterators and the index of incoming
    connections of [src/db/db/dbHierNetworkProcessor.cc], with the
    properties of the design document and further properties of the code
    stated and proved over it.

    Conventions.
    - [size_t] identifiers (cluster ids, attribute ids) and [unsigned int]
      layers are [N].  The only arithmetic that relies on wrap-around is the
      allocation of dummy ids, where it is written out.
    - A [tl_assert] that fails is the result [None]; a function that cannot
      fail returns its value directly.
    - [std::map] is [gmap], [std::set] is [gset]; where the code iterates
      over one, the iteration order (ascending keys) is [merge_sort] of the
      elements.
    - The geometry library (boxes, polygons, transformations, the box trees'
      sort) is external to the file; it is the interface [Geometry]. *)

From stdpp Require Import gmap list sorting relations.
From Stdlib Require Import ZArith NArith.

#[local] Set Warnings "-clear-no-such-hyp".

Open Scope N_scope.

(** ** The external geometry *)

Class Geometry := {
  shape : Type;              (* T = db::PolygonRef *)
  box_type : Type;           (* db::Box *)
  polygon : Type;            (* a polygon body in world coordinates *)
  trans_type : Type;         (* db::ICplxTrans *)
  ratio : Type;              (* double *)
  obj_is_box : shape → bool;                        (* a.obj ().is_box () *)
  obj_box : shape → box_type;                       (* a.obj ().box () *)
  ref_trans : shape → trans_type;                   (* a.trans () *)
  box_transformed : box_type → trans_type → box_type;
  obj_transformed : shape → trans_type → polygon;   (* a.obj ().transformed (t) *)
  trans_mul : trans_type → trans_type → trans_type; (* t1 * t2 *)
  interact_box : box_type → box_type → bool;        (* db::interact on boxes *)
  interact_poly : polygon → polygon → bool;         (* db::interact on polygons *)
  bc : shape → box_type;                            (* db::box_convert<T> *)
  box_new : box_type;                               (* box_type () *)
  box_plus : box_type → box_type → box_type;        (* operator+= *)
  box_is_empty : box_type → bool;
  box_width : box_type → Z;
  box_height : box_type → Z;
  box_left : box_type → Z;
  box_bottom : box_type → Z;
  box_center : box_type → Z * Z;
  box_area : box_type → Z;
  tree_sort : list shape → list shape;              (* unstable_box_tree::sort *)
  zero_lt : ratio → bool;                           (* 0.0 < r *)
  quot_lt : Z → Z → ratio → bool                    (* double (x) / double (a) < r *)
}.

(** The one law of the geometry the proofs rely on: sorting a box tree
    rearranges its objects. *)
Class GeometryLaws (G : Geometry) := {
  tree_sort_perm : ∀ l : list shape, tree_sort l ≡ₚ l
}.

(** Keys of a [std::map] in iteration order. *)
Definition map_keys {A} (m : gmap N A) : list N :=
  merge_sort N.le (elements (dom m)).

(** Elements of a [std::set] in iteration order. *)
Definition set_iter (s : gset N) : list N :=
  merge_sort N.le (elements s).

(** ** Connectivity *)

Record Connectivity := mkConnectivity {
  m_connected : gmap N (gset N);
  m_all_layers : gset N
}.

Definition Connectivity_new : Connectivity :=
  {| m_connected := ∅; m_all_layers := ∅ |}.

(** [m_connected [la].insert (lb)] *)
Definition connected_insert (m : gmap N (gset N)) (la lb : N) : gmap N (gset N) :=
  <[la := default ∅ (m !! la) ∪ {[lb]}]> m.

Definition connect (c : Connectivity) (la lb : N) : Connectivity :=
  {| m_connected := connected_insert (connected_insert (m_connected c) la lb) lb la;
     m_all_layers := m_all_layers c ∪ {[la]} ∪ {[lb]} |}.

Definition connect_self (c : Connectivity) (l : N) : Connectivity :=
  {| m_connected := connected_insert (m_connected c) l l;
     m_all_layers := m_all_layers c ∪ {[l]} |}.

(** The range [begin_connected (layer), end_connected (layer)): the
    neighbours of a layer, [s_empty_layers] for a layer without an entry. *)
Definition connected_layers (c : Connectivity) (layer : N) : gset N :=
  match m_connected c !! layer with
  | None => ∅
  | Some s => s
  end.

Section Defs.
Context {G : Geometry}.

(** [interaction_test] for a general transformation. *)
Definition interaction_test (a b : shape) (trans : trans_type) : bool :=
  if obj_is_box a && obj_is_box b then
    interact_box (box_transformed (obj_box a) (ref_trans a))
                 (box_transformed (obj_box b) (trans_mul trans (ref_trans b)))
  else
    interact_poly (obj_transformed a (ref_trans a))
                  (obj_transformed b (trans_mul trans (ref_trans b))).

(** [interaction_test] for [db::unit_trans]. *)
Definition interaction_test_unit (a b : shape) : bool :=
  if obj_is_box a && obj_is_box b then
    interact_box (box_transformed (obj_box a) (ref_trans a))
                 (box_transformed (obj_box b) (ref_trans b))
  else
    interact_poly (obj_transformed a (ref_trans a))
                  (obj_transformed b (ref_trans b)).

(** The template parameter [Trans]: [None] is [db::UnitTrans]. *)
Definition interaction_test_for (a b : shape) (trans : option trans_type) : bool :=
  match trans with
  | None => interaction_test_unit a b
  | Some t => interaction_test a b t
  end.

Definition interacts (c : Connectivity) (a : shape) (la : N) (b : shape) (lb : N)
    (trans : option trans_type) : bool :=
  match m_connected c !! la with
  | None => false
  | Some s =>
      if decide (lb ∈ s) then interaction_test_for a b trans else false
  end.

(** ** local_cluster *)

Record local_cluster := mkLocalCluster {
  m_id : N;
  m_needs_update : bool;
  m_shapes : gmap N (list shape);
  m_attrs : gset N;
  m_bbox : box_type;
  m_size : N
}.

(** [local_cluster (size_t id = 0)] *)
Definition local_cluster_new (id : N) : local_cluster :=
  {| m_id := id; m_needs_update := false; m_shapes := ∅; m_attrs := ∅;
     m_bbox := box_new; m_size := 0 |}.

Definition set_id (c : local_cluster) (id : N) : local_cluster :=
  {| m_id := id; m_needs_update := m_needs_update c; m_shapes := m_shapes c;
     m_attrs := m_attrs c; m_bbox := m_bbox c; m_size := m_size c |}.

Definition clear (c : local_cluster) : local_cluster :=
  {| m_id := m_id c; m_needs_update := false; m_shapes := ∅; m_attrs := ∅;
     m_bbox := box_new; m_size := 0 |}.

Definition add_attr (c : local_cluster) (a : N) : local_cluster :=
  if 0 <? a then
    {| m_id := m_id c; m_needs_update := m_needs_update c; m_shapes := m_shapes c;
       m_attrs := m_attrs c ∪ {[a]}; m_bbox := m_bbox c; m_size := m_size c |}
  else c.

(** The tree of a layer; the empty tree for a layer without an entry
    ([local_cluster::begin]). *)
Definition tree_of (m : gmap N (list shape)) (l : N) : list shape :=
  default [] (m !! l).

Definition shapes_on (c : local_cluster) (l : N) : list shape :=
  tree_of (m_shapes c) l.

Definition add (c : local_cluster) (s : shape) (la : N) : local_cluster :=
  {| m_id := m_id c; m_needs_update := true;
     m_shapes := <[la := tree_of (m_shapes c) la ++ [s]]> (m_shapes c);
     m_attrs := m_attrs c; m_bbox := m_bbox c; m_size := m_size c + 1 |}.

Definition join_with (c other : local_cluster) : local_cluster :=
  {| m_id := m_id c; m_needs_update := true;
     m_shapes :=
       foldl (λ m l, <[l := tree_of m l ++ tree_of (m_shapes other) l]> m)
             (m_shapes c) (map_keys (m_shapes other));
     m_attrs := m_attrs c ∪ m_attrs other;
     m_bbox := m_bbox c;
     m_size := m_size c + m_size other |}.

(** All shapes in iteration order: layers ascending, each tree in turn. *)
Definition all_shapes (m : gmap N (list shape)) : list shape :=
  concat (map (tree_of m) (map_keys m)).

Definition ensure_sorted (c : local_cluster) : local_cluster :=
  if m_needs_update c then
    let sorted := tree_sort <$> m_shapes c in
    {| m_id := m_id c; m_needs_update := false; m_shapes := sorted;
       m_attrs := m_attrs c;
       m_bbox := foldl (λ b s, box_plus b (bc s)) box_new (all_shapes sorted);
       m_size := m_size c |}
  else c.

(** [bbox ()] sorts first (declared in the header). *)
Definition bbox (c : local_cluster) : box_type := m_bbox (ensure_sorted c).

Definition layers (c : local_cluster) : list N := map_keys (m_shapes c).

(** [cl.area_ratio () < max_area_ratio]; the division and the comparison
    are those of the doubles. *)
Definition area_ratio_lt (c : local_cluster) (max_area_ratio : ratio) : bool :=
  let bx := bbox c in
  if box_is_empty bx then zero_lt max_area_ratio
  else
    let a := foldl (λ a s, (a + box_area (bc s))%Z) 0%Z
                   (all_shapes (m_shapes (ensure_sorted c))) in
    if (a =? 0)%Z then zero_lt max_area_ratio
    else quot_lt (box_area bx) a max_area_ratio.

(** The dispatch loop of [split_cluster]: every shape of every layer goes
    to [a] or to [b]. *)
Definition split_dispatch (xthr ythr : Z) (l : N)
    (ab : local_cluster * local_cluster) (s : shape) : local_cluster * local_cluster :=
  let sc := box_center (bc s) in
  if ((sc.1 <? xthr) || (sc.2 <? ythr))%Z then (add ab.1 s l, ab.2)
  else (ab.1, add ab.2 s l).

Definition split_halves (cl : local_cluster) : local_cluster * local_cluster :=
  let bx := bbox cl in
  let cl' := ensure_sorted cl in
  let xthr := if (box_height bx <? box_width bx)%Z then (box_center bx).1 else box_left bx in
  let ythr := if (box_height bx <? box_width bx)%Z then box_bottom bx else (box_center bx).2 in
  foldl (λ ab l, foldl (split_dispatch xthr ythr l) ab (shapes_on cl' l))
        (local_cluster_new (m_id cl), local_cluster_new (m_id cl))
        (layers cl').

(** [split_cluster]: the count returned and the fragments appended to
    [output].  The recursion is on clusters with strictly fewer shapes;
    [fuel] bounds its depth and [None] is "out of fuel". *)
Fixpoint split_cluster (fuel : nat) (cl : local_cluster) (max_area_ratio : ratio)
    : option (N * list local_cluster) :=
  match fuel with
  | O => None
  | S fuel' =>
      if area_ratio_lt cl max_area_ratio then Some (0, [])
      else
        let '(a, b) := split_halves cl in
        if (m_size a =? 0) || (m_size b =? 0) then Some (0, [])
        else
          ra ← split_cluster fuel' a max_area_ratio;
          rb ← split_cluster fuel' b max_area_ratio;
          let '(na, outa) := ra in
          let '(nb, outb) := rb in
          let out := outa ++ outb in
          let '(na, out) := if na =? 0 then (1, out ++ [a]) else (na, out) in
          let '(nb, out) := if nb =? 0 then (1, out ++ [b]) else (nb, out) in
          Some (na + nb, out)
  end.

(** Number of shapes of a cluster. *)
Definition shape_count (m : gmap N (list shape)) : nat :=
  length (all_shapes m).

(** [local_cluster::split]: enough fuel for any cluster. *)
Definition split (cl : local_cluster) (max_area_ratio : ratio)
    : option (N * list local_cluster) :=
  split_cluster (S (shape_count (m_shapes cl))) cl max_area_ratio.

(** Reassembling fragments with [join_with], starting from a blank cluster. *)
Definition join_all (id : N) (frags : list local_cluster) : local_cluster :=
  foldl join_with (local_cluster_new id) frags.

End Defs.

(** ** local_clusters *)

Section Clusters.
Context {G : Geometry}.

Record local_clusters := mkLocalClusters {
  lcs_needs_update : bool;
  m_clusters : list local_cluster;    (* m_clusters.objects () *)
  lcs_bbox : box_type;
  m_next_dummy_id : N
}.

Definition local_clusters_new : local_clusters :=
  {| lcs_needs_update := false; m_clusters := []; lcs_bbox := box_new;
     m_next_dummy_id := 0 |}.

(** [m_clusters.size ()] *)
Definition clusters_size (lc : local_clusters) : N :=
  N.of_nat (length (m_clusters lc)).

(** The slot of an id: [item (id - 1)]. *)
Definition slot (id : N) : nat := N.to_nat (id - 1).

(** The static [empty_cluster] of [cluster_by_id]. *)
Definition empty_cluster : local_cluster := local_cluster_new 0.

Definition cluster_by_id (lc : local_clusters) (id : N) : option local_cluster :=
  if 0 <? id then
    if clusters_size lc <? id then Some empty_cluster
    else m_clusters lc !! slot id
  else None.

Definition with_clusters (lc : local_clusters) (cs : list local_cluster) : local_clusters :=
  {| lcs_needs_update := true; m_clusters := cs; lcs_bbox := lcs_bbox lc;
     m_next_dummy_id := m_next_dummy_id lc |}.

Definition remove_cluster (lc : local_clusters) (id : N) : local_clusters :=
  if (id =? 0) || (clusters_size lc <? id) then lc
  else with_clusters lc (alter clear (slot id) (m_clusters lc)).

(** [first] and [with] are pointers into the same vector: the join reads
    [with] as it is when [first] is written, and [with] is cleared last. *)
Definition lcs_join_cluster_with (lc : local_clusters) (id with_id : N)
    : option local_clusters :=
  if 0 <? id then
    if (with_id =? 0) || (clusters_size lc <? with_id) || (clusters_size lc <? id)
    then Some lc
    else
      let other := default empty_cluster (m_clusters lc !! slot with_id) in
      let cs := alter (λ first, join_with first other) (slot id) (m_clusters lc) in
      Some (with_clusters lc (alter clear (slot with_id) cs))
  else None.

Definition insert (lc : local_clusters) : local_clusters :=
  let i := length (m_clusters lc) in
  with_clusters lc (m_clusters lc ++ [set_id (local_cluster_new 0) (N.of_nat i + 1)]).

(** ** connected_clusters *)

(** [ClusterInstance]: the id of the child cluster and the placement it is
    reached through.  The placement ([db::InstElement]) is an opaque
    handle. *)
Definition ClusterInstance : Type := N * N.

Record connected_clusters := mkConnectedClusters {
  base : local_clusters;
  m_connections : gmap N (list ClusterInstance);
  m_rev_connections : gmap ClusterInstance N
}.

Definition connected_clusters_new : connected_clusters :=
  {| base := local_clusters_new; m_connections := ∅; m_rev_connections := ∅ |}.

Definition connections_for_cluster (cc : connected_clusters) (id : N)
    : list ClusterInstance :=
  match m_connections cc !! id with
  | None => []
  | Some c => c
  end.

Definition add_connection (cc : connected_clusters) (id : N) (inst : ClusterInstance)
    : connected_clusters :=
  {| base := base cc;
     m_connections := <[id := default [] (m_connections cc !! id) ++ [inst]]> (m_connections cc);
     m_rev_connections := <[inst := id]> (m_rev_connections cc) |}.

Definition join_cluster_with (cc : connected_clusters) (id with_id : N)
    : option connected_clusters :=
  if id =? with_id then Some cc
  else
    b ← lcs_join_cluster_with (base cc) id with_id;
    let to_join := connections_for_cluster cc with_id in
    let target := default [] (m_connections cc !! id) in
    Some {| base := b;
            m_connections := delete with_id (<[id := target ++ to_join]> (m_connections cc));
            m_rev_connections := foldl (λ r c, <[c := id]> r) (m_rev_connections cc) to_join |}.

Definition find_cluster_with_connection (cc : connected_clusters) (inst : ClusterInstance) : N :=
  match m_rev_connections cc !! inst with
  | Some id => id
  | None => 0
  end.

Definition cc_remove_cluster (cc : connected_clusters) (id : N) : connected_clusters :=
  {| base := remove_cluster (base cc) id; m_connections := m_connections cc;
     m_rev_connections := m_rev_connections cc |}.

(** Modelled from the spec: [connected_clusters::insert_dummy] is defined
    in dbHierNetworkProcessor.h, which is not among the sources.  The
    design document has it "allocate next id past the backing store"; the
    counter is [m_next_dummy_id], which the constructor and [clear] of this
    file set to 0.  The ids are taken from the top of the [size_t] range
    downwards, so they exceed the size of the backing store. *)
Definition insert_dummy (cc : connected_clusters) : N * connected_clusters :=
  let d := (m_next_dummy_id (base cc) + (2 ^ 64 - 1)) mod 2 ^ 64 in
  (d, {| base := {| lcs_needs_update := lcs_needs_update (base cc);
                    m_clusters := m_clusters (base cc);
                    lcs_bbox := lcs_bbox (base cc);
                    m_next_dummy_id := d |};
         m_connections := m_connections cc;
         m_rev_connections := m_rev_connections cc |}).

(** ** hier_clusters *)

Definition hier_clusters : Type := gmap N connected_clusters.

(** [clusters_per_cell] const: the static [empty] for a missing cell. *)
Definition clusters_per_cell (hc : hier_clusters) (cell_index : N) : connected_clusters :=
  match hc !! cell_index with
  | None => connected_clusters_new
  | Some c => c
  end.

(** [clusters_per_cell] non-const: a missing cell gets an entry. *)
Definition clusters_per_cell_mut (hc : hier_clusters) (cell_index : N)
    : connected_clusters * hier_clusters :=
  match hc !! cell_index with
  | None => (connected_clusters_new, <[cell_index := connected_clusters_new]> hc)
  | Some c => (c, hc)
  end.

(** ** The stitching receiver *)

(** [m_cm2join_sets] is a [std::list] of sets and [m_cm2join_map] maps an
    id to an iterator into it.  List iterators stay valid when other nodes
    are added or erased: every node carries a handle, unique for the life of
    the receiver, and the map holds handles. *)
Record hc_receiver := mkReceiver {
  mp_cell_clusters : connected_clusters;
  m_cm2join_map : gmap N nat;
  m_cm2join_sets : list (nat * gset N);
  next_node : nat
}.

Definition hc_receiver_new (cc : connected_clusters) : hc_receiver :=
  {| mp_cell_clusters := cc; m_cm2join_map := ∅; m_cm2join_sets := [];
     next_node := 0 |}.

(** The set an iterator points to. *)
Fixpoint node_set (sets : list (nat * gset N)) (h : nat) : gset N :=
  match sets with
  | [] => ∅
  | (h', s) :: r => if decide (h' = h) then s else node_set r h
  end.

(** [it->insert (...)] through an iterator. *)
Fixpoint node_update (f : gset N → gset N) (h : nat) (sets : list (nat * gset N))
    : list (nat * gset N) :=
  match sets with
  | [] => []
  | (h', s) :: r =>
      if decide (h' = h) then (h', f s) :: r else (h', s) :: node_update f h r
  end.

(** [m_cm2join_sets.erase (it)] *)
Fixpoint node_erase (h : nat) (sets : list (nat * gset N)) : list (nat * gset N) :=
  match sets with
  | [] => []
  | (h', s) :: r => if decide (h' = h) then r else (h', s) :: node_erase h r
  end.

Definition mark_to_join (r : hc_receiver) (a b : N) : hc_receiver :=
  match m_cm2join_map r !! a, m_cm2join_map r !! b with
  | None, None =>
      let h := next_node r in
      {| mp_cell_clusters := mp_cell_clusters r;
         m_cm2join_map := <[b := h]> (<[a := h]> (m_cm2join_map r));
         m_cm2join_sets := m_cm2join_sets r ++ [(h, {[a]} ∪ {[b]})];
         next_node := S h |}
  | None, Some y =>
      {| mp_cell_clusters := mp_cell_clusters r;
         m_cm2join_map := <[a := y]> (m_cm2join_map r);
         m_cm2join_sets := node_update (λ s, s ∪ {[a]}) y (m_cm2join_sets r);
         next_node := next_node r |}
  | Some x, None =>
      {| mp_cell_clusters := mp_cell_clusters r;
         m_cm2join_map := <[b := x]> (m_cm2join_map r);
         m_cm2join_sets := node_update (λ s, s ∪ {[b]}) x (m_cm2join_sets r);
         next_node := next_node r |}
  | Some x, Some y =>
      if decide (x = y) then r
      else
        let yset := node_set (m_cm2join_sets r) y in
        {| mp_cell_clusters := mp_cell_clusters r;
           m_cm2join_map :=
             foldl (λ m i, <[i := x]> m) (m_cm2join_map r) (set_iter yset);
           m_cm2join_sets :=
             node_erase y (node_update (λ s, s ∪ yset) x (m_cm2join_sets r));
           next_node := next_node r |}
  end.

(** The inner loop of [join_superclusters]: every later member of a set is
    joined into its first member. *)
Definition join_set (cc : connected_clusters) (sc : gset N) : option connected_clusters :=
  match set_iter sc with
  | [] => Some cc
  | c :: rest => foldl (λ acc x, cc' ← acc; join_cluster_with cc' c x) (Some cc) rest
  end.

Definition join_superclusters (r : hc_receiver) : option hc_receiver :=
  cc ← foldl (λ acc sc, cc' ← acc; join_set cc' sc.2)
             (Some (mp_cell_clusters r)) (m_cm2join_sets r);
  Some {| mp_cell_clusters := cc; m_cm2join_map := m_cm2join_map r;
          m_cm2join_sets := m_cm2join_sets r; next_node := next_node r |}.

(** The promotion step of the instance-to-instance [add_single_pair], for
    one interacting pair of child clusters with paths [k1] and [k2]. *)
Definition add_single_pair_promote (cc : connected_clusters) (k1 k2 : ClusterInstance)
    : option connected_clusters :=
  let x1 := find_cluster_with_connection cc k1 in
  let x2 := find_cluster_with_connection cc k2 in
  if x1 =? 0 then
    if x2 =? 0 then
      let '(connector, cc1) := insert_dummy cc in
      Some (add_connection (add_connection cc1 connector k1) connector k2)
    else Some (add_connection cc x2 k1)
  else if x2 =? 0 then Some (add_connection cc x1 k2)
  else if negb (x1 =? x2) then
    let '(x1, x2) :=
      if N.of_nat (length (connections_for_cluster cc x1))
           <? N.of_nat (length (connections_for_cluster cc x2))
      then (x2, x1) else (x1, x2) in
    cc1 ← join_cluster_with cc x1 x2;
    Some (cc_remove_cluster cc1 x2)
  else Some cc.

(** The step of the local-to-instance [add_single_pair], for one child
    cluster with path [k2] that interacts with the local cluster [c1]. *)
Definition add_single_pair_local (r : hc_receiver) (c1_id : N) (k2 : ClusterInstance)
    : hc_receiver :=
  let other := find_cluster_with_connection (mp_cell_clusters r) k2 in
  if 0 <? other then mark_to_join r other c1_id
  else
    {| mp_cell_clusters := add_connection (mp_cell_clusters r) c1_id k2;
       m_cm2join_map := m_cm2join_map r; m_cm2join_sets := m_cm2join_sets r;
       next_node := next_node r |}.

End Clusters.

(** ** The order of the hierarchical pass of [do_build] *)

(** What [do_build] reads of the layout: the bottom-up sequence of cell
    indexes, the child cells of a cell and the cells a cell calls
    ([collect_called_cells]). *)
Record Layout := mkLayout {
  bottom_up : list N;
  child_cells : N → list N;
  collect_called_cells : N → gset N
}.

(** The loop state of the second block of [do_build]; [stitched] records
    the cells [build_hier_connections] was called for, in order. *)
Record build_state := mkBuildState {
  done : gset N;
  todo : list N;
  stitched : list N
}.

(** [build_hier_connections_for_cells]: one call of
    [build_hier_connections] per cell, in the order of the vector. *)
Definition build_hier_connections_for_cells (trace cells : list N) : list N :=
  foldl (λ t c, t ++ [c]) trace cells.

Definition called_set (ly : Layout) (top : N) : gset N :=
  collect_called_cells ly top ∪ {[top]}.

Definition do_build_step (ly : Layout) (called : gset N) (st : build_state) (c : N)
    : option build_state :=
  if decide (c ∈ called) then
    let all_available :=
      forallb (λ cc, bool_decide (cc ∈ done st)) (child_cells ly c) in
    if all_available then
      Some {| done := done st; todo := todo st ++ [c]; stitched := stitched st |}
    else
      match todo st with
      | [] => None
      | _ =>
          Some {| done := done st ∪ list_to_set (todo st);
                  todo := [c];
                  stitched := build_hier_connections_for_cells (stitched st) (todo st) |}
      end
  else Some st.

Definition do_build_loop (ly : Layout) (called : gset N) (st : build_state) (cells : list N)
    : option build_state :=
  foldl (λ acc c, st' ← acc; do_build_step ly called st' c) (Some st) cells.

(** The cells stitched by [do_build], in order; [None] if the assertion of
    the loop fails. *)
Definition do_build (ly : Layout) (top : N) : option (list N) :=
  st ← do_build_loop ly (called_set ly top)
        {| done := ∅; todo := []; stitched := [] |} (bottom_up ly);
  Some (build_hier_connections_for_cells (stitched st) (todo st)).

(** [d] is a child cell of [c]. *)
Definition is_child (ly : Layout) (c d : N) : Prop := d ∈ child_cells ly c.

(** Every cell's children come before it in the sequence. *)
Definition children_first (ly : Layout) (cells : list N) : Prop :=
  ∀ l1 c l2, cells = l1 ++ c :: l2 → ∀ d, is_child ly c d → d ∈ l1.

(** Every cell reachable from a cell comes before it in the sequence. *)
Definition reachable_first (ly : Layout) (cells : list N) : Prop :=
  ∀ l1 c l2, cells = l1 ++ c :: l2 → ∀ d, tc (is_child ly) c d → d ∈ l1.

(** Clusters as the operations of [local_cluster] build them. *)
Inductive built {G : Geometry} : local_cluster → Prop :=
| built_new id : built (local_cluster_new id)
| built_set_id c id : built c → built (set_id c id)
| built_clear c : built c → built (clear c)
| built_add_attr c a : built c → built (add_attr c a)
| built_add c s la : built c → built (add c s la)
| built_join_with c other : built c → built other → built (join_with c other)
| built_ensure_sorted c : built c → built (ensure_sorted c).

(** ** An instance of the geometry: boxes with integer coordinates

    Every shape is a box, a transformation is a displacement and the
    threshold of the area ratio is an integer.  The examples are run on it. *)

Record ibox := mkBox { b_left : Z; b_bottom : Z; b_right : Z; b_top : Z }.

Definition ibox_is_empty (b : ibox) : bool :=
  ((b_right b <? b_left b) || (b_top b <? b_bottom b))%Z.

Definition ibox_plus (a b : ibox) : ibox :=
  if ibox_is_empty b then a
  else if ibox_is_empty a then b
  else mkBox (Z.min (b_left a) (b_left b)) (Z.min (b_bottom a) (b_bottom b))
             (Z.max (b_right a) (b_right b)) (Z.max (b_top a) (b_top b)).

Definition ibox_moved (b : ibox) (d : Z * Z) : ibox :=
  if ibox_is_empty b then b
  else mkBox (b_left b + d.1) (b_bottom b + d.2) (b_right b + d.1) (b_top b + d.2)%Z.

Definition ibox_touches (a b : ibox) : bool :=
  negb (ibox_is_empty a) && negb (ibox_is_empty b)
  && (b_left a <=? b_right b)%Z && (b_left b <=? b_right a)%Z
  && (b_bottom a <=? b_top b)%Z && (b_bottom b <=? b_top a)%Z.

Definition ibox_width (b : ibox) : Z := (b_right b - b_left b)%Z.
Definition ibox_height (b : ibox) : Z := (b_top b - b_bottom b)%Z.

Definition box_geometry : Geometry :=
  {| shape := ibox; box_type := ibox; polygon := ibox; trans_type := Z * Z;
     ratio := Z;
     obj_is_box := λ _, true;
     obj_box := λ s, s;
     ref_trans := λ _, (0, 0)%Z;
     box_transformed := ibox_moved;
     obj_transformed := ibox_moved;
     trans_mul := λ t1 t2, (t1.1 + t2.1, t1.2 + t2.2)%Z;
     interact_box := ibox_touches;
     interact_poly := ibox_touches;
     bc := λ s, s;
     box_new := mkBox 1 1 (-1) (-1);
     box_plus := ibox_plus;
     box_is_empty := ibox_is_empty;
     box_width := ibox_width;
     box_height := ibox_height;
     box_left := b_left;
     box_bottom := b_bottom;
     box_center := λ b, (b_left b + ibox_width b / 2, b_bottom b + ibox_height b / 2)%Z;
     box_area := λ b, if ibox_is_empty b then 0%Z else (ibox_width b * ibox_height b)%Z;
     tree_sort := λ l, l;
     zero_lt := λ r, (0 <? r)%Z;
     quot_lt := λ x a r, (x <? r * a)%Z |}.

(** Sample data on the box geometry. *)

(** Layers 0 and 1 connected to each other (seed scenario S1). *)
Definition conn01 : Connectivity := connect Connectivity_new 0 1.

Definition box_A : @shape box_geometry := mkBox 0 0 10 10.
Definition box_B : @shape box_geometry := mkBox 5 5 15 15.
Definition box_C : @shape box_geometry := mkBox 100 100 110 110.

(** A cluster with id 7, the attribute 1 and two distant boxes on layer 0. *)
Definition sample_cluster : @local_cluster box_geometry :=
  add_attr (add (add (local_cluster_new 7) box_A 0) box_C 0) 1.

(** A cell with three clusters, the second one holding [box_A] and [box_B]. *)
Definition sample_clusters : @local_clusters box_geometry :=
  let lc := insert (insert (insert local_clusters_new)) in
  with_clusters lc
    (alter (λ c, add (add c box_A 0) box_B 1) 1%nat (m_clusters lc)).

Definition sample_connected : @connected_clusters box_geometry :=
  {| base := sample_clusters; m_connections := ∅; m_rev_connections := ∅ |}.

(** Three cells: 0 places 1 and 2, and 1 places 2. *)
Definition sample_layout : Layout :=
  {| bottom_up := [2; 1; 0];
     child_cells := λ c, if c =? 0 then [1; 2] else if c =? 1 then [2] else [];
     collect_called_cells := λ c,
       if c =? 0 then {[1; 2]} else if c =? 1 then {[2]} else ∅ |}.

(** ** Reachable states of the connections

    The connections of a cell are changed by [add_connection] and
    [join_cluster_with] only. *)

Inductive cc_op :=
| OpAdd (id : N) (inst : ClusterInstance)
| OpJoin (id with_id : N).

Definition apply_op {G : Geometry} (cc : connected_clusters) (op : cc_op)
    : option connected_clusters :=
  match op with
  | OpAdd id inst => Some (add_connection cc id inst)
  | OpJoin id with_id => join_cluster_with cc id with_id
  end.

Definition run_ops {G : Geometry} (cc : connected_clusters) (ops : list cc_op)
    : option connected_clusters :=
  foldl (λ acc op, cc' ← acc; apply_op cc' op) (Some cc) ops.

(** The states reached when every [add_connection (id, inst)] is made the
    way the callers of this file make it: for a cluster id other than 0 and
    an [inst] that [find_cluster_with_connection] does not attribute to
    another cluster. *)
Inductive guarded {G : Geometry} : connected_clusters → Prop :=
| guarded_new cc :
    m_connections cc = ∅ → m_rev_connections cc = ∅ → guarded cc
| guarded_add cc id inst :
    guarded cc → id ≠ 0 →
    find_cluster_with_connection cc inst = 0 ∨ find_cluster_with_connection cc inst = id →
    guarded (add_connection cc id inst)
| guarded_join cc id with_id cc' :
    guarded cc → join_cluster_with cc id with_id = Some cc' → guarded cc'.

(** [m_rev_connections] is the inverse of [m_connections]. *)
Definition rev_inverse {G : Geometry} (cc : connected_clusters) : Prop :=
  (∀ ci id, m_rev_connections cc !! ci = Some id →
            id ≠ 0 ∧ ci ∈ connections_for_cluster cc id)
  ∧ (∀ ci id, ci ∈ connections_for_cluster cc id →
              m_rev_connections cc !! ci = Some id).

(** ** The join sets of the receiver *)

(** The node an iterator points to, if it is in the list. *)
Fixpoint lookup_node (sets : list (nat * gset N)) (h : nat) : option (gset N) :=
  match sets with
  | [] => None
  | (h', s) :: r => if decide (h' = h) then Some s else lookup_node r h
  end.

Definition run_marks {G : Geometry} (r : hc_receiver) (calls : list (N * N)) : hc_receiver :=
  foldl (λ r ab, mark_to_join r ab.1 ab.2) r calls.

(** The consistency conditions that [mark_to_join] checks under
    [DEBUG_HIER_NETWORK_PROCESSOR]. *)
Record join_inv {G : Geometry} (r : hc_receiver) : Prop := mkJoinInv {
  inv_nodup : NoDup (m_cm2join_sets r).*1;
  inv_fresh : ∀ h, h ∈ (m_cm2join_sets r).*1 → (h < next_node r)%nat;
  inv_disjoint : ∀ h1 h2 s1 s2,
    h1 ≠ h2 → lookup_node (m_cm2join_sets r) h1 = Some s1 →
    lookup_node (m_cm2join_sets r) h2 = Some s2 → s1 ## s2;
  inv_map : ∀ i h,
    m_cm2join_map r !! i = Some h ↔
    ∃ s, lookup_node (m_cm2join_sets r) h = Some s ∧ i ∈ s
}.

(** [a] and [b] are in one set of the list. *)
Definition same_set {G : Geometry} (r : hc_receiver) (a b : N) : Prop :=
  ∃ h s, (h, s) ∈ m_cm2join_sets r ∧ a ∈ s ∧ b ∈ s.

(** The calls of [join_cluster_with] that [join_superclusters] makes, in
    order: (first member, later member). *)
Definition join_pairs (sets : list (nat * gset N)) : list (N * N) :=
  sets ≫= λ hs,
    match set_iter hs.2 with
    | [] => []
    | c :: rest => (λ x, (c, x)) <$> rest
    end.

Definition apply_joins {G : Geometry} (cc : connected_clusters) (pairs : list (N * N))
    : option connected_clusters :=
  foldl (λ acc p, cc' ← acc; join_cluster_with cc' p.1 p.2) (Some cc) pairs.

(** ** Counting the shapes of a cluster *)

(** [m_size] is the number of shapes held. *)
Definition size_ok {G : Geometry} (c : local_cluster) : Prop :=
  m_size c = N.of_nat (shape_count (m_shapes c)).

(** The test of the dispatch loop of [split_cluster]. *)
Definition goes_left {G : Geometry} (xthr ythr : Z) (s : shape) : Prop :=
  (((box_center (bc s)).1 <? xthr) || ((box_center (bc s)).2 <? ythr))%Z = true.

#[global] Instance goes_left_dec {G : Geometry} xthr ythr s :
  Decision (goes_left xthr ythr s).
Proof. unfold goes_left. apply _. Defined.

(** The invariant of the dispatch loops: what the two halves hold on every
    layer, and that ids, attributes and sizes are as [add] leaves them. *)
Definition halves_grow {G : Geometry} (P : N → shape → Prop) `{∀ l s, Decision (P l s)}
    (shapes : N → list shape) (n : nat) (ab ab' : local_cluster * local_cluster) : Prop :=
  (∀ l, tree_of (m_shapes ab'.1) l =
        tree_of (m_shapes ab.1) l ++ filter (P l) (shapes l))
  ∧ (∀ l, tree_of (m_shapes ab'.2) l =
          tree_of (m_shapes ab.2) l ++ filter (λ s, ¬ P l s) (shapes l))
  ∧ m_id ab'.1 = m_id ab.1 ∧ m_id ab'.2 = m_id ab.2
  ∧ m_attrs ab'.1 = m_attrs ab.1 ∧ m_attrs ab'.2 = m_attrs ab.2
  ∧ (size_ok ab.1 → size_ok ab'.1) ∧ (size_ok ab.2 → size_ok ab'.2)
  ∧ m_size ab'.1 + m_size ab'.2 = m_size ab.1 + m_size ab.2 + N.of_nat n.

(** ** Connectivities as [connect] builds them *)

Inductive conn_built : Connectivity → Prop :=
| conn_built_new : conn_built Connectivity_new
| conn_built_connect c la lb : conn_built c → conn_built (connect c la lb)
| conn_built_connect_self c l : conn_built c → conn_built (connect_self c l).

(** ** Collections as the operations of [local_clusters] build them *)

(** A write through a pointer to a cluster of the collection, such as the
    one [insert] returns: the cluster of the slot is changed in place and
    the members of the collection itself are not touched. *)
Definition lcs_write {G : Geometry} (lc : local_clusters) (k : nat)
    (f : local_cluster → local_cluster) : local_clusters :=
  {| lcs_needs_update := lcs_needs_update lc;
     m_clusters := alter f k (m_clusters lc);
     lcs_bbox := lcs_bbox lc;
     m_next_dummy_id := m_next_dummy_id lc |}.

(** [insert] returns a pointer to the new cluster, and the callers
    ([generate_clusters]) fill the cluster through it with [add] and
    [add_attr]. *)
Inductive lcs_built {G : Geometry} : local_clusters → Prop :=
| lcs_built_new : lcs_built local_clusters_new
| lcs_built_insert lc : lcs_built lc → lcs_built (insert lc)
| lcs_built_add lc k s la :
    lcs_built lc → lcs_built (lcs_write lc k (λ c, add c s la))
| lcs_built_add_attr lc k a :
    lcs_built lc → lcs_built (lcs_write lc k (λ c, add_attr c a))
| lcs_built_remove lc id : lcs_built lc → lcs_built (remove_cluster lc id)
| lcs_built_join lc id with_id lc' :
    lcs_built lc → lcs_join_cluster_with lc id with_id = Some lc' → lcs_built lc'.

(** ** The pairs marked for joining *)

(** [a] was marked to join with [b]. *)
Definition marked (calls : list (N * N)) (a b : N) : Prop := (a, b) ∈ calls.

(** [a] is one of the ids of a call. *)
Definition marked_id (calls : list (N * N)) (a : N) : Prop :=
  ∃ b, (a, b) ∈ calls ∨ (b, a) ∈ calls.

(** The map sends the two ids to the same node. *)
Definition same_node {G : Geometry} (r : hc_receiver) (a b : N) : Prop :=
  ∃ h, m_cm2join_map r !! a = Some h ∧ m_cm2join_map r !! b = Some h.

(** ** recursive_cluster_iterator

    The stacks are lists with the back of the vector at the head.  A frame
    of [m_conn_iter_stack] is the range from [first] to [second]: the
    connections not yet left behind, the one [first] points to at the head.
    [cell_of] gives the cell index of a placement
    ([inst ().inst_ptr.cell_index ()]). *)

Section ClusterIterator.
Context {G : Geometry}.
Variable hc : hier_clusters.
Variable cell_of : N → N.

Record rc_iterator := mkRcIterator {
  rci_id : N;                                        (* m_id *)
  rci_cell_index_stack : list N;                     (* m_cell_index_stack *)
  rci_conn_iter_stack : list (list ClusterInstance)  (* m_conn_iter_stack *)
}.

Definition rci_down (it : rc_iterator) (ci id : N) : rc_iterator :=
  {| rci_id := rci_id it;
     rci_cell_index_stack := ci :: rci_cell_index_stack it;
     rci_conn_iter_stack :=
       connections_for_cluster (clusters_per_cell hc ci) id :: rci_conn_iter_stack it |}.

(** The constructor. *)
Definition rci_new (ci id : N) : rc_iterator :=
  rci_down {| rci_id := id; rci_cell_index_stack := []; rci_conn_iter_stack := [] |} ci id.

(** The loop of [next_conn], entered with the frame [top] at the back:
    while the back frame is exhausted, [up ()], return if the stack is
    empty, and advance the frame that is now at the back. *)
Fixpoint rci_leave (top : list ClusterInstance) (cells : list N)
    (below : list (list ClusterInstance)) : list N * list (list ClusterInstance) :=
  match top with
  | _ :: _ => (cells, top :: below)
  | [] =>
      match below with
      | [] => (tail cells, [])
      | g :: below' => rci_leave (tail g) (tail cells) below'
      end
  end.

(** [next_conn]; [None] stands for the call on an iterator at its end,
    where [back ()] of an empty stack is read. *)
Definition rci_next_conn (it : rc_iterator) : option rc_iterator :=
  match rci_conn_iter_stack it with
  | [] => None
  | top :: below =>
      let '(cells, frames) := rci_leave top (rci_cell_index_stack it) below in
      let it' := {| rci_id := rci_id it; rci_cell_index_stack := cells;
                    rci_conn_iter_stack := frames |} in
      match frames with
      | (cli :: _) :: _ => Some (rci_down it' (cell_of cli.2) cli.1)
      | _ => Some it'
      end
  end.

Definition rci_inst_path (it : rc_iterator) : list ClusterInstance :=
  reverse (omap head (tail (rci_conn_iter_stack it))).

(** Modelled from the spec: [at_end], [cell_index] and [cluster_id] are
    defined in dbHierNetworkProcessor.h, which is not among the sources.
    The iterator is at its end when the stack is empty; the current cell is
    the back of the cell stack; the current cluster is the one [down] was
    called for: the id given to the constructor on the first frame, and the
    id of the connection the frame below points to otherwise. *)
Definition rci_at_end (it : rc_iterator) : bool :=
  match rci_conn_iter_stack it with [] => true | _ => false end.

Definition rci_cell_index (it : rc_iterator) : N :=
  default 0 (head (rci_cell_index_stack it)).

Definition rci_cluster_id (it : rc_iterator) : N :=
  match rci_conn_iter_stack it with
  | _ :: (cli :: _) :: _ => cli.1
  | _ => rci_id it
  end.

(** What a loop [for (it (hc, ci, id); ! it.at_end (); ++it)] sees: cell,
    cluster and instance path at every position, for at most [n]
    positions. *)
Fixpoint rci_collect (n : nat) (it : rc_iterator) : list (N * N * list ClusterInstance) :=
  match n with
  | O => []
  | S n' =>
      if rci_at_end it then []
      else (rci_cell_index it, rci_cluster_id it, rci_inst_path it)
           :: match rci_next_conn it with
              | Some it' => rci_collect n' it'
              | None => []
              end
  end.

(** The clusters of a net, depth first: the cluster [id] of the cell [ci]
    reached along [path], then what is below each of its connections in
    turn, down to the depth [d]. *)
Fixpoint rc_visit (d : nat) (ci id : N) (path : list ClusterInstance)
    : list (N * N * list ClusterInstance) :=
  (ci, id, path)
  :: match d with
     | O => []
     | S d' =>
         connections_for_cluster (clusters_per_cell hc ci) id
           ≫= λ cli, rc_visit d' (cell_of cli.2) cli.1 (path ++ [cli])
     end.

(** The positions still to come below the frames of a stack. *)
Fixpoint rci_pending_below (rank : N → nat) (below : list (list ClusterInstance))
    : list (N * N * list ClusterInstance) :=
  match below with
  | [] => []
  | g :: below' =>
      (tail g ≫= λ cli,
         rc_visit (rank (cell_of cli.2)) (cell_of cli.2) cli.1
                  (reverse (omap head below') ++ [cli]))
      ++ rci_pending_below rank below'
  end.

Definition rci_pending (rank : N → nat) (frames : list (list ClusterInstance))
    : list (N * N * list ClusterInstance) :=
  match frames with
  | [] => []
  | top :: below =>
      (top ≫= λ cli,
         rc_visit (rank (cell_of cli.2)) (cell_of cli.2) cli.1
                  (reverse (omap head below) ++ [cli]))
      ++ rci_pending_below rank below
  end.

(** The stack has as many cells as frames, and the frames below the back
    one point to a connection. *)
Definition rci_wf (it : rc_iterator) : Prop :=
  length (rci_cell_index_stack it) = length (rci_conn_iter_stack it)
  ∧ Forall (λ g, g ≠ []) (tail (rci_conn_iter_stack it)).

End ClusterIterator.

(** ** cluster_building_receiver

    The receiver of the box scanner in [build_clusters].  A shape is known
    by its pointer, here a number, and [deref] gives the shape a pointer
    points to.  [m_clusters] is a [std::list] of vectors and
    [m_shape_to_clusters] maps a pointer to an iterator into it; as for the
    join sets of the stitching receiver, every node of the list carries a
    handle and the map holds handles. *)

(** [std::pair<const T *, std::pair<unsigned int, unsigned int> >]: the
    pointer with its layer and its attribute. *)
Definition shape_value : Type := N * (N * N).

Fixpoint nodes_lookup {A} (nodes : list (nat * A)) (h : nat) : option A :=
  match nodes with
  | [] => None
  | (h', x) :: r => if decide (h' = h) then Some x else nodes_lookup r h
  end.

Fixpoint nodes_update {A} (f : A → A) (h : nat) (nodes : list (nat * A)) : list (nat * A) :=
  match nodes with
  | [] => []
  | (h', x) :: r =>
      if decide (h' = h) then (h', f x) :: r else (h', x) :: nodes_update f h r
  end.

Fixpoint nodes_erase {A} (h : nat) (nodes : list (nat * A)) : list (nat * A) :=
  match nodes with
  | [] => []
  | (h', x) :: r => if decide (h' = h) then r else (h', x) :: nodes_erase h r
  end.

(** [std::map::insert]: an entry that exists is left as it is. *)
Definition map_insert_new `{Countable K} {V} (k : K) (v : V) (m : gmap K V) : gmap K V :=
  match m !! k with
  | None => <[k := v]> m
  | Some _ => m
  end.

Record cb_receiver := mkCbReceiver {
  m_shape_to_clusters : gmap N nat;
  cb_clusters : list (nat * list shape_value);    (* m_clusters *)
  cb_next_node : nat
}.

Definition cb_receiver_new : cb_receiver :=
  {| m_shape_to_clusters := ∅; cb_clusters := []; cb_next_node := 0 |}.

Section ClusterBuilding.
Context {G : Geometry}.
Variable conn : Connectivity.
Variable deref : N → shape.

Definition cb_add (r : cb_receiver) (s1 : N) (p1 : N * N) (s2 : N) (p2 : N * N)
    : cb_receiver :=
  if negb (interacts conn (deref s1) p1.1 (deref s2) p2.1 None) then r
  else
    match m_shape_to_clusters r !! s1, m_shape_to_clusters r !! s2 with
    | None, None =>
        let c := cb_next_node r in
        {| m_shape_to_clusters :=
             map_insert_new s2 c (map_insert_new s1 c (m_shape_to_clusters r));
           cb_clusters := cb_clusters r ++ [(c, [(s1, p1); (s2, p2)])];
           cb_next_node := S c |}
    | None, Some c2 =>
        {| m_shape_to_clusters := map_insert_new s1 c2 (m_shape_to_clusters r);
           cb_clusters := nodes_update (λ v, v ++ [(s1, p1)]) c2 (cb_clusters r);
           cb_next_node := cb_next_node r |}
    | Some c1, None =>
        {| m_shape_to_clusters := map_insert_new s2 c1 (m_shape_to_clusters r);
           cb_clusters := nodes_update (λ v, v ++ [(s2, p2)]) c1 (cb_clusters r);
           cb_next_node := cb_next_node r |}
    | Some c1, Some c2 =>
        if decide (c1 = c2) then r
        else
          let size c := length (default [] (nodes_lookup (cb_clusters r) c)) in
          let '(c1, c2) := if (size c1 <? size c2)%nat then (c2, c1) else (c1, c2) in
          let j := default [] (nodes_lookup (cb_clusters r) c2) in
          {| m_shape_to_clusters :=
               foldl (λ m (i : shape_value), <[i.1 := c1]> m) (m_shape_to_clusters r) j;
             cb_clusters :=
               nodes_erase c2 (nodes_update (λ v, v ++ j) c1 (cb_clusters r));
             cb_next_node := cb_next_node r |}
    end.

Definition cb_finish (r : cb_receiver) (s : N) (p : N * N) : cb_receiver :=
  match m_shape_to_clusters r !! s with
  | Some _ => r
  | None =>
      let c := cb_next_node r in
      {| m_shape_to_clusters := map_insert_new s c (m_shape_to_clusters r);
         cb_clusters := cb_clusters r ++ [(c, [(s, p)])];
         cb_next_node := S c |}
  end.

(** The body of the loop of [generate_clusters] for one candidate: a new
    cluster, filled through the pointer [insert] returns. *)
Definition generate_cluster (lc : local_clusters) (c : list shape_value) : local_clusters :=
  let lc1 := insert lc in
  {| lcs_needs_update := lcs_needs_update lc1;
     m_clusters :=
       alter (λ cluster, foldl (λ cl (s : shape_value), add_attr (add cl (deref s.1) s.2.1) s.2.2)
                               cluster c)
             (length (m_clusters lc)) (m_clusters lc1);
     lcs_bbox := lcs_bbox lc1;
     m_next_dummy_id := m_next_dummy_id lc1 |}.

Definition generate_clusters (r : cb_receiver) (lc : local_clusters) : local_clusters :=
  foldl (λ lc (c : nat * list shape_value), generate_cluster lc c.2) lc (cb_clusters r).

(** What the box scanner reports to the receiver. *)
Inductive cb_event :=
| CbAdd (s1 : N) (p1 : N * N) (s2 : N) (p2 : N * N)
| CbFinish (s : N) (p : N * N).

Definition cb_step (r : cb_receiver) (ev : cb_event) : cb_receiver :=
  match ev with
  | CbAdd s1 p1 s2 p2 => cb_add r s1 p1 s2 p2
  | CbFinish s p => cb_finish r s p
  end.

Definition cb_run (r : cb_receiver) (events : list cb_event) : cb_receiver :=
  foldl cb_step r events.

(** The scanner reported the two shapes as touching and they interact. *)
Definition cb_linked (events : list cb_event) (s1 s2 : N) : Prop :=
  ∃ p1 p2, CbAdd s1 p1 s2 p2 ∈ events
         ∧ interacts conn (deref s1) p1.1 (deref s2) p2.1 None = true.

(** The shape was placed by some event. *)
Definition cb_seen (events : list cb_event) (s : N) : Prop :=
  (∃ t, cb_linked events s t ∨ cb_linked events t s) ∨ (∃ p, CbFinish s p ∈ events).

End ClusterBuilding.

(** The two shapes are in one candidate. *)
Definition same_candidate (r : cb_receiver) (s t : N) : Prop :=
  ∃ h v, (h, v) ∈ cb_clusters r ∧ s ∈ v.*1 ∧ t ∈ v.*1.

(** The map sends the two shapes to one candidate. *)
Definition cb_same_node (r : cb_receiver) (s t : N) : Prop :=
  ∃ h, m_shape_to_clusters r !! s = Some h ∧ m_shape_to_clusters r !! t = Some h.

(** The consistency of the candidate list and the map. *)
Record cb_inv (r : cb_receiver) : Prop := mkCbInv {
  cb_inv_nodup : NoDup (cb_clusters r).*1;
  cb_inv_fresh : ∀ h, h ∈ (cb_clusters r).*1 → (h < cb_next_node r)%nat;
  cb_inv_disjoint : ∀ h1 h2 v1 v2 s,
    h1 ≠ h2 → nodes_lookup (cb_clusters r) h1 = Some v1 →
    nodes_lookup (cb_clusters r) h2 = Some v2 → s ∈ v1.*1 → s ∉ v2.*1;
  cb_inv_map : ∀ s h,
    m_shape_to_clusters r !! s = Some h ↔
    ∃ v, nodes_lookup (cb_clusters r) h = Some v ∧ s ∈ v.*1;
  cb_inv_once : ∀ h v, nodes_lookup (cb_clusters r) h = Some v → NoDup v.*1;
  cb_inv_nonempty : ∀ h v, nodes_lookup (cb_clusters r) h = Some v → v ≠ []
}.

(** The scanner reports pairs of distinct objects. *)
Definition cb_event_ok (ev : cb_event) : Prop :=
  match ev with
  | CbAdd s1 _ s2 _ => s1 ≠ s2
  | CbFinish _ _ => True
  end.

(** ** incoming_cluster_connections

    The lazily filled index from a child cluster to the connections of the
    parent cells that reach it.  [m_called_cells] and [m_incoming] are
    mutable members the const queries write, so every query returns the
    state it leaves.  The layout is alive ([mp_layout] is not null).  The
    recursion through the parent cells has no bound of its own and gets a
    fuel here. *)

(** [IncomingClusterInstance]: the parent cell, the cluster of the parent
    cell and the placement. *)
Definition IncomingClusterInstance : Type := N * N * N.

Definition incoming_map : Type := gmap N (gmap N (list IncomingClusterInstance)).

Record incoming_cluster_connections := mkIncoming {
  m_called_cells : gset N;
  m_incoming : incoming_map
}.

(** The constructor: the cells the top cell calls, and the top cell. *)
Definition incoming_cluster_connections_new (ly : Layout) (cell : N)
    : incoming_cluster_connections :=
  {| m_called_cells := collect_called_cells ly cell ∪ {[cell]}; m_incoming := ∅ |}.

(** The list [incoming (ci, id)] would find, without computing anything. *)
Definition incoming_at (m : incoming_map) (ci id : N) : list IncomingClusterInstance :=
  default [] (default ∅ (m !! ci) !! id).

(** [m_incoming [ci][id].push_back (e)]. *)
Definition push_incoming (m : incoming_map) (ci id : N) (e : IncomingClusterInstance)
    : incoming_map :=
  let inner := default ∅ (m !! ci) in
  <[ci := <[id := default [] (inner !! id) ++ [e]]> inner]> m.

Section IncomingConnections.
Context {G : Geometry}.
Variable hc : hier_clusters.
Variable cell_of : N → N.              (* [inst ().inst_ptr.cell_index ()] *)
Variable parent_cells : N → list N.    (* [begin_parent_cells] of the layout's cell *)

(** The two loops of [ensure_computed_parent] over the connections of the
    cell [ci]. *)
Definition record_connections (m : incoming_map) (ci : N) : incoming_map :=
  let cc := clusters_per_cell hc ci in
  foldl (λ m x,
           foldl (λ m (xx : ClusterInstance), push_incoming m (cell_of xx.2) xx.1 (ci, x, xx.2))
                 m (connections_for_cluster cc x))
        m (map_keys (m_connections cc)).

Fixpoint ensure_computed (fuel : nat) (st : incoming_cluster_connections) (ci : N)
    : option incoming_cluster_connections :=
  match fuel with
  | O => None
  | S fuel =>
      let ensure_computed_parent st pc :=
        st' ← ensure_computed fuel st pc;
        Some {| m_called_cells := m_called_cells st';
                m_incoming := record_connections (m_incoming st') pc |} in
      st1 ← foldl (λ acc pc,
                     st ← acc;
                     if decide (pc ∈ m_called_cells st) then ensure_computed_parent st pc
                     else Some st)
                  (Some {| m_called_cells := m_called_cells st;
                           m_incoming := map_insert_new ci ∅ (m_incoming st) |})
                  (parent_cells ci);
      Some {| m_called_cells := m_called_cells st1 ∖ {[ci]};
              m_incoming := m_incoming st1 |}
  end.

Definition ensure_computed_parent (fuel : nat) (st : incoming_cluster_connections) (ci : N)
    : option incoming_cluster_connections :=
  st' ← ensure_computed fuel st ci;
  Some {| m_called_cells := m_called_cells st';
          m_incoming := record_connections (m_incoming st') ci |}.

(** The common start of the two queries: compute on a missing entry, and
    assert that the entry is there. *)
Definition incoming_entry (fuel : nat) (st : incoming_cluster_connections) (ci : N)
    : option (gmap N (list IncomingClusterInstance) * incoming_cluster_connections) :=
  st' ← match m_incoming st !! ci with
        | None => ensure_computed fuel st ci
        | Some _ => Some st
        end;
  i ← m_incoming st' !! ci;
  Some (i, st').

Definition has_incoming (fuel : nat) (st : incoming_cluster_connections) (ci cluster_id : N)
    : option (bool * incoming_cluster_connections) :=
  '(i, st') ← incoming_entry fuel st ci;
  Some (bool_decide (is_Some (i !! cluster_id)), st').

Definition incoming (fuel : nat) (st : incoming_cluster_connections) (ci cluster_id : N)
    : option (list IncomingClusterInstance * incoming_cluster_connections) :=
  '(i, st') ← incoming_entry fuel st ci;
  Some (default [] (i !! cluster_id), st').

(** The connection a recorded triple stands for: the cluster [e.1.2] of
    the cell [e.1.1] is connected to the cluster [id] of the cell [ci]
    through the placement [e.2]. *)
Definition is_incoming (ci id : N) (e : IncomingClusterInstance) : Prop :=
  (id, e.2) ∈ connections_for_cluster (clusters_per_cell hc e.1.1) e.1.2
  ∧ cell_of e.2 = ci.

(** The index holds the connections of the cells of [R], and no empty
    list. *)
Definition records (R : gset N) (m : incoming_map) : Prop :=
  (∀ ci id e, e ∈ incoming_at m ci id ↔ e.1.1 ∈ R ∧ is_incoming ci id e)
  ∧ (∀ ci i id, m !! ci = Some i → i !! id ≠ Some []).

(** The state of the index under the called cells [called0] of the
    constructor: the cells of [R] have been recorded, the cells of [E]
    have been computed for without being recorded, and both are gone from
    the called cells. *)
Definition icc_inv (called0 R E : gset N) (st : incoming_cluster_connections) : Prop :=
  m_called_cells st = called0 ∖ (R ∪ E)
  ∧ records R (m_incoming st)
  ∧ R ⊆ called0.

(** The states a sequence of queries leads to. *)
Inductive icc_reachable (st0 : incoming_cluster_connections)
    : incoming_cluster_connections → Prop :=
| icc_start : icc_reachable st0 st0
| icc_has_incoming st fuel ci id b st' :
    icc_reachable st0 st → has_incoming fuel st ci id = Some (b, st') →
    icc_reachable st0 st'
| icc_incoming st fuel ci id l st' :
    icc_reachable st0 st → incoming fuel st ci id = Some (l, st') →
    icc_reachable st0 st'.

End IncomingConnections.

(** ** build_hier_connections: the local clusters given to the scanner

    The loop over the local clusters in the second block of
    [build_hier_connections].  Every cluster is split; the fragments go to
    the end of [heap], and the scanner gets the cluster itself when the
    split returns 0 and else the last [n] entries of the heap, walking
    back from its end.  The result is what [insert1] was called with, in
    order, and the heap. *)

Section LocalInserts.
Context {G : Geometry}.
Variable area_ratio : ratio.    (* 10.0 *)

Definition local_insert_step (acc : option (list local_cluster * list local_cluster))
    (c : local_cluster) : option (list local_cluster * list local_cluster) :=
  '(inserted, heap) ← acc;
  '(n, out) ← split c area_ratio;
  let heap := heap ++ out in
  Some (inserted ++ (if n =? 0 then [c] else take (N.to_nat n) (reverse heap)), heap).

Definition local_inserts (local : list local_cluster)
    : option (list local_cluster * list local_cluster) :=
  foldl local_insert_step (Some ([], [])) local.

End LocalInserts.

(** ** recursive_cluster_shape_iterator

    The three stacks are lists with the back of the vector at the head.
    [m_shape_iter] is the list of the shapes still to come in the current
    cluster.  [m_conn_iter_stack] holds, for every frame, the connections
    from the current one on. *)

Section ShapeIterator.
Context {G : Geometry}.
Variable hc : hier_clusters.
Variable cell_of : N → N.              (* [inst ().inst_ptr.cell_index ()] *)
Variable inst_trans : N → trans_type.  (* [inst ().complex_trans ()] *)
Variable trans_unit : trans_type.      (* [db::ICplxTrans ()] *)

Record rcs_iterator := mkRcsIterator {
  rcsi_layer : N;                                     (* m_layer *)
  rcsi_id : N;                                        (* m_id *)
  rcsi_trans_stack : list trans_type;                 (* m_trans_stack *)
  rcsi_cell_index_stack : list N;                     (* m_cell_index_stack *)
  rcsi_conn_iter_stack : list (list ClusterInstance); (* m_conn_iter_stack *)
  rcsi_shape_iter : list shape                        (* m_shape_iter *)
}.

(** Modelled from the spec: [at_end], [operator*], [trans], [cell_index]
    and [cluster_id] are defined in dbHierNetworkProcessor.h, which is not
    among the sources.  The iterator is at its end when the shape iterator
    is; [trans ()] is the back of the transformation stack; the current
    cell is the back of the cell stack; the current cluster is the one
    [down] was called for: the id given to the constructor on the first
    frame, and the id of the connection the frame below points to
    otherwise. *)
Definition rcsi_at_end (it : rcs_iterator) : bool :=
  match rcsi_shape_iter it with [] => true | _ => false end.

Definition rcsi_trans (it : rcs_iterator) : trans_type :=
  default trans_unit (head (rcsi_trans_stack it)).

Definition rcsi_cell_index (it : rcs_iterator) : N :=
  default 0 (head (rcsi_cell_index_stack it)).

Definition rcsi_cluster_id (it : rcs_iterator) : N :=
  match rcsi_conn_iter_stack it with
  | _ :: (cli :: _) :: _ => cli.1
  | _ => rcsi_id it
  end.

Definition rcsi_inst_path (it : rcs_iterator) : list ClusterInstance :=
  reverse (omap head (tail (rcsi_conn_iter_stack it))).

(** [down]; [None] is the failed assertion of [cluster_by_id] for the
    id 0. *)
Definition rcsi_down (it : rcs_iterator) (ci id : N) (t : trans_type)
    : option rcs_iterator :=
  let conn := connections_for_cluster (clusters_per_cell hc ci) id in
  let it1 :=
    {| rcsi_layer := rcsi_layer it; rcsi_id := rcsi_id it;
       rcsi_trans_stack :=
         match rcsi_trans_stack it with
         | back :: _ => trans_mul back t :: rcsi_trans_stack it
         | [] => [t]
         end;
       rcsi_cell_index_stack := ci :: rcsi_cell_index_stack it;
       rcsi_conn_iter_stack := conn :: rcsi_conn_iter_stack it;
       rcsi_shape_iter := rcsi_shape_iter it |} in
  cluster ← cluster_by_id (base (clusters_per_cell hc (rcsi_cell_index it1)))
                          (rcsi_cluster_id it1);
  Some {| rcsi_layer := rcsi_layer it1; rcsi_id := rcsi_id it1;
          rcsi_trans_stack := rcsi_trans_stack it1;
          rcsi_cell_index_stack := rcsi_cell_index_stack it1;
          rcsi_conn_iter_stack := rcsi_conn_iter_stack it1;
          rcsi_shape_iter := shapes_on cluster (rcsi_layer it1) |}.

(** The loop of [next_conn], entered with the frame [top] at the back:
    while the back frame is exhausted, [up ()], return if the stack is
    empty, and advance the frame that is now at the back. *)
Fixpoint rcsi_leave (top : list ClusterInstance) (transs : list trans_type)
    (cells : list N) (below : list (list ClusterInstance))
    : list trans_type * list N * list (list ClusterInstance) :=
  match top with
  | _ :: _ => (transs, cells, top :: below)
  | [] =>
      match below with
      | [] => (tail transs, tail cells, [])
      | g :: below' => rcsi_leave (tail g) (tail transs) (tail cells) below'
      end
  end.

(** [next_conn]; [None] stands for the call on an empty stack, where
    [back ()] is read, and for the failed assertion of [down]. *)
Definition rcsi_next_conn (it : rcs_iterator) : option rcs_iterator :=
  match rcsi_conn_iter_stack it with
  | [] => None
  | (cli :: _) :: _ => rcsi_down it (cell_of cli.2) cli.1 (inst_trans cli.2)
  | [] :: below =>
      let '(transs, cells, frames) :=
        rcsi_leave [] (rcsi_trans_stack it) (rcsi_cell_index_stack it) below in
      Some {| rcsi_layer := rcsi_layer it; rcsi_id := rcsi_id it;
              rcsi_trans_stack := transs;
              rcsi_cell_index_stack := cells;
              rcsi_conn_iter_stack := frames;
              rcsi_shape_iter := rcsi_shape_iter it |}
  end.

(** [while (m_shape_iter.at_end () && ! m_conn_iter_stack.empty ())
    next_conn ();] with a bound on the number of rounds; [None] is also
    "out of fuel". *)
Fixpoint rcsi_skip (fuel : nat) (it : rcs_iterator) : option rcs_iterator :=
  match fuel with
  | O => None
  | S fuel =>
      if rcsi_at_end it && negb (bool_decide (rcsi_conn_iter_stack it = []))
      then it' ← rcsi_next_conn it; rcsi_skip fuel it'
      else Some it
  end.

(** The constructor. *)
Definition rcsi_new (fuel : nat) (layer ci id : N) : option rcs_iterator :=
  it ← rcsi_down {| rcsi_layer := layer; rcsi_id := id; rcsi_trans_stack := [];
                    rcsi_cell_index_stack := []; rcsi_conn_iter_stack := [];
                    rcsi_shape_iter := [] |} ci id trans_unit;
  rcsi_skip fuel it.

(** [operator++]. *)
Definition rcsi_incr (fuel : nat) (it : rcs_iterator) : option rcs_iterator :=
  rcsi_skip fuel
    {| rcsi_layer := rcsi_layer it; rcsi_id := rcsi_id it;
       rcsi_trans_stack := rcsi_trans_stack it;
       rcsi_cell_index_stack := rcsi_cell_index_stack it;
       rcsi_conn_iter_stack := rcsi_conn_iter_stack it;
       rcsi_shape_iter := tail (rcsi_shape_iter it) |}.

(** What a loop [for (si (hc, layer, ci, id); ! si.at_end (); ++si)] sees:
    the shape, [trans ()] and [inst_path ()] at every position, for at
    most [n] positions. *)
Fixpoint rcsi_collect (n fuel : nat) (it : rcs_iterator)
    : list (shape * trans_type * list ClusterInstance) :=
  match n with
  | O => []
  | S n' =>
      match rcsi_shape_iter it with
      | [] => []
      | s :: _ =>
          (s, rcsi_trans it, rcsi_inst_path it)
          :: match rcsi_incr fuel it with
             | Some it' => rcsi_collect n' fuel it'
             | None => []
             end
      end
  end.

(** The clusters of a net, depth first, with the transformation into the
    cell the walk started from and the path: the cluster [id] of the cell
    [ci], then what is below each of its connections in turn, down to the
    depth [d]. *)
Fixpoint rcs_visit (d : nat) (ci id : N) (t : trans_type) (path : list ClusterInstance)
    : list (N * N * trans_type * list ClusterInstance) :=
  (ci, id, t, path)
  :: match d with
     | O => []
     | S d' =>
         connections_for_cluster (clusters_per_cell hc ci) id
           ≫= λ cli, rcs_visit d' (cell_of cli.2) cli.1
                               (trans_mul t (inst_trans cli.2)) (path ++ [cli])
     end.

(** The shapes of one cluster of the net on a layer, each with the
    transformation and the path of the cluster. *)
Definition rcs_shapes (layer : N) (x : N * N * trans_type * list ClusterInstance)
    : list (shape * trans_type * list ClusterInstance) :=
  (λ s, (s, x.1.2, x.2))
    <$> shapes_on (default empty_cluster
                     (cluster_by_id (base (clusters_per_cell hc x.1.1.1)) x.1.1.2)) layer.

(** The clusters still to come below the frames of a stack. *)
Fixpoint rcsi_pending_below (rank : N → nat) (below : list (list ClusterInstance))
    (transs : list trans_type) : list (N * N * trans_type * list ClusterInstance) :=
  match below, transs with
  | g :: below', t :: transs' =>
      (tail g ≫= λ cli,
         rcs_visit (rank (cell_of cli.2)) (cell_of cli.2) cli.1
                   (trans_mul t (inst_trans cli.2))
                   (reverse (omap head below') ++ [cli]))
      ++ rcsi_pending_below rank below' transs'
  | _, _ => []
  end.

Definition rcsi_pending (rank : N → nat) (frames : list (list ClusterInstance))
    (transs : list trans_type) : list (N * N * trans_type * list ClusterInstance) :=
  match frames, transs with
  | top :: below, t :: transs' =>
      (top ≫= λ cli,
         rcs_visit (rank (cell_of cli.2)) (cell_of cli.2) cli.1
                   (trans_mul t (inst_trans cli.2))
                   (reverse (omap head below) ++ [cli]))
      ++ rcsi_pending_below rank below transs'
  | _, _ => []
  end.

(** The stacks have the same height, and the frames below the back one
    point to a connection. *)
Definition rcsi_wf (it : rcs_iterator) : Prop :=
  length (rcsi_cell_index_stack it) = length (rcsi_conn_iter_stack it)
  ∧ length (rcsi_trans_stack it) = length (rcsi_conn_iter_stack it)
  ∧ Forall (λ g, g ≠ []) (tail (rcsi_conn_iter_stack it)).

(** What the iterator still has to deliver. *)
Definition rcsi_remaining (rank : N → nat) (it : rcs_iterator)
    : list (shape * trans_type * list ClusterInstance) :=
  ((λ s, (s, rcsi_trans it, rcsi_inst_path it)) <$> rcsi_shape_iter it)
  ++ (rcsi_pending rank (rcsi_conn_iter_stack it) (rcsi_trans_stack it)
        ≫= rcs_shapes (rcsi_layer it)).

End ShapeIterator.

(** ** A sample hierarchy

    Cell 0 places cell 1 twice (placements 10 and 11) and cell 1 places
    cell 2 (placement 20).  Cluster 1 of cell 0 is connected to the
    clusters 1 and 2 of cell 1, and cluster 1 of cell 1 to cluster 1 of
    cell 2. *)

Definition sample_hier : @hier_clusters box_geometry :=
  <[0 := add_connection (add_connection sample_connected 1 (1, 10)) 1 (2, 11)]>
    (<[1 := add_connection sample_connected 1 (1, 20)]> ∅).

(** The cell a placement instantiates. *)
Definition sample_cell_of (inst : N) : N := inst / 10.

(** The displacement of a placement. *)
Definition sample_inst_trans (inst : N) : @trans_type box_geometry :=
  (Z.of_N inst, 0%Z).

(** The depth of the hierarchy below a cell. *)
Definition sample_rank (c : N) : nat := 2 - N.to_nat c.

Definition sample_parent_cells (c : N) : list N :=
  if c =? 1 then [0] else if c =? 2 then [0; 1] else [].

(** The parent instances of a cell with their elements. *)
Definition sample_parent_insts (c : N) : list (N * list N) :=
  if c =? 1 then [(0, [10; 11])] else if c =? 2 then [(1, [20])] else [].

(** What a scanner may report for three shapes: the first two touch, the
    third is alone. *)
Definition sample_deref (p : N) : @shape box_geometry :=
  if p =? 1 then box_A else if p =? 2 then box_B else box_C.

Definition sample_events : list cb_event :=
  [CbAdd 1 (0, 0) 2 (1, 0); CbFinish 3 (0, 5)].

(** ** hc_receiver::make_path

    [mp_tree] is the whole collection, and the clusters of the cell that is
    being stitched are one of its entries: what [make_path] writes into a
    parent cell that is the current cell is seen through [mp_cell_clusters]
    too.  The layout gives, for a child cell, its parent instances: the
    parent cell and the elements of the instance array. *)

Section MakePath.
Context {G : Geometry}.
Variable cell_of : N → N.                       (* [inst_ptr.cell_index ()] *)
Variable parent_insts : N → list (N * list N).  (* [begin_parent_insts ()] *)
Variable current_cell : N.                      (* [mp_cell->cell_index ()] *)

(** Modelled from the spec: [is_root] and [reset_root] are defined in
    dbHierNetworkProcessor.h, which is not among the sources.  The design
    document has [rootFlag (clusterId)] true until the cluster is promoted
    to a parent and [resetRoot (id)] mark the cluster as promoted; the
    marks of a cell are kept here as a set of ids beside the collection. *)
Record mp_state := mkMpState {
  mp_tree : hier_clusters;
  mp_promoted : gmap N (gset N)
}.

Definition is_root (st : mp_state) (cell id : N) : bool :=
  bool_decide (id ∉ default ∅ (mp_promoted st !! cell)).

Definition reset_root (st : mp_state) (cell id : N) : mp_state :=
  {| mp_tree := mp_tree st;
     mp_promoted := <[cell := default ∅ (mp_promoted st !! cell) ∪ {[id]}]> (mp_promoted st) |}.

(** [id_dummy = parent_cc.insert_dummy (); parent_cc.add_connection
    (id_dummy, ci2)] on the clusters of the cell [pc]. *)
Definition add_dummy_connection (hc : hier_clusters) (pc : N) (ci2 : ClusterInstance)
    : N * hier_clusters :=
  let '(parent_cc, hc1) := clusters_per_cell_mut hc pc in
  let '(id_dummy, parent_cc1) := insert_dummy parent_cc in
  (id_dummy, <[pc := add_connection parent_cc1 id_dummy ci2]> hc1).

(** The promotion at the first element of the path: every placement of the
    child cell gets a dummy, but for the one the caller attaches. *)
Definition promote_top (hc : hier_clusters) (child id : N) (ci : ClusterInstance)
    : hier_clusters :=
  foldl (λ hc (pi : N * list N),
           foldl (λ hc pii,
                    let ci2 := (id, pii) in
                    if negb (current_cell =? pi.1) || negb (bool_decide (ci = ci2))
                    then (add_dummy_connection hc pi.1 ci2).2
                    else hc)
                 (clusters_per_cell_mut hc pi.1).2 pi.2)
        hc (parent_insts child).

(** The promotion further down: every placement gets a dummy, and the one
    of the path in [pci] is remembered. *)
Definition promote_inner (hc : hier_clusters) (child id pci : N) (ci : ClusterInstance)
    : hier_clusters * N :=
  foldl (λ (acc : hier_clusters * N) (pi : N * list N),
           foldl (λ (acc : hier_clusters * N) pii,
                    let ci2 := (id, pii) in
                    let '(id_dummy, hc) := add_dummy_connection acc.1 pi.1 ci2 in
                    (hc, if (pci =? pi.1) && bool_decide (ci = ci2) then id_dummy else acc.2))
                 ((clusters_per_cell_mut acc.1 pi.1).2, acc.2) pi.2)
        (hc, 0) (parent_insts child).

(** The loop, at the element [p] with the elements [above] before it in
    the path, the nearest first.  [None] is the failed assertion. *)
Fixpoint make_path_up (st : mp_state) (id p : N) (above : list N)
    : option (ClusterInstance * mp_state) :=
  let ci := (id, p) in
  let child := cell_of p in
  match above with
  | [] =>
      let hc := (clusters_per_cell_mut (mp_tree st) child).2 in
      let st1 := {| mp_tree := hc; mp_promoted := mp_promoted st |} in
      if is_root st1 child id then
        Some (ci, reset_root {| mp_tree := promote_top hc child id ci;
                                mp_promoted := mp_promoted st |} child id)
      else Some (ci, st1)
  | p' :: above' =>
      let pci := cell_of p' in
      let '(target_cc, hc) := clusters_per_cell_mut (mp_tree st) pci in
      let parent_cluster := find_cluster_with_connection target_cc ci in
      if 0 <? parent_cluster then
        make_path_up {| mp_tree := hc; mp_promoted := mp_promoted st |}
                     parent_cluster p' above'
      else
        let hc1 := (clusters_per_cell_mut hc child).2 in
        let st1 := {| mp_tree := hc1; mp_promoted := mp_promoted st |} in
        let '(st2, id_new) :=
          if is_root st1 child id then
            let '(hc2, id_new) := promote_inner hc1 child id pci ci in
            (reset_root {| mp_tree := hc2; mp_promoted := mp_promoted st |} child id, id_new)
          else (st1, 0) in
        if id_new =? 0 then None
        else make_path_up st2 id_new p' above'
  end.

Definition make_path (st : mp_state) (id : N) (path : list N)
    : option (ClusterInstance * mp_state) :=
  match reverse path with
  | [] => None
  | p :: above => make_path_up st id p above
  end.

(** The path leads from the cluster [x] of the cell of its first element
    down to the cluster [id] of the cell of its last element: at every
    element but the last, the cluster reached is not 0 and is the one the
    cell records for the connection to the next cluster through the next
    element. *)
Fixpoint valid_path (hc : hier_clusters) (x : N) (path : list N) (id : N) : Prop :=
  match path with
  | [] => False
  | p :: rest =>
      match rest with
      | [] => x = id
      | p' :: _ =>
          x ≠ 0
          ∧ ∃ y, find_cluster_with_connection (clusters_per_cell hc (cell_of p)) (y, p') = x
               ∧ valid_path hc y rest id
      end
  end.

(** What [make_path] does to the collection: connections are added, the
    local clusters stay, and the lookup of a connection changes only for
    placements of the cells in [cs]. *)
Definition mp_grows (cs : list N) (hc hc' : hier_clusters) : Prop :=
  (∀ cell x k, k ∈ connections_for_cluster (clusters_per_cell hc cell) x →
               k ∈ connections_for_cluster (clusters_per_cell hc' cell) x)
  ∧ (∀ cell, m_clusters (base (clusters_per_cell hc' cell))
             = m_clusters (base (clusters_per_cell hc cell)))
  ∧ (∀ cell y e, cell_of e ∉ cs →
       find_cluster_with_connection (clusters_per_cell hc' cell) (y, e)
       = find_cluster_with_connection (clusters_per_cell hc cell) (y, e)).

End MakePath.

(** ** Dummy ids

    [insert_dummy] counts down from the top of the [size_t] range: the ids
    allocated so far are those from [m_next_dummy_id] up, once the counter
    has left 0. *)

(** The number of dummy ids allocated so far. *)
Definition dummies_allocated {G : Geometry} (lc : local_clusters) : N :=
  (2 ^ 64 - m_next_dummy_id lc) mod 2 ^ 64.

(** There is room for [n] more dummy ids above the slots. *)
Definition dummy_room {G : Geometry} (lc : local_clusters) (n : N) : Prop :=
  clusters_size lc + dummies_allocated lc + n < 2 ^ 64.

(** The id is that of a slot or of a dummy allocated so far. *)
Definition id_in_use {G : Geometry} (lc : local_clusters) (id : N) : Prop :=
  (0 < id ∧ id ≤ clusters_size lc)
  ∨ (m_next_dummy_id lc ≠ 0 ∧ m_next_dummy_id lc ≤ id ∧ id < 2 ^ 64).

(** The connections of the cell are held by ids in use. *)
Record dummies_ok {G : Geometry} (cc : connected_clusters) : Prop := mkDummiesOk {
  dok_counter : m_next_dummy_id (base cc) < 2 ^ 64;
  dok_conn : ∀ id, is_Some (m_connections cc !! id) → id_in_use (base cc) id;
  dok_rev : ∀ ci id, m_rev_connections cc !! ci = Some id → id_in_use (base cc) id
}.


(** ** What a cluster holds *)






(** ** build_hier_connections: the calls on the receiver

    The receiver is made for the clusters of the cell.  The first box
    scanner reports the interacting instances and every interacting pair of
    child clusters goes through the promotion step; the second one reports
    the local clusters against the instances and every interacting pair
    goes through the local step; [join_superclusters] comes last.  Before a
    step, [make_path] may attach a cluster of a child cell to a new dummy of
    this cell ([id_dummy = parent_cc.insert_dummy (); parent_cc.add_connection
    (id_dummy, ci2)] with the current cell as the parent).  The scanners are
    external: what they report is a list of events. *)


Definition add_dummy {G : Geometry} (cc : connected_clusters) (ci2 : ClusterInstance)
    : connected_clusters :=
  let '(id_dummy, cc1) := insert_dummy cc in
  add_connection cc1 id_dummy ci2.









(** * Properties *)

Section ConnectivityProps.
Context {G : Geometry}.

Lemma interacts_unfold c a la b lb trans :
  interacts c a la b lb trans =
    bool_decide (lb ∈ connected_layers c la) && interaction_test_for a b trans.
Proof.
  unfold interacts, connected_layers.
  destruct (m_connected c !! la) as [s|]; simpl.
  - destruct (decide (lb ∈ s)) as [Hin|Hnin].
    + by rewrite bool_decide_eq_true_2.
    + by rewrite bool_decide_eq_false_2.
  - rewrite bool_decide_eq_false_2; [done | set_solver].
Qed.

Lemma interaction_test_for_cases a b trans :
  interaction_test_for a b trans =
    let tb := match trans with
              | None => ref_trans b
              | Some t => trans_mul t (ref_trans b)
              end in
    if obj_is_box a && obj_is_box b then
      interact_box (box_transformed (obj_box a) (ref_trans a))
                   (box_transformed (obj_box b) tb)
    else
      interact_poly (obj_transformed a (ref_trans a)) (obj_transformed b tb).
Proof. by destruct trans. Qed.

(** C7. [Connectivity::interacts] holds exactly when [lb] is a neighbour
    of [la] and the geometric test succeeds; the geometric test is the box
    test on the transformed boxes when both shapes are boxes and the
    polygon test otherwise; a layer [la] without an entry, or a layer [lb]
    that is not a neighbour of [la], gives [false]. *)
Theorem interacts_iff c a la b lb trans :
  (interacts c a la b lb trans = true ↔
     lb ∈ connected_layers c la ∧ interaction_test_for a b trans = true)
  ∧ interaction_test_for a b trans =
      (let tb := match trans with
                 | None => ref_trans b
                 | Some t => trans_mul t (ref_trans b)
                 end in
       if obj_is_box a && obj_is_box b then
         interact_box (box_transformed (obj_box a) (ref_trans a))
                      (box_transformed (obj_box b) tb)
       else
         interact_poly (obj_transformed a (ref_trans a)) (obj_transformed b tb))
  ∧ (m_connected c !! la = None → interacts c a la b lb trans = false)
  ∧ (lb ∉ connected_layers c la → interacts c a la b lb trans = false).
Proof.
  split_and!.
  - rewrite interacts_unfold, andb_true_iff, bool_decide_eq_true. done.
  - apply interaction_test_for_cases.
  - intros Hla. unfold interacts. by rewrite Hla.
  - intros Hnin. rewrite interacts_unfold.
    by rewrite bool_decide_eq_false_2.
Qed.

End ConnectivityProps.

Section LocalClusterProps.
Context {G : Geometry}.

Lemma add_attr_attrs (c : local_cluster) a :
  m_attrs (add_attr c a) = if 0 <? a then m_attrs c ∪ {[a]} else m_attrs c.
Proof. unfold add_attr. by destruct (0 <? a). Qed.

Lemma ensure_sorted_attrs (c : local_cluster) :
  m_attrs (ensure_sorted c) = m_attrs c.
Proof. unfold ensure_sorted. by destruct (m_needs_update c). Qed.

Lemma ensure_sorted_id (c : local_cluster) : m_id (ensure_sorted c) = m_id c.
Proof. unfold ensure_sorted. by destruct (m_needs_update c). Qed.

Lemma built_no_zero_attr (c : local_cluster) : built c → 0 ∉ m_attrs c.
Proof.
  induction 1 as [id|c id _ IH|c _ _|c a _ IH|c s la _ IH|c o _ IHc _ IHo|c _ IH];
    simpl; try set_solver.
  - rewrite add_attr_attrs. destruct (0 <? a) eqn:Ha; [|done].
    apply N.ltb_lt in Ha. set_solver by lia.
  - by rewrite ensure_sorted_attrs.
Qed.

(** C10. [add_attr (0)] leaves the cluster as it is; an attribute enters
    the set only if it is greater than 0, so a cluster built by the
    operations of [local_cluster] never holds the attribute 0. *)
Theorem add_attr_zero :
  (∀ c : local_cluster, add_attr c 0 = c)
  ∧ (∀ (c : local_cluster) a x,
       x ∈ m_attrs (add_attr c a) → x ∈ m_attrs c ∨ (x = a ∧ 0 < a))
  ∧ (∀ c : local_cluster, built c → 0 ∉ m_attrs c).
Proof.
  split_and!.
  - done.
  - intros c a x. rewrite add_attr_attrs.
    destruct (0 <? a) eqn:Ha; [|by left].
    apply N.ltb_lt in Ha. set_solver.
  - apply built_no_zero_attr.
Qed.

End LocalClusterProps.

Section LocalClustersProps.
Context {G : Geometry}.

Lemma cluster_by_id_in_range (lc : local_clusters) id :
  0 < id → id ≤ clusters_size lc → is_Some (m_clusters lc !! slot id).
Proof.
  unfold clusters_size, slot. intros Hpos Hle.
  apply lookup_lt_is_Some. lia.
Qed.

Lemma cluster_by_id_total (lc : local_clusters) id :
  0 < id → is_Some (cluster_by_id lc id).
Proof.
  intros Hpos. unfold cluster_by_id.
  rewrite (proj2 (N.ltb_lt 0 id) Hpos).
  destruct (clusters_size lc <? id) eqn:Hlt; [done|].
  apply N.ltb_ge in Hlt. by apply cluster_by_id_in_range.
Qed.

(** C2, as the code has it.  For an id greater than 0, [cluster_by_id]
    never fails, and gives the empty cluster (no shapes, no attributes,
    size 0) when the id exceeds the number of slots;
    [connections_for_cluster] gives the empty list for an id without an
    entry and [clusters_per_cell] the empty collection for a cell without
    an entry. *)
Theorem empty_queries :
  (∀ (lc : local_clusters) id, 0 < id → is_Some (cluster_by_id lc id))
  ∧ (∀ (lc : local_clusters) id,
       0 < id → clusters_size lc < id → cluster_by_id lc id = Some empty_cluster)
  ∧ (m_shapes empty_cluster = ∅ ∧ m_attrs empty_cluster = ∅ ∧ m_size empty_cluster = 0)
  ∧ (∀ (cc : connected_clusters) id,
       m_connections cc !! id = None → connections_for_cluster cc id = [])
  ∧ (∀ (hc : hier_clusters) cell_index,
       hc !! cell_index = None → clusters_per_cell hc cell_index = connected_clusters_new).
Proof.
  split_and!.
  - apply cluster_by_id_total.
  - intros lc id Hpos Hgt. unfold cluster_by_id.
    by rewrite (proj2 (N.ltb_lt 0 id) Hpos), (proj2 (N.ltb_lt _ _) Hgt).
  - done.
  - done.
  - done.
  - intros cc id Hnone. unfold connections_for_cluster. by rewrite Hnone.
  - intros hc ci Hnone. unfold clusters_per_cell. by rewrite Hnone.
Qed.

Lemma clear_id (c : local_cluster) : m_id (clear c) = m_id c.
Proof. done. Qed.

Lemma join_with_id (c other : local_cluster) : m_id (join_with c other) = m_id c.
Proof. done. Qed.

Lemma alter_ids (f : local_cluster → local_cluster) (cs : list local_cluster) i k :
  (∀ c, m_id (f c) = m_id c) →
  m_id <$> (alter f i cs !! k) = m_id <$> (cs !! k).
Proof.
  intros Hf. rewrite list_lookup_alter. case_decide; [subst|done].
  destruct (cs !! k); [|done]. simpl. f_equal. apply Hf.
Qed.

Lemma slot_inj i j : 0 < i → 0 < j → slot i = slot j → i = j.
Proof. unfold slot. lia. Qed.

Lemma remove_cluster_slots (lc : local_clusters) j :
  length (m_clusters (remove_cluster lc j)) = length (m_clusters lc)
  ∧ (∀ k, m_id <$> (m_clusters (remove_cluster lc j) !! k) = m_id <$> (m_clusters lc !! k))
  ∧ (∀ i, 0 < i → i ≠ j →
       m_clusters (remove_cluster lc j) !! slot i = m_clusters lc !! slot i).
Proof.
  unfold remove_cluster.
  destruct ((j =? 0) || (clusters_size lc <? j)) eqn:Hj; [done|].
  apply orb_false_iff in Hj as [Hj0 _]. apply N.eqb_neq in Hj0.
  simpl. split_and!.
  - by rewrite length_alter.
  - intros k. by apply alter_ids.
  - intros i Hi Hne. apply list_lookup_alter_ne.
    intros Heq. apply Hne. symmetry. apply slot_inj; [lia..|done].
Qed.

Lemma lcs_join_cluster_with_slots (lc lc' : local_clusters) id with_id :
  lcs_join_cluster_with lc id with_id = Some lc' →
  length (m_clusters lc') = length (m_clusters lc)
  ∧ (∀ k, m_id <$> (m_clusters lc' !! k) = m_id <$> (m_clusters lc !! k))
  ∧ (∀ i, 0 < i → i ≠ id → i ≠ with_id →
       m_clusters lc' !! slot i = m_clusters lc !! slot i).
Proof.
  unfold lcs_join_cluster_with.
  destruct (0 <? id) eqn:Hid; [|done]. apply N.ltb_lt in Hid.
  destruct ((with_id =? 0) || (clusters_size lc <? with_id) || (clusters_size lc <? id))
    eqn:Hr; intros [= <-]; [done|].
  apply orb_false_iff in Hr as [Hr _]. apply orb_false_iff in Hr as [Hw0 _].
  apply N.eqb_neq in Hw0.
  simpl. split_and!.
  - by rewrite !length_alter.
  - intros k. rewrite alter_ids by done. by apply alter_ids.
  - intros i Hi Hne1 Hne2.
    rewrite !list_lookup_alter_ne; [done|..];
      intros Heq; [apply Hne1|apply Hne2]; symmetry; apply slot_inj; (lia || done).
Qed.

Lemma remove_cluster_cleared (lc : local_clusters) o c :
  0 < o → cluster_by_id (remove_cluster lc o) o = Some c →
  m_shapes c = ∅ ∧ m_attrs c = ∅ ∧ m_size c = 0.
Proof.
  intros Ho. unfold remove_cluster, cluster_by_id.
  rewrite (proj2 (N.ltb_lt 0 o) Ho), (proj2 (N.eqb_neq o 0)) by lia. simpl.
  destruct (clusters_size lc <? o) eqn:Hlt.
  - rewrite Hlt. by intros [= <-].
  - unfold clusters_size at 1; simpl. rewrite length_alter.
    fold (clusters_size lc). rewrite Hlt.
    rewrite list_lookup_alter, decide_True by done.
    destruct (m_clusters lc !! slot o); [|done]. by intros [= <-].
Qed.

Lemma lcs_join_cluster_with_cleared (lc lc' : local_clusters) id with_id c :
  lcs_join_cluster_with lc id with_id = Some lc' →
  0 < with_id → with_id ≤ clusters_size lc → id ≤ clusters_size lc →
  m_clusters lc' !! slot with_id = Some c →
  m_shapes c = ∅ ∧ m_attrs c = ∅ ∧ m_size c = 0.
Proof.
  unfold lcs_join_cluster_with. intros Hjoin Hw Hwr Hir.
  destruct (0 <? id); [|done].
  rewrite (proj2 (N.eqb_neq with_id 0)), (proj2 (N.ltb_ge _ with_id)),
    (proj2 (N.ltb_ge _ id)) in Hjoin by (done || lia).
  simpl in Hjoin. injection Hjoin as <-. simpl.
  rewrite list_lookup_alter, decide_True by done.
  destruct (_ !! slot with_id); [|done]. by intros [= <-].
Qed.

(** C8. [remove_cluster] and [join_cluster_with] keep the number of slots
    and the id stored in every slot; a removed or absorbed cluster is
    cleared in place (no shapes, no attributes, size 0), and every cluster
    other than those named by the call stays in its slot as it is, so
    looking up a surviving id gives a cluster with the same id as before. *)
Theorem stable_ids :
  (∀ (lc : local_clusters) j,
     length (m_clusters (remove_cluster lc j)) = length (m_clusters lc)
     ∧ (∀ k, m_id <$> (m_clusters (remove_cluster lc j) !! k)
             = m_id <$> (m_clusters lc !! k))
     ∧ (∀ i, 0 < i → i ≠ j →
          m_clusters (remove_cluster lc j) !! slot i = m_clusters lc !! slot i)
     ∧ (∀ i, m_id <$> cluster_by_id (remove_cluster lc j) i
             = m_id <$> cluster_by_id lc i)
     ∧ (∀ c, 0 < j → cluster_by_id (remove_cluster lc j) j = Some c →
             m_shapes c = ∅ ∧ m_attrs c = ∅ ∧ m_size c = 0))
  ∧ (∀ (lc lc' : local_clusters) id with_id,
       lcs_join_cluster_with lc id with_id = Some lc' →
       length (m_clusters lc') = length (m_clusters lc)
       ∧ (∀ k, m_id <$> (m_clusters lc' !! k) = m_id <$> (m_clusters lc !! k))
       ∧ (∀ i, 0 < i → i ≠ id → i ≠ with_id →
            m_clusters lc' !! slot i = m_clusters lc !! slot i)
       ∧ (∀ i, m_id <$> cluster_by_id lc' i = m_id <$> cluster_by_id lc i)
       ∧ (∀ c, 0 < with_id → with_id ≤ clusters_size lc → id ≤ clusters_size lc →
               m_clusters lc' !! slot with_id = Some c →
               m_shapes c = ∅ ∧ m_attrs c = ∅ ∧ m_size c = 0)).
Proof.
  split.
  - intros lc j.
    destruct (remove_cluster_slots lc j) as (Hlen & Hids & Hother).
    split_and!; [done..| |].
    + intros i. unfold cluster_by_id, clusters_size. rewrite Hlen.
      destruct (0 <? i); [|done].
      destruct (N.of_nat (length (m_clusters lc)) <? i); [done|]. apply Hids.
    + intros c Hj. by apply remove_cluster_cleared.
  - intros lc lc' id with_id Hjoin.
    destruct (lcs_join_cluster_with_slots _ _ _ _ Hjoin) as (Hlen & Hids & Hother).
    split_and!; [done..| |].
    + intros i. unfold cluster_by_id, clusters_size. rewrite Hlen.
      destruct (0 <? i); [|done].
      destruct (N.of_nat (length (m_clusters lc)) <? i); [done|]. apply Hids.
    + intros c. by apply lcs_join_cluster_with_cleared.
Qed.

End LocalClustersProps.

Section ConnectedClustersProps.
Context {G : Geometry}.

(** C9. [connected_clusters::join_cluster_with] with equal arguments
    returns the state it was given, whatever the id. *)
Theorem join_cluster_with_self (cc : connected_clusters) (id : N) :
  join_cluster_with cc id id = Some cc.
Proof. unfold join_cluster_with. by rewrite N.eqb_refl. Qed.

End ConnectedClustersProps.

Section ConnectionsProps.
Context {G : Geometry}.
Implicit Types (cc : connected_clusters) (ci : ClusterInstance).

Lemma connections_for_add cc id inst j :
  connections_for_cluster (add_connection cc id inst) j =
    if decide (j = id) then connections_for_cluster cc id ++ [inst]
    else connections_for_cluster cc j.
Proof.
  unfold connections_for_cluster, add_connection; simpl.
  destruct (decide (j = id)) as [->|Hne].
  - rewrite lookup_insert_eq. by destruct (m_connections cc !! id).
  - by rewrite lookup_insert_ne.
Qed.

Lemma find_add cc id inst ci :
  find_cluster_with_connection (add_connection cc id inst) ci =
    if decide (ci = inst) then id else find_cluster_with_connection cc ci.
Proof.
  unfold find_cluster_with_connection, add_connection; simpl.
  destruct (decide (ci = inst)) as [->|Hne].
  - by rewrite lookup_insert_eq.
  - by rewrite lookup_insert_ne.
Qed.

Lemma foldl_insert_lookup `{Countable K} {V} (v : V) (l : list K) (r : gmap K V) k :
  foldl (λ r c, <[c := v]> r) r l !! k =
    if decide (k ∈ l) then Some v else r !! k.
Proof.
  revert r. induction l as [|c l IH]; intros r; simpl.
  - done.
  - rewrite IH. destruct (decide (k ∈ l)) as [Hin|Hnin].
    + case_decide as Hin'; [done|]. destruct Hin'. by right.
    + destruct (decide (k = c)) as [->|Hne].
      * rewrite lookup_insert_eq. case_decide as Hin'; [done|].
        destruct Hin'. by left.
      * rewrite lookup_insert_ne by done. case_decide as Hin'; [|done].
        apply elem_of_cons in Hin' as [?|?]; done.
Qed.

(** What a join with distinct ids does to the connections. *)
Lemma join_cluster_with_connections cc id with_id cc' :
  id ≠ with_id → join_cluster_with cc id with_id = Some cc' →
  0 < id
  ∧ (∀ j, connections_for_cluster cc' j =
          if decide (j = with_id) then []
          else if decide (j = id)
               then connections_for_cluster cc id ++ connections_for_cluster cc with_id
               else connections_for_cluster cc j)
  ∧ m_connections cc' !! with_id = None
  ∧ (∀ ci, m_rev_connections cc' !! ci =
           if decide (ci ∈ connections_for_cluster cc with_id) then Some id
           else m_rev_connections cc !! ci).
Proof.
  intros Hne. unfold join_cluster_with.
  rewrite (proj2 (N.eqb_neq id with_id) Hne).
  destruct (lcs_join_cluster_with (base cc) id with_id) as [b|] eqn:Hb; [|done].
  intros [= <-]; simpl. split_and!.
  - unfold lcs_join_cluster_with in Hb.
    destruct (0 <? id) eqn:Hid; [by apply N.ltb_lt|done].
  - intros j. unfold connections_for_cluster at 1; simpl.
    destruct (decide (j = with_id)) as [->|Hj].
    + by rewrite lookup_delete_eq.
    + rewrite lookup_delete_ne by done.
      destruct (decide (j = id)) as [->|Hj'].
      * rewrite lookup_insert_eq. unfold connections_for_cluster.
        by destruct (m_connections cc !! id).
      * by rewrite lookup_insert_ne.
  - by rewrite lookup_delete_eq.
  - intros ci. apply foldl_insert_lookup.
Qed.

Lemma rev_inverse_add cc id inst :
  rev_inverse cc → id ≠ 0 →
  find_cluster_with_connection cc inst = 0 ∨ find_cluster_with_connection cc inst = id →
  rev_inverse (add_connection cc id inst).
Proof.
  intros [Hr Hc] Hid Hfree. split.
  - intros ci j. simpl. rewrite connections_for_add.
    destruct (decide (ci = inst)) as [->|Hne].
    + rewrite lookup_insert_eq. intros [= <-]. split; [done|].
      rewrite decide_True by done. set_solver.
    + rewrite lookup_insert_ne by done. intros Hl.
      destruct (Hr _ _ Hl) as [Hj Hin]. split; [done|].
      destruct (decide (j = id)) as [->|]; [set_solver|done].
  - intros ci j. rewrite connections_for_add. simpl.
    destruct (decide (ci = inst)) as [->|Hne].
    + rewrite lookup_insert_eq. intros Hin. f_equal.
      destruct (decide (j = id)) as [->|Hj]; [done|].
      apply Hc in Hin. unfold find_cluster_with_connection in Hfree.
      rewrite Hin in Hfree. destruct Hfree as [->| ->]; [|done].
      by destruct (Hr _ _ Hin).
    + rewrite lookup_insert_ne by done. intros Hin. apply Hc.
      destruct (decide (j = id)) as [->|]; [set_solver|done].
Qed.

Lemma rev_inverse_join cc id with_id cc' :
  rev_inverse cc → join_cluster_with cc id with_id = Some cc' → rev_inverse cc'.
Proof.
  intros [Hr Hc] Hjoin.
  destruct (decide (id = with_id)) as [->|Hne].
  { unfold join_cluster_with in Hjoin. rewrite N.eqb_refl in Hjoin.
    by injection Hjoin as <-. }
  destruct (join_cluster_with_connections _ _ _ _ Hne Hjoin)
    as (Hid & Hconn & _ & Hrev).
  split.
  - intros ci j. rewrite Hrev, Hconn.
    destruct (decide (ci ∈ connections_for_cluster cc with_id)) as [Hin|Hnin].
    + intros [= <-]. split; [lia|].
      rewrite decide_False, decide_True by done. set_solver.
    + intros Hl. destruct (Hr _ _ Hl) as [Hj Hin]. split; [done|].
      destruct (decide (j = with_id)) as [->|]; [done|].
      destruct (decide (j = id)) as [->|]; [set_solver|done].
  - intros ci j. rewrite Hrev, Hconn.
    destruct (decide (j = with_id)) as [->|Hj]; [set_solver|].
    destruct (decide (ci ∈ connections_for_cluster cc with_id)) as [Hin|Hnin].
    + destruct (decide (j = id)) as [->|Hj']; [done|].
      intros Hin'. apply Hc in Hin, Hin'. congruence.
    + destruct (decide (j = id)) as [->|Hj']; [|apply Hc].
      intros Hin. apply Hc. set_solver.
Qed.

Lemma guarded_rev_inverse cc : guarded cc → rev_inverse cc.
Proof.
  induction 1 as [cc Hc Hr|cc id inst _ IH Hid Hfree|cc id with_id cc' _ IH Hjoin].
  - split; intros ci id.
    + by rewrite Hr, lookup_empty.
    + unfold connections_for_cluster. rewrite Hc, lookup_empty. set_solver.
  - by apply rev_inverse_add.
  - by eapply rev_inverse_join.
Qed.

(** C3, as the code has it.  In every state reached by
    [join_cluster_with] and by [add_connection] calls made for an id other
    than 0 and an instance not attributed to another cluster,
    [find_cluster_with_connection] gives an id other than 0 exactly for the
    instances in the list of that id, and 0 for an instance in no list.  A
    join of distinct clusters appends the list of [with_id] to the list of
    [id], points every moved instance to [id], leaves the other instances
    and lists alone and erases the list of [with_id]. *)
Theorem rev_connections_inverse :
  (∀ cc, guarded cc →
     (∀ ci id, id ≠ 0 →
        (find_cluster_with_connection cc ci = id ↔ ci ∈ connections_for_cluster cc id))
     ∧ (∀ ci, (∀ id, ci ∉ connections_for_cluster cc id) →
              find_cluster_with_connection cc ci = 0))
  ∧ (∀ cc id with_id cc',
       id ≠ with_id → join_cluster_with cc id with_id = Some cc' →
       connections_for_cluster cc' id =
         connections_for_cluster cc id ++ connections_for_cluster cc with_id
       ∧ m_connections cc' !! with_id = None
       ∧ (∀ j, j ≠ id → j ≠ with_id →
               connections_for_cluster cc' j = connections_for_cluster cc j)
       ∧ (∀ ci, ci ∈ connections_for_cluster cc with_id →
                find_cluster_with_connection cc' ci = id)
       ∧ (∀ ci, ci ∉ connections_for_cluster cc with_id →
                find_cluster_with_connection cc' ci = find_cluster_with_connection cc ci)).
Proof.
  split.
  - intros cc Hg. destruct (guarded_rev_inverse _ Hg) as [Hr Hc]. split.
    + intros ci id Hid. unfold find_cluster_with_connection. split.
      * destruct (m_rev_connections cc !! ci) as [j|] eqn:Hl; [|done].
        intros ->. by destruct (Hr _ _ Hl).
      * intros Hin. by rewrite (Hc _ _ Hin).
    + intros ci Hnone. unfold find_cluster_with_connection.
      destruct (m_rev_connections cc !! ci) as [j|] eqn:Hl; [|done].
      destruct (Hr _ _ Hl) as [_ Hin]. by destruct (Hnone j).
  - intros cc id with_id cc' Hne Hjoin.
    destruct (join_cluster_with_connections _ _ _ _ Hne Hjoin)
      as (Hid & Hconn & Hgone & Hrev).
    split_and!.
    + by rewrite Hconn, decide_False, decide_True.
    + done.
    + intros j Hj1 Hj2. by rewrite Hconn, !decide_False.
    + intros ci Hin. unfold find_cluster_with_connection.
      by rewrite Hrev, decide_True.
    + intros ci Hnin. unfold find_cluster_with_connection.
      by rewrite Hrev, decide_False.
Qed.

End ConnectionsProps.

Section PromoteProps.
Context {G : Geometry}.
Implicit Types (cc : connected_clusters) (ci k : ClusterInstance).


Lemma insert_dummy_find cc ci :
  find_cluster_with_connection (insert_dummy cc).2 ci = find_cluster_with_connection cc ci.
Proof. done. Qed.

End PromoteProps.

Section JoinSetNodes.
Implicit Types (sets : list (nat * gset N)) (h : nat) (s : gset N).

Lemma lookup_node_None sets h : lookup_node sets h = None ↔ h ∉ sets.*1.
Proof.
  induction sets as [|[h' s'] r IH]; simpl.
  - split; [set_solver|done].
  - case_decide as Hh; [subst; set_solver|].
    rewrite IH. set_solver.
Qed.

Lemma lookup_node_Some_elem sets h s : lookup_node sets h = Some s → (h, s) ∈ sets.
Proof.
  induction sets as [|[h' s'] r IH]; simpl; [done|].
  case_decide as Hh.
  - intros [= <-]. subst. by left.
  - intros Hl. right. by apply IH.
Qed.

Lemma elem_lookup_node sets h s :
  NoDup sets.*1 → (h, s) ∈ sets → lookup_node sets h = Some s.
Proof.
  induction sets as [|[h' s'] r IH]; simpl; [by intros _ ?%elem_of_nil|].
  intros [Hnin Hnd]%NoDup_cons [Heq|Hin]%elem_of_cons.
  - injection Heq as -> ->. by rewrite decide_True.
  - case_decide as Hh; [|by apply IH]. subst.
    destruct Hnin. apply list_elem_of_fmap. by exists (h, s).
Qed.

Lemma node_set_lookup sets h : node_set sets h = default ∅ (lookup_node sets h).
Proof.
  induction sets as [|[h' s'] r IH]; simpl; [done|]. by case_decide.
Qed.

Lemma node_update_fst f sets h : (node_update f h sets).*1 = sets.*1.
Proof.
  induction sets as [|[h' s'] r IH]; simpl; [done|].
  case_decide; simpl; [done|]. f_equal. apply IH.
Qed.

Lemma lookup_node_update f sets h h' :
  lookup_node (node_update f h sets) h' =
    if decide (h = h') then f <$> lookup_node sets h else lookup_node sets h'.
Proof.
  induction sets as [|[h0 s0] r IH]; simpl; [by case_decide|].
  destruct (decide (h0 = h)) as [->|Hne]; simpl.
  - destruct (decide (h = h')) as [->|Hne']; [done|]. done.
  - rewrite IH. destruct (decide (h0 = h')) as [->|Hne'].
    + by rewrite decide_False.
    + done.
Qed.

Lemma node_erase_fst_subseteq sets h h' :
  h' ∈ (node_erase h sets).*1 → h' ∈ sets.*1.
Proof.
  induction sets as [|[h0 s0] r IH]; simpl; [done|].
  case_decide; simpl; set_solver.
Qed.

Lemma node_erase_NoDup sets h : NoDup sets.*1 → NoDup (node_erase h sets).*1.
Proof.
  induction sets as [|[h0 s0] r IH]; simpl; [done|].
  intros [Hnin Hnd]%NoDup_cons. case_decide; simpl; [done|].
  apply NoDup_cons. split; [|by apply IH].
  intros Hin. by apply Hnin, (node_erase_fst_subseteq _ h).
Qed.

Lemma lookup_node_erase sets h h' :
  NoDup sets.*1 →
  lookup_node (node_erase h sets) h' =
    if decide (h = h') then None else lookup_node sets h'.
Proof.
  induction sets as [|[h0 s0] r IH]; simpl; [by case_decide|].
  intros [Hnin Hnd]%NoDup_cons.
  destruct (decide (h0 = h)) as [->|Hne]; simpl.
  - destruct (decide (h = h')) as [->|Hne']; [|done].
    by apply lookup_node_None.
  - rewrite IH by done. destruct (decide (h0 = h')) as [->|Hne'].
    + by rewrite decide_False.
    + done.
Qed.

Lemma lookup_node_app sets h0 s0 h :
  lookup_node (sets ++ [(h0, s0)]) h =
    match lookup_node sets h with
    | Some s => Some s
    | None => if decide (h0 = h) then Some s0 else None
    end.
Proof.
  induction sets as [|[h' s'] r IH]; simpl; [by case_decide|].
  destruct (decide (h' = h)); [done|apply IH].
Qed.

Lemma elem_of_set_iter (s : gset N) x : x ∈ set_iter s ↔ x ∈ s.
Proof. unfold set_iter. by rewrite merge_sort_Permutation, elem_of_elements. Qed.

Lemma set_iter_NoDup (s : gset N) : NoDup (set_iter s).
Proof. unfold set_iter. rewrite merge_sort_Permutation. apply NoDup_elements. Qed.

(** The first element of the iteration is the least one and the later
    ones are greater. *)
Lemma set_iter_cons (s : gset N) c rest :
  set_iter s = c :: rest →
  c ∈ s ∧ (∀ x, x ∈ s → c ≤ x) ∧ (∀ x, x ∈ rest ↔ x ∈ s ∧ c < x).
Proof.
  intros Hit.
  pose proof (set_iter_NoDup s) as Hnd. rewrite Hit in Hnd.
  apply NoDup_cons in Hnd as [Hnin _].
  assert (Hsorted : StronglySorted N.le (c :: rest)).
  { rewrite <- Hit. unfold set_iter. apply StronglySorted_merge_sort; apply _. }
  apply StronglySorted_inv in Hsorted as [_ Hall].
  rewrite Forall_forall in Hall.
  assert (Hmem : ∀ x, x ∈ s ↔ x = c ∨ x ∈ rest).
  { intros x. rewrite <- elem_of_set_iter, Hit. apply elem_of_cons. }
  split_and!.
  - apply Hmem. by left.
  - intros x [->|Hin]%Hmem; [done|]. by apply Hall.
  - intros x. rewrite Hmem. split.
    + intros Hin. split; [by right|].
      specialize (Hall _ Hin). assert (x ≠ c) by (by intros ->). lia.
    + intros [[->|Hin] Hlt]; [lia|done].
Qed.

Lemma elem_of_join_pairs sets t w :
  (t, w) ∈ join_pairs sets ↔
  ∃ h s, (h, s) ∈ sets ∧ t ∈ s ∧ w ∈ s ∧ t < w ∧ ∀ x, x ∈ s → t ≤ x.
Proof.
  unfold join_pairs. rewrite list_elem_of_bind. split.
  - intros ([h s] & Hin & Hs). simpl in Hin.
    destruct (set_iter s) as [|c rest] eqn:Hit; [by apply elem_of_nil in Hin|].
    apply list_elem_of_fmap in Hin as (x & [= -> ->] & Hx).
    destruct (set_iter_cons _ _ _ Hit) as (Hc & Hmin & Hrest).
    apply Hrest in Hx as [Hx Hlt]. by exists h, s.
  - intros (h & s & Hs & Ht & Hw & Hlt & Hmin).
    exists (h, s). split; [|done]. simpl.
    destruct (set_iter s) as [|c rest] eqn:Hit.
    { apply elem_of_set_iter in Ht. rewrite Hit in Ht. by apply elem_of_nil in Ht. }
    destruct (set_iter_cons _ _ _ Hit) as (Hc & Hmin' & Hrest).
    assert (c = t) as -> by (specialize (Hmin _ Hc); specialize (Hmin' _ Ht); lia).
    apply list_elem_of_fmap. exists w. split; [done|]. by apply Hrest.
Qed.

End JoinSetNodes.

Section MarkToJoinProps.
Context {G : Geometry}.
Implicit Types (r : hc_receiver) (a b : N).

Lemma join_inv_new (cc : connected_clusters) : join_inv (hc_receiver_new cc).
Proof.
  split; simpl.
  - constructor.
  - intros h Hh. by apply elem_of_nil in Hh.
  - done.
  - intros i h. rewrite lookup_empty. split; [done|]. by intros (s & ? & _).
Qed.

Lemma mark_to_join_cell_clusters r a b :
  mp_cell_clusters (mark_to_join r a b) = mp_cell_clusters r.
Proof.
  unfold mark_to_join.
  destruct (m_cm2join_map r !! a), (m_cm2join_map r !! b); try done.
  by case_decide.
Qed.

(** A handle the map holds is in the list. *)
Lemma inv_map_node r i h :
  join_inv r → m_cm2join_map r !! i = Some h →
  ∃ s, lookup_node (m_cm2join_sets r) h = Some s ∧ i ∈ s.
Proof. intros Hinv. apply (inv_map r Hinv). Qed.

Lemma inv_unrecorded r i h s :
  join_inv r → m_cm2join_map r !! i = None →
  lookup_node (m_cm2join_sets r) h = Some s → i ∉ s.
Proof.
  intros Hinv Hnone Hl Hin.
  assert (m_cm2join_map r !! i = Some h) as Hsome by (apply (inv_map r Hinv); eauto).
  congruence.
Qed.

Lemma lookup_node_handle sets h s : lookup_node sets h = Some s → h ∈ sets.*1.
Proof.
  intros Hl. destruct (decide (h ∈ sets.*1)) as [|Hnin]; [done|].
  apply lookup_node_None in Hnin. congruence.
Qed.

(** First case: neither id is recorded. *)
Lemma mark_to_join_inv_new r a b :
  join_inv r → m_cm2join_map r !! a = None → m_cm2join_map r !! b = None →
  join_inv {| mp_cell_clusters := mp_cell_clusters r;
              m_cm2join_map := <[b := next_node r]> (<[a := next_node r]> (m_cm2join_map r));
              m_cm2join_sets := m_cm2join_sets r ++ [(next_node r, {[a]} ∪ {[b]})];
              next_node := S (next_node r) |}.
Proof.
  intros Hinv Ha Hb.
  assert (Hfresh : lookup_node (m_cm2join_sets r) (next_node r) = None).
  { apply lookup_node_None. intros Hin. apply (inv_fresh r Hinv) in Hin. lia. }
  assert (Hlook : ∀ h,
    lookup_node (m_cm2join_sets r ++ [(next_node r, {[a]} ∪ {[b]})]) h =
      if decide (h = next_node r) then Some ({[a]} ∪ {[b]})
      else lookup_node (m_cm2join_sets r) h).
  { intros h. rewrite lookup_node_app.
    destruct (decide (h = next_node r)) as [->|Hne].
    - by rewrite Hfresh, decide_True.
    - destruct (lookup_node (m_cm2join_sets r) h); [done|].
      by rewrite decide_False. }
  split; simpl.
  - rewrite fmap_app. apply NoDup_app. split_and!.
    + apply (inv_nodup r Hinv).
    + intros h Hh ->%list_elem_of_singleton.
      apply (inv_fresh r Hinv) in Hh. simpl in Hh. lia.
    + apply NoDup_singleton.
  - intros h. rewrite fmap_app, elem_of_app.
    intros [Hh| ->%list_elem_of_singleton]; [|simpl; lia].
    apply (inv_fresh r Hinv) in Hh. lia.
  - intros h1 h2 s1 s2 Hne. rewrite !Hlook.
    destruct (decide (h1 = next_node r)) as [->|H1];
      destruct (decide (h2 = next_node r)) as [->|H2]; try done.
    + intros [= <-] Hl2.
      pose proof (inv_unrecorded r a h2 s2 Hinv Ha Hl2).
      pose proof (inv_unrecorded r b h2 s2 Hinv Hb Hl2). set_solver.
    + intros Hl1 [= <-].
      pose proof (inv_unrecorded r a h1 s1 Hinv Ha Hl1).
      pose proof (inv_unrecorded r b h1 s1 Hinv Hb Hl1). set_solver.
    + by apply (inv_disjoint r Hinv).
  - intros i h. rewrite Hlook.
    destruct (decide (i = b)) as [->|Hib]; [|destruct (decide (i = a)) as [->|Hia]].
    + rewrite lookup_insert_eq. split.
      * intros [= <-]. rewrite decide_True by done. eexists; split; [done|set_solver].
      * intros (s & Hl & Hin). case_decide as Hh; [by subst|].
        by destruct (inv_unrecorded r b h s Hinv Hb Hl).
    + rewrite lookup_insert_ne, lookup_insert_eq by done. split.
      * intros [= <-]. rewrite decide_True by done. eexists; split; [done|set_solver].
      * intros (s & Hl & Hin). case_decide as Hh; [by subst|].
        by destruct (inv_unrecorded r a h s Hinv Ha Hl).
    + rewrite !lookup_insert_ne by done. rewrite (inv_map r Hinv).
      case_decide as Hh; [|done]. subst. rewrite Hfresh. split.
      * by intros (s & ? & _).
      * intros (s & [= <-] & Hin). set_solver.
Qed.

(** Second and third case: one id is recorded and the other one enters its
    set. *)
Lemma mark_to_join_inv_extend r a y :
  join_inv r → m_cm2join_map r !! a = None → y ∈ (m_cm2join_sets r).*1 →
  join_inv {| mp_cell_clusters := mp_cell_clusters r;
              m_cm2join_map := <[a := y]> (m_cm2join_map r);
              m_cm2join_sets := node_update (λ s, s ∪ {[a]}) y (m_cm2join_sets r);
              next_node := next_node r |}.
Proof.
  intros Hinv Ha Hy.
  split; simpl.
  - rewrite node_update_fst. apply (inv_nodup r Hinv).
  - intros h. rewrite node_update_fst. apply (inv_fresh r Hinv).
  - intros h1 h2 s1 s2 Hne. rewrite !lookup_node_update.
    destruct (decide (y = h1)) as [<-|H1]; destruct (decide (y = h2)) as [<-|H2];
      try done.
    + destruct (lookup_node (m_cm2join_sets r) y) as [sy|] eqn:Hsy; [|done].
      intros [= <-] Hl2.
      pose proof (inv_unrecorded r a h2 s2 Hinv Ha Hl2).
      pose proof (inv_disjoint r Hinv _ _ _ _ Hne Hsy Hl2). set_solver.
    + destruct (lookup_node (m_cm2join_sets r) y) as [sy|] eqn:Hsy; [|done].
      intros Hl1 [= <-].
      pose proof (inv_unrecorded r a h1 s1 Hinv Ha Hl1).
      pose proof (inv_disjoint r Hinv _ _ _ _ Hne Hl1 Hsy). set_solver.
    + by apply (inv_disjoint r Hinv).
  - intros i h. rewrite lookup_node_update.
    destruct (lookup_node (m_cm2join_sets r) y) as [sy|] eqn:Hsy;
      [|by apply lookup_node_None in Hsy].
    destruct (decide (i = a)) as [->|Hia].
    + rewrite lookup_insert_eq. split.
      * intros [= <-]. rewrite decide_True by done. simpl.
        eexists; split; [done|set_solver].
      * intros (s & Hl & Hin). case_decide as Hh; [by subst|].
        by destruct (inv_unrecorded r a h s Hinv Ha Hl).
    + rewrite lookup_insert_ne by done. rewrite (inv_map r Hinv).
      case_decide as Hh; [subst h; rewrite Hsy; simpl|done]. split.
      * intros (s & [= <-] & Hin). eexists; split; [done|set_solver].
      * intros (s & [= <-] & Hin). eexists; split; [done|set_solver].
Qed.

(** Fourth case: two sets are merged and the one of [y] is erased. *)
Lemma mark_to_join_inv_merge r x y sy :
  join_inv r → x ≠ y → x ∈ (m_cm2join_sets r).*1 →
  lookup_node (m_cm2join_sets r) y = Some sy →
  join_inv {| mp_cell_clusters := mp_cell_clusters r;
              m_cm2join_map :=
                foldl (λ m i, <[i := x]> m) (m_cm2join_map r) (set_iter sy);
              m_cm2join_sets :=
                node_erase y (node_update (λ s, s ∪ sy) x (m_cm2join_sets r));
              next_node := next_node r |}.
Proof.
  intros Hinv Hne Hx Hsy.
  destruct (lookup_node (m_cm2join_sets r) x) as [sx|] eqn:Hsx;
    [|by apply lookup_node_None in Hsx].
  assert (Hlook : ∀ h,
    lookup_node (node_erase y (node_update (λ s, s ∪ sy) x (m_cm2join_sets r))) h =
      if decide (h = y) then None
      else if decide (h = x) then Some (sx ∪ sy)
      else lookup_node (m_cm2join_sets r) h).
  { intros h. rewrite lookup_node_erase
      by (rewrite node_update_fst; apply (inv_nodup r Hinv)).
    rewrite lookup_node_update, Hsx. simpl.
    destruct (decide (y = h)) as [<-|]; [by rewrite decide_True|].
    rewrite (decide_False (P := h = y)) by congruence.
    destruct (decide (x = h)) as [<-|]; [by rewrite decide_True|].
    by rewrite (decide_False (P := h = x)) by congruence. }
  pose proof (inv_disjoint r Hinv _ _ _ _ Hne Hsx Hsy) as Hxy.
  split; simpl.
  - apply node_erase_NoDup. rewrite node_update_fst. apply (inv_nodup r Hinv).
  - intros h Hh. apply node_erase_fst_subseteq in Hh.
    rewrite node_update_fst in Hh. by apply (inv_fresh r Hinv).
  - intros h1 h2 s1 s2 H12. rewrite !Hlook.
    destruct (decide (h1 = y)) as [->|H1y]; [done|].
    destruct (decide (h2 = y)) as [->|H2y]; [done|].
    destruct (decide (h1 = x)) as [->|H1x]; destruct (decide (h2 = x)) as [->|H2x];
      try done.
    + intros [= <-] Hl2.
      pose proof (inv_disjoint r Hinv _ _ _ _ H12 Hsx Hl2).
      pose proof (inv_disjoint r Hinv _ _ _ _ H2y Hl2 Hsy). set_solver.
    + intros Hl1 [= <-].
      pose proof (inv_disjoint r Hinv _ _ _ _ H12 Hl1 Hsx).
      pose proof (inv_disjoint r Hinv _ _ _ _ H1y Hl1 Hsy). set_solver.
    + by apply (inv_disjoint r Hinv).
  - intros i h. rewrite foldl_insert_lookup, Hlook.
    destruct (decide (i ∈ set_iter sy)) as [Hi|Hi]; rewrite elem_of_set_iter in Hi.
    + split.
      * intros [= <-]. rewrite decide_False, decide_True by done.
        eexists; split; [done|set_solver].
      * intros (s & Hl & Hin).
        destruct (decide (h = y)) as [->|Hhy]; [done|].
        destruct (decide (h = x)) as [->|Hhx]; [done|].
        pose proof (inv_disjoint r Hinv _ _ _ _ Hhy Hl Hsy). set_solver.
    + rewrite (inv_map r Hinv).
      destruct (decide (h = y)) as [->|Hhy].
      { rewrite Hsy. split; [|by intros (s & ? & _)].
        intros (s & [= <-] & Hin). done. }
      destruct (decide (h = x)) as [->|Hhx]; [|done].
      rewrite Hsx. split.
      * intros (s & [= <-] & Hin). eexists; split; [done|set_solver].
      * intros (s & [= <-] & Hin). eexists; split; [done|set_solver].
Qed.

Lemma mark_to_join_inv r a b : join_inv r → join_inv (mark_to_join r a b).
Proof.
  intros Hinv. unfold mark_to_join.
  destruct (m_cm2join_map r !! a) as [x|] eqn:Ha;
    destruct (m_cm2join_map r !! b) as [y|] eqn:Hb.
  - case_decide as Hxy; [done|].
    destruct (inv_map_node r a x Hinv Ha) as (sx & Hsx & _).
    destruct (inv_map_node r b y Hinv Hb) as (sy & Hsy & _).
    rewrite node_set_lookup, Hsy. simpl.
    apply mark_to_join_inv_merge; [done..| |done].
    by eapply lookup_node_handle.
  - destruct (inv_map_node r a x Hinv Ha) as (sx & Hsx & _).
    apply mark_to_join_inv_extend; [done..|]. by eapply lookup_node_handle.
  - destruct (inv_map_node r b y Hinv Hb) as (sy & Hsy & _).
    apply mark_to_join_inv_extend; [done..|]. by eapply lookup_node_handle.
  - by apply mark_to_join_inv_new.
Qed.

Lemma run_marks_inv r calls : join_inv r → join_inv (run_marks r calls).
Proof.
  revert r. induction calls as [|[a b] calls IH]; intros r Hinv; [done|].
  simpl. by apply IH, mark_to_join_inv.
Qed.



End MarkToJoinProps.

Section JoinSuperclustersProps.
Context {G : Geometry}.
Implicit Types (r : hc_receiver) (cc : connected_clusters).

Lemma apply_joins_app cc l1 l2 :
  apply_joins cc (l1 ++ l2) = apply_joins cc l1 ≫= λ cc', apply_joins cc' l2.
Proof.
  unfold apply_joins. rewrite foldl_app.
  destruct (foldl _ (Some cc) l1) as [cc'|]; simpl; [done|].
  induction l2 as [|p l2 IH]; [done|]. simpl. apply IH.
Qed.

Lemma join_set_pairs cc (s : gset N) :
  join_set cc s =
    apply_joins cc (match set_iter s with
                    | [] => []
                    | c :: rest => (λ x, (c, x)) <$> rest
                    end).
Proof.
  unfold join_set, apply_joins.
  destruct (set_iter s) as [|c rest]; [done|].
  generalize (Some cc). induction rest as [|x rest IH]; intros acc; [done|].
  simpl. apply IH.
Qed.

Lemma join_pairs_cons (hs : nat * gset N) sets :
  join_pairs (hs :: sets) =
    match set_iter hs.2 with
    | [] => []
    | c :: rest => (λ x, (c, x)) <$> rest
    end ++ join_pairs sets.
Proof. done. Qed.

Lemma join_superclusters_loop (acc : option connected_clusters) sets :
  foldl (λ acc (sc : nat * gset N), cc' ← acc; join_set cc' sc.2) acc sets =
    acc ≫= λ cc, apply_joins cc (join_pairs sets).
Proof.
  revert acc. induction sets as [|hs sets IH]; intros acc.
  - by destruct acc.
  - rewrite join_pairs_cons. cbn [foldl]. rewrite IH.
    destruct acc as [cc|]; [|done]. cbn [mbind option_bind].
    by rewrite apply_joins_app, join_set_pairs.
Qed.

End JoinSuperclustersProps.

Section DoBuildProps.
Implicit Types (ly : Layout) (called : gset N) (st : build_state).

Lemma build_hier_connections_for_cells_app (trace cells : list N) :
  build_hier_connections_for_cells trace cells = trace ++ cells.
Proof.
  unfold build_hier_connections_for_cells.
  revert trace. induction cells as [|c cells IH]; intros trace; simpl.
  - by rewrite app_nil_r.
  - rewrite IH. by rewrite <- app_assoc.
Qed.

Lemma do_build_loop_cons ly called st c cells :
  do_build_loop ly called st (c :: cells) =
    do_build_step ly called st c ≫= λ st', do_build_loop ly called st' cells.
Proof.
  unfold do_build_loop. simpl.
  destruct (do_build_step ly called st c) as [st'|]; [done|]. simpl.
  induction cells as [|c' cells IH]; [done|]. apply IH.
Qed.

Lemma filter_split (P : N → Prop) `{∀ x, Decision (P x)} (l l1 l2 : list N) c :
  filter P l = l1 ++ c :: l2 →
  ∃ p1 p2, l = p1 ++ c :: p2 ∧ filter P p1 = l1 ∧ filter P p2 = l2.
Proof.
  revert l1. induction l as [|x l IH]; intros l1.
  - intros Hf. by destruct l1.
  - rewrite filter_cons. destruct (decide (P x)) as [HP|HP].
    + destruct l1 as [|y l1]; simpl.
      * intros [= -> Hf]. exists [], l. by rewrite filter_nil.
      * intros [= -> Hf]. destruct (IH _ Hf) as (p1 & p2 & -> & H1 & H2).
        exists (y :: p1), p2. split_and!; [done| |done].
        by rewrite filter_cons_True, H1.
    + intros Hf. destruct (IH _ Hf) as (p1 & p2 & -> & H1 & H2).
      exists (x :: p1), p2. split_and!; [done| |done].
      by rewrite filter_cons_False.
Qed.

(** A sequence with the children first has everything reachable first. *)
Lemma children_first_reachable ly cells :
  children_first ly cells → reachable_first ly cells.
Proof.
  intros Hcf l1 c l2 Hsplit d Htc. revert l1 l2 Hsplit.
  induction Htc as [c d Hcd|c e d Hce _ IH]; intros l1 l2 Hsplit.
  - by eapply Hcf.
  - assert (e ∈ l1) as He by by eapply Hcf.
    apply list_elem_of_split in He as (l1a & l1b & ->).
    assert (d ∈ l1a) as Hd.
    { apply (IH l1a (l1b ++ c :: l2)). by rewrite Hsplit, <- app_assoc. }
    set_solver.
Qed.

(** The invariant of the loop: the cells stitched or waiting are the called
    cells seen so far, in order, and [done] holds the stitched ones. *)
Lemma do_build_loop_trace ly called st p rest :
  children_first ly (p ++ rest) →
  (∀ c d, c ∈ called → is_child ly c d → d ∈ called) →
  stitched st ++ todo st = filter (λ c, c ∈ called) p →
  done st = list_to_set (stitched st) →
  ∃ st', do_build_loop ly called st rest = Some st'
       ∧ stitched st' ++ todo st' = filter (λ c, c ∈ called) (p ++ rest)
       ∧ done st' = list_to_set (stitched st').
Proof.
  intros Hcf Hclosed. revert st p Hcf.
  induction rest as [|c rest IH]; intros st p Hcf Htrace Hdone.
  - exists st. by rewrite app_nil_r.
  - rewrite do_build_loop_cons.
    assert (Hnext : ∀ st1,
      stitched st1 ++ todo st1 = filter (λ c, c ∈ called) (p ++ [c]) →
      done st1 = list_to_set (stitched st1) →
      ∃ st', do_build_loop ly called st1 rest = Some st'
           ∧ stitched st' ++ todo st' = filter (λ c, c ∈ called) (p ++ c :: rest)
           ∧ done st' = list_to_set (stitched st')).
    { intros st1 H1 H2. rewrite (cons_middle c p rest), app_assoc.
      apply IH; [|done..]. by rewrite <- app_assoc. }
    unfold do_build_step.
    destruct (decide (c ∈ called)) as [Hc|Hc].
    + destruct (forallb _ (child_cells ly c)) eqn:Hall.
      * simpl. apply Hnext; simpl; [|done].
        rewrite filter_app, filter_cons_True, filter_nil by done.
        by rewrite app_assoc, Htrace.
      * assert (todo st ≠ []) as Htodo.
        { intros Hnil. apply not_true_iff_false in Hall. apply Hall.
          apply forallb_forall. intros d Hd. apply bool_decide_eq_true.
          apply list_elem_of_In in Hd.
          assert (d ∈ p) as Hp by (by eapply Hcf).
          assert (d ∈ called) as Hdc by (by eapply Hclosed).
          rewrite Hdone. apply elem_of_list_to_set.
          rewrite Hnil, app_nil_r in Htrace. rewrite Htrace.
          by apply list_elem_of_filter. }
        destruct (todo st) as [|t ts] eqn:Ht; [done|]. rewrite <- Ht in Htrace |- *.
        cbn [mbind option_bind]. apply Hnext; cbn [stitched todo done].
        -- rewrite build_hier_connections_for_cells_app.
           rewrite filter_app, filter_cons_True, filter_nil by done.
           by rewrite Htrace.
        -- rewrite build_hier_connections_for_cells_app, list_to_set_app_L.
           by rewrite Hdone.
    + simpl. apply Hnext; [|done].
      rewrite filter_app, filter_cons_False, filter_nil by done.
      by rewrite app_nil_r.
Qed.

(** C5. On a layout whose bottom-up sequence lists every cell once, has
    the children of a cell before the cell and holds the called cells,
    [do_build] makes its calls of [build_hier_connections] without failing
    its assertion: once for the top cell and for every cell reachable from
    it, for no other cell, and for a cell only after its children and
    everything reachable from it. *)
Theorem do_build_bottom_up ly (top : N) :
  NoDup (bottom_up ly) →
  children_first ly (bottom_up ly) →
  (∀ c, c ∈ called_set ly top → c ∈ bottom_up ly) →
  (∀ d, d ∈ collect_called_cells ly top ↔ tc (is_child ly) top d) →
  ∃ trace, do_build ly top = Some trace
    ∧ NoDup trace
    ∧ (∀ c, c ∈ trace ↔ c = top ∨ tc (is_child ly) top c)
    ∧ children_first ly trace
    ∧ reachable_first ly trace.
Proof.
  intros Hnd Hcf Hin Hcalled.
  assert (Hmem : ∀ c, c ∈ called_set ly top ↔ c = top ∨ tc (is_child ly) top c).
  { intros c. unfold called_set. rewrite elem_of_union, Hcalled, elem_of_singleton.
    tauto. }
  assert (Hclosed : ∀ c d, c ∈ called_set ly top → is_child ly c d →
                           d ∈ called_set ly top).
  { intros c d Hc Hcd. apply Hmem. right. apply Hmem in Hc as [->|Hc].
    - by apply tc_once.
    - by eapply tc_r. }
  destruct (do_build_loop_trace ly (called_set ly top)
              {| done := ∅; todo := []; stitched := [] |} [] (bottom_up ly))
    as (st & Hloop & Htrace & _); [done..|].
  simpl in Htrace.
  assert (Hcf' : children_first ly (filter (λ c, c ∈ called_set ly top) (bottom_up ly))).
  { intros l1 c l2 Hsplit d Hcd.
    assert (c ∈ called_set ly top) as Hc.
    { assert (c ∈ filter (λ c, c ∈ called_set ly top) (bottom_up ly)) as Hc
        by (rewrite Hsplit; set_solver).
      by apply list_elem_of_filter in Hc as [Hc _]. }
    apply filter_split in Hsplit as (p1 & p2 & Hbu & <- & _).
    apply list_elem_of_filter. split; [by eapply Hclosed|by eapply Hcf]. }
  exists (filter (λ c, c ∈ called_set ly top) (bottom_up ly)). split_and!.
  - unfold do_build. rewrite Hloop. simpl.
    by rewrite build_hier_connections_for_cells_app, Htrace.
  - by apply NoDup_filter.
  - intros c. rewrite list_elem_of_filter, <- Hmem. split; [tauto|].
    intros Hc. split; [done|by apply Hin].
  - done.
  - by apply children_first_reachable.
Qed.

End DoBuildProps.

Section ShapeCountProps.
Context {G : Geometry}.
Implicit Types (m : gmap N (list shape)) (c : local_cluster) (l la : N).

Lemma map_keys_perm {A} (m : gmap N A) : map_keys m ≡ₚ elements (dom m).
Proof. unfold map_keys. apply merge_sort_Permutation. Qed.

Lemma map_keys_NoDup {A} (m : gmap N A) : NoDup (map_keys m).
Proof. rewrite map_keys_perm. apply NoDup_elements. Qed.

Lemma elem_of_map_keys {A} (m : gmap N A) l : l ∈ map_keys m ↔ is_Some (m !! l).
Proof. by rewrite map_keys_perm, elem_of_elements, elem_of_dom. Qed.

Lemma tree_of_not_key m l : l ∉ map_keys m → tree_of m l = [].
Proof.
  rewrite elem_of_map_keys. unfold tree_of.
  destruct (m !! l); [|done]. intros []. by eexists.
Qed.

Lemma tree_of_insert m la t l :
  tree_of (<[la := t]> m) l = if decide (l = la) then t else tree_of m l.
Proof.
  unfold tree_of. destruct (decide (l = la)) as [->|Hne].
  - by rewrite lookup_insert_eq.
  - by rewrite lookup_insert_ne.
Qed.

Lemma shape_count_sum m :
  shape_count m = sum_list_with (λ l, length (tree_of m l)) (map_keys m).
Proof.
  unfold shape_count, all_shapes.
  induction (map_keys m) as [|k ks IH]; simpl; [done|].
  by rewrite length_app, IH.
Qed.

Lemma sum_list_with_ext (f g : N → nat) ks :
  (∀ l, l ∈ ks → f l = g l) → sum_list_with f ks = sum_list_with g ks.
Proof.
  induction ks as [|k ks IH]; intros Hfg; simpl; [done|].
  rewrite Hfg, IH; [done| |]; set_solver.
Qed.

Lemma sum_list_with_bump (f f' : N → nat) la ks :
  NoDup ks → la ∈ ks → f' la = S (f la) → (∀ l, l ≠ la → f' l = f l) →
  sum_list_with f' ks = S (sum_list_with f ks).
Proof.
  intros Hnd Hin Hla Hother.
  induction ks as [|k ks IH]; [by apply elem_of_nil in Hin|].
  apply NoDup_cons in Hnd as [Hk Hnd]. simpl.
  destruct (decide (k = la)) as [->|Hne].
  - rewrite Hla. rewrite (sum_list_with_ext f' f); [lia|].
    intros l Hl. apply Hother. by intros ->.
  - rewrite Hother by done. rewrite IH; [lia|done|]. set_solver.
Qed.

Lemma map_keys_insert m la t :
  map_keys (<[la := t]> m) ≡ₚ
    if decide (la ∈ map_keys m) then map_keys m else la :: map_keys m.
Proof.
  destruct (decide (la ∈ map_keys m)) as [Hin|Hnin].
  - rewrite map_keys_perm, elem_of_elements in Hin.
    rewrite !map_keys_perm, dom_insert_L.
    by replace ({[la]} ∪ dom m) with (dom m) by set_solver.
  - rewrite map_keys_perm, elem_of_elements in Hnin.
    rewrite !map_keys_perm, dom_insert_L.
    by rewrite elements_union_singleton.
Qed.

Lemma shape_count_insert m la s :
  shape_count (<[la := tree_of m la ++ [s]]> m) = S (shape_count m).
Proof.
  rewrite !shape_count_sum, map_keys_insert.
  set (f' := λ l, length (tree_of (<[la := tree_of m la ++ [s]]> m) l)).
  set (f := λ l, length (tree_of m l)).
  assert (Hla : f' la = S (f la)).
  { unfold f', f. rewrite tree_of_insert, decide_True by done.
    rewrite length_app. simpl. lia. }
  assert (Hother : ∀ l, l ≠ la → f' l = f l).
  { intros l Hl. unfold f', f. by rewrite tree_of_insert, decide_False. }
  destruct (decide (la ∈ map_keys m)) as [Hin|Hnin].
  - apply (sum_list_with_bump f f' la); [apply map_keys_NoDup|done..].
  - simpl. rewrite Hla. unfold f at 1. rewrite tree_of_not_key by done. simpl.
    f_equal. apply sum_list_with_ext. intros l Hl. apply Hother. by intros ->.
Qed.

Lemma tree_of_add c s la l :
  tree_of (m_shapes (add c s la)) l =
    if decide (l = la) then tree_of (m_shapes c) la ++ [s] else tree_of (m_shapes c) l.
Proof. apply tree_of_insert. Qed.

Lemma size_ok_new id : size_ok (local_cluster_new id).
Proof. done. Qed.

Lemma size_ok_add c s la : size_ok c → size_ok (add c s la).
Proof.
  unfold size_ok. simpl. intros ->. rewrite shape_count_insert. lia.
Qed.

Lemma join_fold_tree (f : N → list shape) ls m l :
  NoDup ls →
  tree_of (foldl (λ m l, <[l := tree_of m l ++ f l]> m) m ls) l =
    if decide (l ∈ ls) then tree_of m l ++ f l else tree_of m l.
Proof.
  revert m. induction ls as [|k ks IH]; intros m Hnd; simpl.
  - done.
  - apply NoDup_cons in Hnd as [Hk Hnd]. rewrite IH by done.
    rewrite !tree_of_insert.
    destruct (decide (l = k)) as [->|Hne].
    + rewrite decide_False by done. by rewrite decide_True by set_solver.
    + destruct (decide (l ∈ ks)) as [Hin|Hnin].
      * by rewrite decide_True by set_solver.
      * by rewrite decide_False by set_solver.
Qed.

Lemma shapes_on_join_with (c other : local_cluster) l :
  shapes_on (join_with c other) l = shapes_on c l ++ shapes_on other l.
Proof.
  unfold shapes_on, join_with; simpl.
  rewrite join_fold_tree by apply map_keys_NoDup.
  destruct (decide (l ∈ map_keys (m_shapes other))) as [Hin|Hnin]; [done|].
  by rewrite (tree_of_not_key _ _ Hnin), app_nil_r.
Qed.

Lemma shapes_on_foldl_join_with (c : local_cluster) frags l :
  shapes_on (foldl join_with c frags) l =
    shapes_on c l ++ concat ((λ f, shapes_on f l) <$> frags).
Proof.
  revert c. induction frags as [|f frags IH]; intros c; simpl.
  - by rewrite app_nil_r.
  - by rewrite IH, shapes_on_join_with, <- app_assoc.
Qed.

Lemma attrs_foldl_join_with (c : local_cluster) frags :
  Forall (λ f, m_attrs f = ∅) frags → m_attrs (foldl join_with c frags) = m_attrs c.
Proof.
  revert c. induction frags as [|f frags IH]; intros c Hall; simpl; [done|].
  apply Forall_cons in Hall as [Hf Hall]. rewrite IH by done. simpl.
  rewrite Hf. set_solver.
Qed.

Lemma id_foldl_join_with (c : local_cluster) frags :
  m_id (foldl join_with c frags) = m_id c.
Proof.
  revert c. induction frags as [|f frags IH]; intros c; simpl; [done|].
  by rewrite IH.
Qed.

End ShapeCountProps.

Section SplitProps.
Context {G : Geometry} {GL : GeometryLaws G}.
Implicit Types (c cl : local_cluster) (ab : local_cluster * local_cluster) (l : N).

Lemma shape_count_ensure_sorted cl :
  shape_count (m_shapes (ensure_sorted cl)) = shape_count (m_shapes cl).
Proof.
  unfold ensure_sorted. destruct (m_needs_update cl); [|done]. simpl.
  rewrite !shape_count_sum.
  assert (map_keys (tree_sort <$> m_shapes cl) = map_keys (m_shapes cl)) as ->.
  { unfold map_keys. by rewrite dom_fmap_L. }
  apply sum_list_with_ext. intros l _. unfold tree_of.
  rewrite lookup_fmap. destruct (m_shapes cl !! l) as [t|]; simpl; [|done].
  by rewrite tree_sort_perm.
Qed.

Lemma shapes_on_ensure_sorted cl l :
  shapes_on (ensure_sorted cl) l ≡ₚ shapes_on cl l.
Proof.
  unfold ensure_sorted, shapes_on. destruct (m_needs_update cl); [|done]. simpl.
  unfold tree_of. rewrite lookup_fmap.
  destruct (m_shapes cl !! l) as [t|]; simpl; [|done]. apply tree_sort_perm.
Qed.

Lemma split_dispatch_fold xthr ythr l0 xs ab :
  halves_grow (λ _, goes_left xthr ythr) (λ l, if decide (l = l0) then xs else [])
    (length xs) ab (foldl (split_dispatch xthr ythr l0) ab xs).
Proof.
  revert ab. induction xs as [|s xs IH]; intros ab.
  - unfold halves_grow. simpl. split_and!; try done.
    + intros l. case_decide; by rewrite filter_nil, app_nil_r.
    + intros l. case_decide; by rewrite filter_nil, app_nil_r.
    + lia.
  - simpl. specialize (IH (split_dispatch xthr ythr l0 ab s)).
    destruct IH as (Ha & Hb & Hia & Hib & Haa & Hab & Hsa & Hsb & Hn).
    unfold split_dispatch in *. fold (goes_left xthr ythr s) in *.
    unfold halves_grow.
    destruct (decide (goes_left xthr ythr s)) as [Hs|Hs].
    + unfold goes_left in Hs. rewrite Hs in *. simpl in *.
      split_and!; try done.
      * intros l. rewrite Ha, tree_of_insert.
        destruct (decide (l = l0)) as [->|Hl].
        -- rewrite filter_cons_True by done. by rewrite <- app_assoc.
        -- by rewrite !filter_nil, !app_nil_r.
      * intros l. rewrite Hb. destruct (decide (l = l0)) as [->|Hl]; [|done].
        by rewrite filter_cons_False by (intros Hn'; by apply Hn').
      * intros Hok. by apply Hsa, size_ok_add.
      * lia.
    + unfold goes_left in Hs. apply not_true_is_false in Hs.
      rewrite Hs in *. simpl in *.
      split_and!; try done.
      * intros l. rewrite Ha. destruct (decide (l = l0)) as [->|Hl]; [|done].
        rewrite filter_cons_False; [done|]. unfold goes_left. by rewrite Hs.
      * intros l. rewrite Hb, tree_of_insert.
        destruct (decide (l = l0)) as [->|Hl].
        -- rewrite filter_cons_True; [by rewrite <- app_assoc|].
           unfold goes_left. by rewrite Hs.
        -- by rewrite !filter_nil, !app_nil_r.
      * intros Hok. by apply Hsb, size_ok_add.
      * lia.
Qed.

Lemma split_layers_fold xthr ythr (shapes : N → list shape) ls ab :
  NoDup ls →
  halves_grow (λ _, goes_left xthr ythr) (λ l, if decide (l ∈ ls) then shapes l else [])
    (sum_list_with (λ l, length (shapes l)) ls) ab
    (foldl (λ ab l, foldl (split_dispatch xthr ythr l) ab (shapes l)) ab ls).
Proof.
  revert ab. induction ls as [|k ks IH]; intros ab Hnd.
  - unfold halves_grow. simpl. split_and!; try done.
    + intros l. by rewrite filter_nil, app_nil_r.
    + intros l. by rewrite filter_nil, app_nil_r.
    + lia.
  - apply NoDup_cons in Hnd as [Hk Hnd]. simpl.
    pose proof (split_dispatch_fold xthr ythr k (shapes k) ab)
      as (Ha1 & Hb1 & Hia1 & Hib1 & Haa1 & Hab1 & Hsa1 & Hsb1 & Hn1).
    specialize (IH (foldl (split_dispatch xthr ythr k) ab (shapes k)) Hnd).
    destruct IH as (Ha & Hb & Hia & Hib & Haa & Hab & Hsa & Hsb & Hn).
    unfold halves_grow. split_and!; try congruence; try tauto.
    + intros l. rewrite Ha, Ha1, <- app_assoc. f_equal.
      destruct (decide (l = k)) as [->|Hl].
      * rewrite decide_False by done. rewrite decide_True by set_solver.
        by rewrite filter_nil, app_nil_r.
      * rewrite filter_nil. simpl.
        destruct (decide (l ∈ ks)); [by rewrite decide_True by set_solver|].
        by rewrite decide_False by set_solver.
    + intros l. rewrite Hb, Hb1, <- app_assoc. f_equal.
      destruct (decide (l = k)) as [->|Hl].
      * rewrite decide_False by done. rewrite decide_True by set_solver.
        by rewrite filter_nil, app_nil_r.
      * rewrite filter_nil. simpl.
        destruct (decide (l ∈ ks)); [by rewrite decide_True by set_solver|].
        by rewrite decide_False by set_solver.
    + lia.
Qed.

(** One level of the split: the two halves hold the shapes of the cluster,
    layer by layer, carry its id and no attribute, and their sizes count
    their shapes. *)
Lemma split_halves_spec cl a b :
  split_halves cl = (a, b) →
  (∀ l, shapes_on a l ++ shapes_on b l ≡ₚ shapes_on cl l)
  ∧ m_id a = m_id cl ∧ m_id b = m_id cl
  ∧ m_attrs a = ∅ ∧ m_attrs b = ∅
  ∧ size_ok a ∧ size_ok b
  ∧ m_size a + m_size b = N.of_nat (shape_count (m_shapes cl)).
Proof.
  unfold split_halves, layers. intros Hsplit.
  match type of Hsplit with
  | foldl (λ ab l, foldl (split_dispatch ?x ?y l) ab _) ?ab0 ?ls = _ =>
      pose proof (split_layers_fold x y (shapes_on (ensure_sorted cl)) ls ab0
                    (map_keys_NoDup _)) as Hgrow;
      set (xthr := x) in *; set (ythr := y) in *
  end.
  rewrite Hsplit in Hgrow.
  destruct Hgrow as (Ha & Hb & Hia & Hib & Haa & Hab & Hsa & Hsb & Hn).
  simpl in *. split_and!; try done.
  - intros l. unfold shapes_on at 1 2. rewrite Ha, Hb. simpl.
    assert (tree_of ∅ l = []) as -> by (unfold tree_of; by rewrite lookup_empty).
    simpl. rewrite <- (shapes_on_ensure_sorted cl l).
    destruct (decide (l ∈ map_keys (m_shapes (ensure_sorted cl)))) as [Hin|Hnin].
    + apply filter_app_complement.
    + unfold shapes_on. by rewrite (tree_of_not_key _ _ Hnin).
  - by apply Hsa.
  - by apply Hsb.
  - rewrite Hn, <- shape_count_ensure_sorted, shape_count_sum. done.
Qed.

End SplitProps.

Section SplitClusterProps.
Context {G : Geometry} {GL : GeometryLaws G}.
Implicit Types (c cl : local_cluster) (l : N).

(** The fragments emitted for a half that was, or was not, split further. *)
Lemma fragments_arrange {A} (na nb : N) (outa outb : list A) (a b : A) :
  (let '(na', out) := if na =? 0 then (1, (outa ++ outb) ++ [a]) else (na, outa ++ outb) in
   let '(nb', out) := if nb =? 0 then (1, out ++ [b]) else (nb, out) in
   Some (na' + nb', out)) =
  Some ((if na =? 0 then 1 else na) + (if nb =? 0 then 1 else nb),
        (outa ++ outb) ++ (if na =? 0 then [a] else []) ++ (if nb =? 0 then [b] else [])).
Proof.
  destruct (na =? 0), (nb =? 0); simpl; by rewrite ?app_nil_r, <- ?app_assoc.
Qed.

Lemma split_cluster_spec (fuel : nat) cl (r : ratio) :
  (shape_count (m_shapes cl) < fuel)%nat →
  ∃ n out, split_cluster fuel cl r = Some (n, out)
    ∧ n = N.of_nat (length out)
    ∧ Forall (λ f, m_id f = m_id cl ∧ m_attrs f = ∅) out
    ∧ (n ≠ 0 → ∀ l, concat ((λ f, shapes_on f l) <$> out) ≡ₚ shapes_on cl l).
Proof.
  revert cl. induction fuel as [|fuel IH]; intros cl Hfuel; [lia|].
  simpl. destruct (area_ratio_lt cl r).
  { exists 0, []. by split_and!. }
  destruct (split_halves cl) as [a b] eqn:Hhalves.
  destruct (split_halves_spec _ _ _ Hhalves)
    as (Hperm & Hida & Hidb & Hatta & Hattb & Hsa & Hsb & Hsize).
  destruct ((m_size a =? 0) || (m_size b =? 0)) eqn:Hzero.
  { exists 0, []. by split_and!. }
  apply orb_false_iff in Hzero as [Hza Hzb].
  apply N.eqb_neq in Hza, Hzb. unfold size_ok in Hsa, Hsb.
  destruct (IH a) as (na & outa & -> & Hna & Hfa & Hpa); [lia|].
  destruct (IH b) as (nb & outb & -> & Hnb & Hfb & Hpb); [lia|].
  cbn [mbind option_bind]. rewrite fragments_arrange.
  eexists _, _. split; [done|].
  assert (Hfraga : ∀ l,
    concat ((λ f, shapes_on f l) <$> (outa ++ if na =? 0 then [a] else []))
    ≡ₚ shapes_on a l).
  { intros l. destruct (na =? 0) eqn:Hz.
    - apply N.eqb_eq in Hz. destruct outa; [|simpl in Hna; lia].
      simpl. by rewrite app_nil_r.
    - apply N.eqb_neq in Hz. rewrite app_nil_r. by apply Hpa. }
  assert (Hfragb : ∀ l,
    concat ((λ f, shapes_on f l) <$> (outb ++ if nb =? 0 then [b] else []))
    ≡ₚ shapes_on b l).
  { intros l. destruct (nb =? 0) eqn:Hz.
    - apply N.eqb_eq in Hz. destruct outb; [|simpl in Hnb; lia].
      simpl. by rewrite app_nil_r.
    - apply N.eqb_neq in Hz. rewrite app_nil_r. by apply Hpb. }
  split_and!.
  - rewrite !length_app. destruct (na =? 0) eqn:Hza', (nb =? 0) eqn:Hzb';
      try apply N.eqb_eq in Hza'; try apply N.eqb_eq in Hzb';
      subst; simpl; lia.
  - rewrite !Forall_app. split_and!.
    + eapply Forall_impl; [exact Hfa|]. intros f [? ?]. split; congruence.
    + eapply Forall_impl; [exact Hfb|]. intros f [? ?]. split; congruence.
    + destruct (na =? 0); [|done]. by repeat constructor.
    + destruct (nb =? 0); [|done]. by repeat constructor.
  - intros _ l. rewrite <- Hperm, <- Hfraga, <- Hfragb.
    rewrite !fmap_app, !concat_app.
    rewrite <- !app_assoc. f_equiv. rewrite !app_assoc. f_equiv.
    apply Permutation_app_comm.
Qed.

(** More fuel does not change a result. *)
Lemma split_cluster_fuel_mono (fuel : nat) cl (r : ratio) res :
  split_cluster fuel cl r = Some res → split_cluster (S fuel) cl r = Some res.
Proof.
  revert cl res. induction fuel as [|fuel IH]; intros cl res; [done|].
  intros Hres. simpl in Hres. change (split_cluster (S (S fuel)) cl r) with
    (if area_ratio_lt cl r then Some (0, [])
     else
       let '(a, b) := split_halves cl in
       if (m_size a =? 0) || (m_size b =? 0) then Some (0, [])
       else
         ra ← split_cluster (S fuel) a r;
         rb ← split_cluster (S fuel) b r;
         let '(na, outa) := ra in
         let '(nb, outb) := rb in
         let out := outa ++ outb in
         let '(na, out) := if na =? 0 then (1, out ++ [a]) else (na, out) in
         let '(nb, out) := if nb =? 0 then (1, out ++ [b]) else (nb, out) in
         Some (na + nb, out)).
  destruct (area_ratio_lt cl r); [done|].
  destruct (split_halves cl) as [a b].
  destruct ((m_size a =? 0) || (m_size b =? 0)); [done|].
  destruct (split_cluster fuel a r) as [ra|] eqn:Ha; [|done].
  destruct (split_cluster fuel b r) as [rb|] eqn:Hb; [|done].
  by rewrite (IH _ _ Ha), (IH _ _ Hb).
Qed.

Lemma split_cluster_enough_fuel (fuel : nat) cl (r : ratio) :
  (shape_count (m_shapes cl) < fuel)%nat → split_cluster fuel cl r = split cl r.
Proof.
  intros Hfuel. unfold split.
  destruct (split_cluster_spec (S (shape_count (m_shapes cl))) cl r)
    as (n & out & Hres & _); [lia|]. rewrite Hres.
  assert (Hmono : ∀ k : nat,
    split_cluster (k + S (shape_count (m_shapes cl))) cl r = Some (n, out)).
  { intros k. induction k as [|k IHk]; [done|]. by apply split_cluster_fuel_mono. }
  specialize (Hmono (fuel - S (shape_count (m_shapes cl)))%nat).
  by replace (fuel - S (shape_count (m_shapes cl)) + S (shape_count (m_shapes cl)))%nat
    with fuel in Hmono by lia.
Qed.

(** C6, as the code has it.  [split] returns for every cluster, whatever
    the threshold; the count returned is the number of fragments emitted;
    every fragment has the id of the cluster and no attribute (the split
    does not copy the attributes); and when fragments were emitted, joining
    them gives, layer by layer, the shapes of the cluster up to their order.
    A recursion with more fuel than the cluster has shapes gives the same
    result. *)
Theorem split_reassemble cl (r : ratio) :
  ∃ n out, split cl r = Some (n, out)
    ∧ n = N.of_nat (length out)
    ∧ (∀ f, f ∈ out → m_id f = m_id cl ∧ m_attrs f = ∅)
    ∧ (n ≠ 0 →
         (∀ l, shapes_on (join_all (m_id cl) out) l ≡ₚ shapes_on cl l)
         ∧ m_id (join_all (m_id cl) out) = m_id cl
         ∧ m_attrs (join_all (m_id cl) out) = ∅)
    ∧ (∀ fuel : nat, (shape_count (m_shapes cl) < fuel)%nat →
         split_cluster fuel cl r = Some (n, out)).
Proof.
  destruct (split_cluster_spec (S (shape_count (m_shapes cl))) cl r)
    as (n & out & Hres & Hn & Hall & Hperm); [lia|].
  exists n, out. split_and!; [done..| | |].
  - intros f Hf. by apply (proj1 (Forall_forall _ _) Hall).
  - intros Hn0. unfold join_all. split_and!.
    + intros l. rewrite shapes_on_foldl_join_with. simpl.
      unfold shapes_on at 1. simpl. unfold tree_of at 1. rewrite lookup_empty.
      simpl. by apply Hperm.
    + by rewrite id_foldl_join_with.
    + rewrite attrs_foldl_join_with; [done|].
      eapply Forall_impl; [exact Hall|]. by intros f [_ ?].
  - intros fuel Hfuel. by rewrite split_cluster_enough_fuel.
Qed.

End SplitClusterProps.

(** ** The joins of the promotion step and of [join_superclusters] *)

Section LocalJoinProps.
Context {G : Geometry}.
Implicit Types (lc : local_clusters) (c : local_cluster).

Lemma lcs_join_cluster_with_is_Some lc id with_id :
  0 < id → is_Some (lcs_join_cluster_with lc id with_id).
Proof.
  intros Hid. unfold lcs_join_cluster_with.
  rewrite (proj2 (N.ltb_lt 0 id) Hid). by destruct (_ || _).
Qed.

Lemma join_cluster_with_is_Some (cc : connected_clusters) id with_id :
  0 < id → is_Some (join_cluster_with cc id with_id).
Proof.
  intros Hid. unfold join_cluster_with. destruct (id =? with_id); [done|].
  by destruct (lcs_join_cluster_with_is_Some (base cc) id with_id Hid) as [b ->].
Qed.






Lemma clear_clear c : clear (clear c) = clear c.
Proof. done. Qed.







End LocalJoinProps.

(** The ids [insert_dummy] allocates. *)
Section DummyProps.
Context {G : Geometry}.
Implicit Types (cc : connected_clusters) (lc : local_clusters) (ci k : ClusterInstance).

Lemma pow64 : 2 ^ 64 = 18446744073709551616.
Proof. reflexivity. Qed.

Lemma insert_dummy_id cc :
  m_next_dummy_id (base cc) < 2 ^ 64 →
  (insert_dummy cc).1 =
    if decide (m_next_dummy_id (base cc) = 0) then 2 ^ 64 - 1
    else m_next_dummy_id (base cc) - 1.
Proof.
  intros Hc. unfold insert_dummy. cbn [fst]. rewrite pow64 in *.
  case_decide as H0.
  - rewrite H0. reflexivity.
  - symmetry. apply (N.mod_unique _ _ 1); lia.
Qed.

Lemma dummies_allocated_eq lc :
  m_next_dummy_id lc < 2 ^ 64 →
  dummies_allocated lc =
    if decide (m_next_dummy_id lc = 0) then 0 else 2 ^ 64 - m_next_dummy_id lc.
Proof.
  intros Hc. unfold dummies_allocated. rewrite pow64 in *.
  case_decide as H0.
  - rewrite H0. reflexivity.
  - apply N.mod_small. lia.
Qed.


(** The id [insert_dummy] gives is new: not 0, beyond the slots and below
    the dummies allocated so far. *)
Lemma insert_dummy_fresh cc :
  dummies_ok cc → dummy_room (base cc) 1 →
  (insert_dummy cc).1 ≠ 0
  ∧ clusters_size (base cc) < (insert_dummy cc).1
  ∧ (insert_dummy cc).1 < 2 ^ 64
  ∧ ¬ id_in_use (base cc) (insert_dummy cc).1
  ∧ m_connections cc !! (insert_dummy cc).1 = None
  ∧ (∀ ci, find_cluster_with_connection cc ci ≠ (insert_dummy cc).1)
  ∧ dummy_room (base (insert_dummy cc).2) 0.
Proof.
  intros [Hc Hconn Hrev] Hroom. unfold dummy_room in *.
  assert (Hc' : m_next_dummy_id (base (insert_dummy cc).2) < 2 ^ 64).
  { unfold insert_dummy. simpl. apply N.mod_lt. by rewrite pow64. }
  rewrite (dummies_allocated_eq _ Hc').
  rewrite (dummies_allocated_eq _ Hc) in Hroom.
  assert (Hn : m_next_dummy_id (base (insert_dummy cc).2) = (insert_dummy cc).1) by done.
  assert (Hs : clusters_size (base (insert_dummy cc).2) = clusters_size (base cc)) by done.
  rewrite Hn, Hs. rewrite insert_dummy_id by done.
  set (n := m_next_dummy_id (base cc)) in *. set (sz := clusters_size (base cc)) in *.
  assert (Hfree : ¬ id_in_use (base cc)
                    (if decide (n = 0) then 2 ^ 64 - 1 else n - 1)).
  { unfold id_in_use. fold n sz. rewrite pow64 in *. repeat case_decide; lia. }
  split_and!.
  - rewrite pow64 in *. repeat case_decide; lia.
  - rewrite pow64 in *. repeat case_decide; lia.
  - rewrite pow64 in *. repeat case_decide; lia.
  - done.
  - apply eq_None_not_Some. intros Hsome. by apply Hfree, Hconn.
  - intros ci Hfind. unfold find_cluster_with_connection in Hfind.
    destruct (m_rev_connections cc !! ci) as [id|] eqn:Hl.
    + apply Hfree. rewrite <- Hfind. by eapply Hrev.
    + rewrite pow64 in *. repeat case_decide; lia.
  - rewrite pow64 in *. repeat case_decide; lia.
Qed.


Lemma dummies_ok_add cc id ci :
  dummies_ok cc → id_in_use (base cc) id → dummies_ok (add_connection cc id ci).
Proof.
  intros [Hc Hconn Hrev] Hid. split; simpl.
  - done.
  - intros j. destruct (decide (j = id)) as [->|Hne]; [done|].
    rewrite lookup_insert_ne by done. apply Hconn.
  - intros ci' j. destruct (decide (ci' = ci)) as [->|Hne].
    + rewrite lookup_insert_eq. by intros [= <-].
    + rewrite lookup_insert_ne by done. apply Hrev.
Qed.

Lemma id_in_use_insert_dummy cc id :
  dummies_ok cc → dummy_room (base cc) 1 →
  id_in_use (base cc) id ∨ id = (insert_dummy cc).1 →
  id_in_use (base (insert_dummy cc).2) id.
Proof.
  intros Hok Hroom Hid.
  destruct (insert_dummy_fresh cc Hok Hroom) as (Hd0 & Hdsz & Hdlt & _).
  pose proof (dok_counter _ Hok) as Hc.
  assert (Hn : m_next_dummy_id (base (insert_dummy cc).2) = (insert_dummy cc).1) by done.
  assert (Hs : clusters_size (base (insert_dummy cc).2) = clusters_size (base cc)) by done.
  unfold id_in_use in *. rewrite Hn, Hs.
  rewrite insert_dummy_id in * by done.
  rewrite pow64 in *. repeat case_decide; lia.
Qed.

Lemma dummies_ok_insert_dummy cc :
  dummies_ok cc → dummy_room (base cc) 1 → dummies_ok (insert_dummy cc).2.
Proof.
  intros Hok Hroom. split.
  - unfold insert_dummy. simpl. apply N.mod_lt. by rewrite pow64.
  - intros id Hid. apply id_in_use_insert_dummy; [done..|]. left.
    by apply (dok_conn _ Hok).
  - intros ci id Hid. apply id_in_use_insert_dummy; [done..|]. left.
    by apply (dok_rev _ Hok ci).
Qed.

Lemma dummies_ok_add_dummy cc ci :
  dummies_ok cc → dummy_room (base cc) 1 → dummies_ok (add_dummy cc ci).
Proof.
  intros Hok Hroom. unfold add_dummy.
  pose proof (dummies_ok_insert_dummy cc Hok Hroom) as Hok1.
  pose proof (id_in_use_insert_dummy cc (insert_dummy cc).1 Hok Hroom (or_intror eq_refl))
    as Hin.
  destruct (insert_dummy cc) as [d cc1]. by apply dummies_ok_add.
Qed.



End DummyProps.

(** What the joins of [join_superclusters] leave. *)
Section JoinedProps.
Context {G : Geometry}.
Implicit Types (cc : connected_clusters) (r : hc_receiver).

Lemma apply_joins_is_Some cc pairs :
  (∀ t w, (t, w) ∈ pairs → 0 < t) → is_Some (apply_joins cc pairs).
Proof.
  unfold apply_joins. revert cc. induction pairs as [|[t w] pairs IH]; intros cc Hpos.
  - by eexists.
  - simpl. destruct (join_cluster_with_is_Some cc t w) as [cc1 ->].
    + apply (Hpos t w). by left.
    + apply IH. intros t' w' Hin. apply (Hpos t' w'). by right.
Qed.

Lemma rev_inverse_same cc cc' :
  m_connections cc' = m_connections cc → m_rev_connections cc' = m_rev_connections cc →
  rev_inverse cc → rev_inverse cc'.
Proof.
  unfold rev_inverse, connections_for_cluster. intros -> ->. done.
Qed.

Lemma apply_joins_rev_inverse cc pairs cc' :
  rev_inverse cc → apply_joins cc pairs = Some cc' → rev_inverse cc'.
Proof.
  unfold apply_joins. revert cc. induction pairs as [|[t w] pairs IH]; intros cc Hinv.
  - simpl. by intros [= <-].
  - simpl. destruct (join_cluster_with cc t w) as [cc1|] eqn:Hj.
    + apply IH. by eapply rev_inverse_join.
    + intros Hnone. exfalso. revert Hnone. clear.
      induction pairs as [|p pairs IH]; [done|]. simpl. apply IH.
Qed.









End JoinedProps.

(** The two scans of [build_hier_connections]. *)
Section ReceiverRunProps.
Context {G : Geometry}.
Implicit Types (cc : connected_clusters) (r : hc_receiver).














End ReceiverRunProps.

Section PromoteCases.
Context {G : Geometry}.
Implicit Types (cc : connected_clusters) (ci k : ClusterInstance).


End PromoteCases.

Section JoinSuperclustersCases.
Context {G : Geometry}.
Implicit Types (r : hc_receiver) (cc : connected_clusters).


End JoinSuperclustersCases.

(** * The properties on the sample data *)

Lemma box_geometry_laws : GeometryLaws box_geometry.
Proof. split. intros l. reflexivity. Qed.

(** Counterexample to C2 as stated: the id 0 fails the assertion of
    [cluster_by_id]; no cluster is returned for it. *)
Lemma cluster_by_id_zero_fails :
  cluster_by_id sample_clusters 0 = None
  ∧ cluster_by_id sample_clusters 0 ≠ Some empty_cluster.
Proof. split; [reflexivity | discriminate]. Qed.

(** Counterexample to C3 as stated: after [add_connection (1, k)] and
    [add_connection (2, k)] the instance [k] is in the list of cluster 1
    and [find_cluster_with_connection] gives 2. *)
Lemma rev_connections_not_inverse :
  ∃ cc, run_ops sample_connected [OpAdd 1 (5, 0); OpAdd 2 (5, 0)] = Some cc
      ∧ (5, 0) ∈ connections_for_cluster cc 1
      ∧ find_cluster_with_connection cc (5, 0) = 2
      ∧ ¬ ((find_cluster_with_connection cc (5, 0) = 1)
           ↔ ((5, 0) ∈ connections_for_cluster cc 1)).
Proof.
  eexists. split; [reflexivity|].
  assert (Hin : (5, 0) ∈ connections_for_cluster
            (add_connection (add_connection sample_connected 1 (5, 0)) 2 (5, 0)) 1).
  { vm_compute. apply list_elem_of_here. }
  split_and!; [exact Hin | reflexivity |].
  intros [_ Hback]. specialize (Hback Hin). vm_compute in Hback. discriminate.
Qed.

(** Counterexample to C6 as stated: the sample cluster has the attribute
    1 and splits, at the threshold 2, into two fragments; the fragments
    joined have no attribute. *)
Lemma split_drops_attrs :
  ∃ n out, split sample_cluster 2%Z = Some (n, out)
    ∧ n = 2
    ∧ 1 ∈ m_attrs sample_cluster
    ∧ (1 ∉ m_attrs (join_all (m_id sample_cluster) out))
    ∧ m_attrs (join_all (m_id sample_cluster) out) ≠ m_attrs sample_cluster.
Proof.
  destruct (split_cluster_spec (GL := box_geometry_laws)
              (S (shape_count (m_shapes sample_cluster))) sample_cluster 2%Z)
    as (n & out & Hres & Hn & Hall & _); [lia|].
  fold (split sample_cluster 2%Z) in Hres.
  assert (Hn2 : fst <$> split sample_cluster 2%Z = Some 2) by (vm_compute; reflexivity).
  rewrite Hres in Hn2. injection Hn2 as ->.
  assert (Hattrs : m_attrs (join_all (m_id sample_cluster) out) = ∅).
  { unfold join_all. rewrite attrs_foldl_join_with; [done|].
    eapply Forall_impl; [exact Hall|]. by intros f [_ ?]. }
  assert (Hin : 1 ∈ m_attrs sample_cluster)
    by (apply (bool_decide_unpack _); vm_compute; reflexivity).
  exists 2, out. rewrite Hattrs.
  split_and!; [exact Hres|reflexivity|exact Hin|apply not_elem_of_empty|].
  intros Heq. rewrite <- Heq in Hin. by apply not_elem_of_empty in Hin.
Qed.





(** C2 on the sample cell. *)
Lemma empty_queries_witness :
  cluster_by_id sample_clusters 5 = Some empty_cluster
  ∧ connections_for_cluster sample_connected 4 = []
  ∧ clusters_per_cell (G := box_geometry) ∅ 3 = connected_clusters_new.
Proof.
  destruct (empty_queries (G := box_geometry)) as (_ & Hc & _ & Hconn & Hcell).
  split_and!.
  - apply Hc; vm_compute; reflexivity.
  - apply Hconn. reflexivity.
  - apply Hcell. reflexivity.
Defined.

(** C3 on the sample cell: two connections made the guarded way, then a
    join. *)
Lemma rev_connections_inverse_witness :
  let cc := add_connection (add_connection sample_connected 1 (5, 0)) 2 (6, 0) in
  ((find_cluster_with_connection cc (5, 0) = 1) ↔ ((5, 0) ∈ connections_for_cluster cc 1))
  ∧ (∃ cc', join_cluster_with cc 1 2 = Some cc'
          ∧ connections_for_cluster cc' 1 = [(5, 0); (6, 0)]
          ∧ m_connections cc' !! 2 = None).
Proof.
  intros cc.
  destruct (rev_connections_inverse (G := box_geometry)) as (Hinv & Hjoin).
  split.
  - apply Hinv; [|discriminate].
    apply guarded_add; [|discriminate|left; reflexivity].
    apply guarded_add; [|discriminate|left; reflexivity].
    apply guarded_new; reflexivity.
  - destruct (join_cluster_with_is_Some cc 1 2) as [cc' Hj]; [reflexivity|].
    destruct (Hjoin cc 1 2 cc' ltac:(discriminate) Hj) as (Hc & Hgone & _).
    exists cc'. split_and!; [exact Hj|exact Hc|exact Hgone].
Defined.


Lemma sample_layout_children_first : children_first sample_layout (bottom_up sample_layout).
Proof.
  intros l1 c l2 Hsplit d Hd. unfold is_child in Hd. simpl in Hsplit.
  destruct l1 as [|x1 [|x2 [|x3 l1]]]; simplify_eq/=.
  - by apply elem_of_nil in Hd.
  - set_solver.
  - set_solver.
  - by destruct l1.
Qed.

Lemma sample_layout_called d :
  d ∈ collect_called_cells sample_layout 0 ↔ tc (is_child sample_layout) 0 d.
Proof.
  split.
  - intros Hd. apply tc_once. unfold is_child. simpl in *. set_solver.
  - intros Htc. simpl.
    assert (d = 1 ∨ d = 2) as [-> | ->]; [|set_solver..].
    induction Htc as [c d Hcd|c e d _ _ IH]; [|done].
    unfold is_child in Hcd. simpl in Hcd.
    destruct (c =? 0); [set_solver|]. destruct (c =? 1); set_solver.
Qed.

(** C5 on the sample layout. *)
Lemma do_build_bottom_up_witness :
  ∃ trace, do_build sample_layout 0 = Some trace
    ∧ NoDup trace
    ∧ (∀ c, c ∈ trace ↔ c = 0 ∨ tc (is_child sample_layout) 0 c)
    ∧ children_first sample_layout trace
    ∧ reachable_first sample_layout trace.
Proof.
  apply (do_build_bottom_up sample_layout 0).
  - simpl. apply NoDup_ListNoDup. repeat constructor; simpl; intuition discriminate.
  - exact sample_layout_children_first.
  - intros c. unfold called_set. simpl. set_solver.
  - exact sample_layout_called.
Defined.

(** C6 on the sample cluster. *)
Lemma split_reassemble_witness :
  ∃ n out, split sample_cluster 2%Z = Some (n, out)
    ∧ n = N.of_nat (length out)
    ∧ (∀ f, f ∈ out → m_id f = 7 ∧ m_attrs f = ∅)
    ∧ (n ≠ 0 → ∀ l, shapes_on (join_all 7 out) l ≡ₚ shapes_on sample_cluster l).
Proof.
  destruct (split_reassemble (GL := box_geometry_laws) sample_cluster 2%Z)
    as (n & out & Hres & Hn & Hfrag & Hjoin & _).
  exists n, out. split_and!; [exact Hres | exact Hn | exact Hfrag |].
  intros Hn0. exact (proj1 (Hjoin Hn0)).
Defined.

(** C7 on the sample connectivity: layer 2 is not recorded, and layer 0 is
    not its own neighbour. *)
Lemma interacts_iff_witness :
  interacts conn01 box_A 2 box_B 1 None = false
  ∧ interacts conn01 box_A 0 box_C 0 None = false
  ∧ (interacts conn01 box_A 0 box_B 1 None = true ↔
       1 ∈ connected_layers conn01 0 ∧ interaction_test_for box_A box_B None = true).
Proof.
  split_and!.
  - destruct (interacts_iff conn01 box_A 2 box_B 1 None) as (_ & _ & Hnone & _).
    apply Hnone. reflexivity.
  - destruct (interacts_iff conn01 box_A 0 box_C 0 None) as (_ & _ & _ & Hnot).
    apply Hnot. apply (bool_decide_unpack _). vm_compute. reflexivity.
  - destruct (interacts_iff conn01 box_A 0 box_B 1 None) as (Hiff & _).
    exact Hiff.
Defined.

(** C8 on the sample cell: joining cluster 2 into cluster 1 and removing
    cluster 2 leave three slots, and the id 3 still names cluster 3. *)
Lemma stable_ids_witness :
  ∃ lc', lcs_join_cluster_with sample_clusters 1 2 = Some lc'
    ∧ length (m_clusters lc') = 3%nat
    ∧ m_id <$> cluster_by_id lc' 3 = Some 3
    ∧ m_id <$> cluster_by_id (remove_cluster lc' 2) 3 = Some 3.
Proof.
  destruct (stable_ids (G := box_geometry)) as (Hremove & Hjoin).
  destruct (lcs_join_cluster_with_is_Some sample_clusters 1 2) as [lc' Hj];
    [reflexivity|].
  destruct (Hjoin sample_clusters lc' 1 2 Hj) as (Hlen & _ & _ & Hid & _).
  destruct (Hremove lc' 2) as (_ & _ & _ & Hid' & _).
  exists lc'. split_and!.
  - exact Hj.
  - rewrite Hlen. reflexivity.
  - rewrite Hid. reflexivity.
  - rewrite Hid', Hid. reflexivity.
Defined.

(** C10 on the sample cluster. *)
Lemma add_attr_zero_witness :
  add_attr sample_cluster 0 = sample_cluster ∧ 0 ∉ m_attrs sample_cluster.
Proof.
  destruct (add_attr_zero (G := box_geometry)) as (Hzero & _ & Hbuilt).
  split; [apply Hzero|]. apply Hbuilt.
  unfold sample_cluster. repeat constructor.
Defined.

(** * Further properties of the code *)

Section ConnectProps.
Implicit Types (c : Connectivity) (l la lb : N).

Lemma connected_insert_layers (m : gmap N (gset N)) la lb l x :
  x ∈ default ∅ (connected_insert m la lb !! l) ↔
  x ∈ default ∅ (m !! l) ∨ (l = la ∧ x = lb).
Proof.
  unfold connected_insert. destruct (decide (l = la)) as [->|Hne].
  - rewrite lookup_insert_eq. simpl. set_solver.
  - rewrite lookup_insert_ne by done. naive_solver.
Qed.

Lemma connected_layers_default c l : connected_layers c l = default ∅ (m_connected c !! l).
Proof. unfold connected_layers. by destruct (m_connected c !! l). Qed.

Lemma connected_layers_connect c la lb l x :
  x ∈ connected_layers (connect c la lb) l ↔
  x ∈ connected_layers c l ∨ (l = la ∧ x = lb) ∨ (l = lb ∧ x = la).
Proof.
  rewrite !connected_layers_default. simpl.
  rewrite !connected_insert_layers. tauto.
Qed.

Lemma connected_layers_connect_self c l0 l x :
  x ∈ connected_layers (connect_self c l0) l ↔
  x ∈ connected_layers c l ∨ (l = l0 ∧ x = l0).
Proof.
  rewrite !connected_layers_default. simpl. apply connected_insert_layers.
Qed.

(** X1. [connect (la, lb)] adds exactly the two ordered pairs (la, lb) and
    (lb, la) to the relation and the two layers to the set of all layers;
    [connect (l)] adds exactly the pair (l, l) and the layer [l].  Nothing
    that was connected before is lost. *)
Theorem connect_adds_pairs c la lb :
  (∀ l x, x ∈ connected_layers (connect c la lb) l ↔
          x ∈ connected_layers c l ∨ (l = la ∧ x = lb) ∨ (l = lb ∧ x = la))
  ∧ (∀ l, l ∈ m_all_layers (connect c la lb) ↔ l ∈ m_all_layers c ∨ l = la ∨ l = lb)
  ∧ (∀ l x, x ∈ connected_layers (connect_self c la) l ↔
            x ∈ connected_layers c l ∨ (l = la ∧ x = la))
  ∧ (∀ l, l ∈ m_all_layers (connect_self c la) ↔ l ∈ m_all_layers c ∨ l = la).
Proof.
  split_and!.
  - intros l x. apply connected_layers_connect.
  - intros l. simpl. set_solver.
  - intros l x. apply connected_layers_connect_self.
  - intros l. simpl. set_solver.
Qed.

Lemma conn_built_symmetric c :
  conn_built c → ∀ la lb, lb ∈ connected_layers c la → la ∈ connected_layers c lb.
Proof.
  induction 1 as [|c la0 lb0 _ IH|c l0 _ IH]; intros la lb.
  - rewrite connected_layers_default. simpl. by rewrite lookup_empty.
  - rewrite !connected_layers_connect. naive_solver.
  - rewrite !connected_layers_connect_self. naive_solver.
Qed.

Lemma conn_built_layers c :
  conn_built c → ∀ l, l ∈ m_all_layers c ↔ ∃ x, x ∈ connected_layers c l.
Proof.
  induction 1 as [|c la0 lb0 _ IH|c l0 _ IH]; intros l.
  - simpl. split; [set_solver|]. intros [x Hx].
    rewrite connected_layers_default in Hx. simpl in Hx.
    by rewrite lookup_empty in Hx.
  - setoid_rewrite connected_layers_connect. simpl.
    rewrite !elem_of_union, !elem_of_singleton, IH. naive_solver.
  - setoid_rewrite connected_layers_connect_self. simpl.
    rewrite !elem_of_union, !elem_of_singleton, IH. naive_solver.
Qed.

End ConnectProps.

Section ConnectInteractsProps.
Context {G : Geometry}.

(** X2. For a connectivity built by [connect] calls the relation is
    symmetric, the set of all layers holds exactly the layers that have a
    neighbour, and two shapes interact only on layers of that set: a layer
    outside of it, on either side, gives [false]. *)
Theorem connectivity_symmetric (c : Connectivity) :
  conn_built c →
  (∀ la lb, lb ∈ connected_layers c la ↔ la ∈ connected_layers c lb)
  ∧ (∀ l, l ∈ m_all_layers c ↔ ∃ x, x ∈ connected_layers c l)
  ∧ (∀ (a b : shape) la lb trans,
       interacts c a la b lb trans = true →
       la ∈ m_all_layers c ∧ lb ∈ m_all_layers c).
Proof.
  intros Hc. split_and!.
  - intros la lb. split; by apply conn_built_symmetric.
  - by apply conn_built_layers.
  - intros a b la lb trans. rewrite interacts_unfold, andb_true_iff, bool_decide_eq_true.
    intros [Hin _]. rewrite !conn_built_layers by done. split; [by exists lb|].
    exists la. by apply conn_built_symmetric.
Qed.

End ConnectInteractsProps.

Section LocalClusterOps.
Context {G : Geometry}.
Implicit Types (m : gmap N (list shape)) (c other : local_cluster) (l la : N).

Lemma sum_list_with_add (f g : N → nat) ks :
  sum_list_with (λ l, f l + g l)%nat ks = (sum_list_with f ks + sum_list_with g ks)%nat.
Proof. induction ks as [|k ks IH]; simpl; lia. Qed.

Lemma sum_list_with_zero (f : N → nat) ks :
  (∀ l, l ∈ ks → f l = 0%nat) → sum_list_with f ks = 0%nat.
Proof.
  induction ks as [|k ks IH]; intros Hf; simpl; [done|].
  rewrite Hf, IH; [done| |]; set_solver.
Qed.

(** Summing the tree lengths over any duplicate-free list that holds the
    keys counts the shapes. *)
Lemma shape_count_superset m ks :
  NoDup ks → (∀ l, l ∈ map_keys m → l ∈ ks) →
  sum_list_with (λ l, length (tree_of m l)) ks = shape_count m.
Proof.
  intros Hnd Hsub. rewrite shape_count_sum.
  rewrite <- (filter_app_complement (λ l, l ∈ map_keys m) ks) at 1.
  rewrite sum_list_with_app.
  rewrite (sum_list_with_zero _ (filter (λ l, ¬ l ∈ map_keys m) ks)).
  - rewrite Nat.add_0_r. apply sum_list_with_Permutation_proper.
    apply NoDup_Permutation; [by apply NoDup_filter|apply map_keys_NoDup|].
    intros l. rewrite list_elem_of_filter. naive_solver.
  - intros l [Hl _]%list_elem_of_filter. by rewrite tree_of_not_key.
Qed.

Lemma join_fold_keys (f : N → list shape) ls m l :
  is_Some (foldl (λ m l, <[l := tree_of m l ++ f l]> m) m ls !! l) ↔
  is_Some (m !! l) ∨ l ∈ ls.
Proof.
  revert m. induction ls as [|k ks IH]; intros m; simpl.
  - set_solver.
  - rewrite IH, lookup_insert_is_Some. destruct (decide (k = l)); set_solver.
Qed.

Lemma layers_join_with c other l :
  l ∈ layers (join_with c other) ↔ l ∈ layers c ∨ l ∈ layers other.
Proof.
  unfold layers. rewrite !elem_of_map_keys. simpl.
  by rewrite join_fold_keys, elem_of_map_keys.
Qed.

Lemma shape_count_join_with c other :
  shape_count (m_shapes (join_with c other)) =
    (shape_count (m_shapes c) + shape_count (m_shapes other))%nat.
Proof.
  rewrite shape_count_sum.
  rewrite (sum_list_with_ext _
    (λ l, length (tree_of (m_shapes c) l) + length (tree_of (m_shapes other) l))%nat).
  - rewrite sum_list_with_add.
    rewrite !shape_count_superset; [done|apply map_keys_NoDup|..].
    + intros l Hl. apply (layers_join_with c other). by right.
    + apply map_keys_NoDup.
    + intros l Hl. apply (layers_join_with c other). by left.
  - intros l _. fold (shapes_on (join_with c other) l).
    by rewrite shapes_on_join_with, length_app.
Qed.

Lemma size_ok_join_with c other : size_ok c → size_ok other → size_ok (join_with c other).
Proof.
  unfold size_ok. intros Hc Ho. rewrite shape_count_join_with. simpl. lia.
Qed.

Lemma layers_add c s la l : l ∈ layers (add c s la) ↔ l = la ∨ l ∈ layers c.
Proof.
  unfold layers. rewrite !elem_of_map_keys. simpl.
  rewrite lookup_insert_is_Some. destruct (decide (la = l)); naive_solver.
Qed.

(** X3. [join_with] puts, on every layer, the shapes of the other cluster
    behind those of this one; the layers are those of either cluster, the
    attributes the union, the size the sum; the id is kept and the cluster
    is marked for update. *)
Theorem join_with_merges c other :
  (∀ l, shapes_on (join_with c other) l = shapes_on c l ++ shapes_on other l)
  ∧ (∀ l, l ∈ layers (join_with c other) ↔ l ∈ layers c ∨ l ∈ layers other)
  ∧ m_attrs (join_with c other) = m_attrs c ∪ m_attrs other
  ∧ m_size (join_with c other) = m_size c + m_size other
  ∧ shape_count (m_shapes (join_with c other)) =
      (shape_count (m_shapes c) + shape_count (m_shapes other))%nat
  ∧ m_id (join_with c other) = m_id c
  ∧ m_needs_update (join_with c other) = true.
Proof.
  split_and!; try done.
  - intros l. apply shapes_on_join_with.
  - intros l. apply layers_join_with.
  - apply shape_count_join_with.
Qed.

(** X4. [add] appends the shape to the tree of its layer and leaves the
    other layers alone; the layer becomes one of [layers ()], the number of
    shapes and the size grow by one, and id and attributes stay. *)
Theorem add_appends c (s : shape) la :
  (∀ l, shapes_on (add c s la) l =
        if decide (l = la) then shapes_on c la ++ [s] else shapes_on c l)
  ∧ (∀ l, l ∈ layers (add c s la) ↔ l = la ∨ l ∈ layers c)
  ∧ shape_count (m_shapes (add c s la)) = S (shape_count (m_shapes c))
  ∧ m_size (add c s la) = m_size c + 1
  ∧ m_id (add c s la) = m_id c
  ∧ m_attrs (add c s la) = m_attrs c.
Proof.
  split_and!; try done.
  - intros l. apply tree_of_add.
  - intros l. apply layers_add.
  - apply shape_count_insert.
Qed.

End LocalClusterOps.

Section LocalClusterSorted.
Context {G : Geometry} {GL : GeometryLaws G}.
Implicit Types (c : local_cluster) (l : N).

Lemma size_ok_ensure_sorted c : size_ok c → size_ok (ensure_sorted c).
Proof.
  unfold size_ok. rewrite shape_count_ensure_sorted.
  unfold ensure_sorted. by destruct (m_needs_update c).
Qed.

Lemma built_size_ok c : built c → size_ok c.
Proof.
  induction 1 as [id|c id _ IH|c _ _|c a _ IH|c s la _ IH|c o _ IHc _ IHo|c _ IH].
  - apply size_ok_new.
  - done.
  - done.
  - unfold add_attr. by destruct (0 <? a).
  - by apply size_ok_add.
  - by apply size_ok_join_with.
  - by apply size_ok_ensure_sorted.
Qed.

(** X5. For every cluster built by the operations of [local_cluster] the
    size is the number of shapes it holds, over all layers. *)
Theorem size_counts_shapes c :
  built c → m_size c = N.of_nat (shape_count (m_shapes c)).
Proof. apply built_size_ok. Qed.

(** X6. [ensure_sorted] clears the update flag and does nothing when the
    flag is clear, so a second call changes nothing; it keeps the id, the
    attributes, the size, the layers and, up to their order, the shapes of
    every layer. *)
Theorem ensure_sorted_keeps c :
  m_needs_update (ensure_sorted c) = false
  ∧ (m_needs_update c = false → ensure_sorted c = c)
  ∧ ensure_sorted (ensure_sorted c) = ensure_sorted c
  ∧ (∀ l, shapes_on (ensure_sorted c) l ≡ₚ shapes_on c l)
  ∧ (∀ l, l ∈ layers (ensure_sorted c) ↔ l ∈ layers c)
  ∧ shape_count (m_shapes (ensure_sorted c)) = shape_count (m_shapes c)
  ∧ m_id (ensure_sorted c) = m_id c
  ∧ m_attrs (ensure_sorted c) = m_attrs c
  ∧ m_size (ensure_sorted c) = m_size c.
Proof.
  assert (Hflag : m_needs_update (ensure_sorted c) = false).
  { unfold ensure_sorted. by destruct (m_needs_update c) eqn:Hc. }
  split_and!.
  - done.
  - intros Hc. unfold ensure_sorted. by rewrite Hc.
  - unfold ensure_sorted at 1. by rewrite Hflag.
  - apply shapes_on_ensure_sorted.
  - intros l. unfold layers, ensure_sorted. rewrite !elem_of_map_keys.
    destruct (m_needs_update c); [|done]. simpl.
    by rewrite lookup_fmap, fmap_is_Some.
  - apply shape_count_ensure_sorted.
  - apply ensure_sorted_id.
  - apply ensure_sorted_attrs.
  - unfold ensure_sorted. by destruct (m_needs_update c).
Qed.

Lemma split_cluster_final (fuel : nat) cl (r : ratio) n out :
  (shape_count (m_shapes cl) < fuel)%nat →
  split_cluster fuel cl r = Some (n, out) →
  n ≠ 1
  ∧ Forall (λ f, m_size f ≠ 0 ∧ size_ok f ∧ split f r = Some (0, [])) out
  ∧ (n ≠ 0 →
       sum_list_with (λ f, N.to_nat (m_size f)) out = shape_count (m_shapes cl)).
Proof.
  revert cl n out. induction fuel as [|fuel IH]; intros cl n out Hfuel; [lia|].
  simpl. destruct (area_ratio_lt cl r).
  { intros [= <- <-]. by split_and!. }
  destruct (split_halves cl) as [a b] eqn:Hhalves.
  destruct (split_halves_spec _ _ _ Hhalves)
    as (_ & _ & _ & _ & _ & Hsa & Hsb & Hsize).
  destruct ((m_size a =? 0) || (m_size b =? 0)) eqn:Hzero.
  { intros [= <- <-]. by split_and!. }
  apply orb_false_iff in Hzero as [Hza Hzb].
  apply N.eqb_neq in Hza, Hzb.
  pose proof Hsa as Hsa'. pose proof Hsb as Hsb'. unfold size_ok in Hsa', Hsb'.
  assert (Hfa : (shape_count (m_shapes a) < fuel)%nat) by lia.
  assert (Hfb : (shape_count (m_shapes b) < fuel)%nat) by lia.
  destruct (split_cluster_spec fuel a r Hfa) as (na & outa & Hra & Hna & _ & _).
  destruct (split_cluster_spec fuel b r Hfb) as (nb & outb & Hrb & Hnb & _ & _).
  destruct (IH _ _ _ Hfa Hra) as (Hna1 & Halla & Hsuma).
  destruct (IH _ _ _ Hfb Hrb) as (Hnb1 & Hallb & Hsumb).
  rewrite Hra, Hrb. cbn [mbind option_bind]. rewrite fragments_arrange.
  intros [= <- <-].
  assert (Hleafa : na = 0 → outa = [] ∧ split a r = Some (0, [])).
  { intros ->. destruct outa; [|simpl in Hna; lia].
    split; [done|]. by rewrite <- (split_cluster_enough_fuel fuel). }
  assert (Hleafb : nb = 0 → outb = [] ∧ split b r = Some (0, [])).
  { intros ->. destruct outb; [|simpl in Hnb; lia].
    split; [done|]. by rewrite <- (split_cluster_enough_fuel fuel). }
  split_and!.
  - destruct (N.eqb_spec na 0), (N.eqb_spec nb 0); lia.
  - rewrite !Forall_app. split_and!; [done..| |].
    + destruct (N.eqb_spec na 0) as [Ea|Ea]; [|done].
      constructor; [|done]. split_and!; [done..|]. by apply Hleafa.
    + destruct (N.eqb_spec nb 0) as [Eb|Eb]; [|done].
      constructor; [|done]. split_and!; [done..|]. by apply Hleafb.
  - intros _. rewrite !sum_list_with_app.
    assert (shape_count (m_shapes cl)
            = (shape_count (m_shapes a) + shape_count (m_shapes b))%nat) as -> by lia.
    destruct (N.eqb_spec na 0) as [Ea|Ea], (N.eqb_spec nb 0) as [Eb|Eb]; simpl.
    + destruct (Hleafa Ea) as [-> _]. destruct (Hleafb Eb) as [-> _]. simpl. lia.
    + destruct (Hleafa Ea) as [-> _]. rewrite Hsumb by done. simpl. lia.
    + destruct (Hleafb Eb) as [-> _]. rewrite Hsuma by done. simpl. lia.
    + rewrite Hsuma, Hsumb by done. lia.
Qed.

(** X7. [split] never returns the count 1: a cluster is left whole (0) or
    cut into two fragments or more.  No fragment is empty, the sizes of the
    fragments add up to the number of shapes of the cluster, and a fragment
    is not split further by the same threshold: splitting it again returns
    0. *)
Theorem split_fragments_final cl (r : ratio) n out :
  split cl r = Some (n, out) →
  n ≠ 1
  ∧ (∀ f, f ∈ out → m_size f ≠ 0 ∧ split f r = Some (0, []))
  ∧ (n ≠ 0 →
       sum_list_with (λ f, N.to_nat (m_size f)) out = shape_count (m_shapes cl)).
Proof.
  intros Hsplit. unfold split in Hsplit.
  destruct (split_cluster_final _ cl r n out (Nat.lt_succ_diag_r _) Hsplit)
    as (Hn & Hall & Hsum).
  split_and!; [done| |done].
  intros f Hf. rewrite Forall_forall in Hall. by destruct (Hall f Hf) as (? & _ & ?).
Qed.

End LocalClusterSorted.

Section LocalClustersOps.
Context {G : Geometry}.
Implicit Types (lc : local_clusters) (c : local_cluster) (id i : N).

(** The id stored in a slot is the index of the slot plus 1. *)
Lemma lcs_built_ids lc :
  lcs_built lc → ∀ k c, m_clusters lc !! k = Some c → m_id c = N.of_nat k + 1.
Proof.
  induction 1 as [|lc _ IH|lc k0 s la _ IH|lc k0 a _ IH|lc j _ IH|lc id w lc' _ IH Hjoin];
    intros k c.
  - simpl. by rewrite lookup_nil.
  - simpl. intros Hk. apply lookup_app_Some in Hk as [Hk|[Hlen Hk]]; [by apply IH|].
    apply list_lookup_singleton_Some in Hk as [Hk <-]. simpl. lia.
  - simpl. intros Hk.
    pose proof (alter_ids (λ c, add c s la) (m_clusters lc) k0 k (λ _, eq_refl)) as Hids.
    rewrite Hk in Hids. simpl in Hids.
    destruct (m_clusters lc !! k) as [c0|] eqn:Hc0; [|done].
    injection Hids as ->. by apply IH.
  - simpl. intros Hk.
    assert (Hf : ∀ c0 : local_cluster, m_id (add_attr c0 a) = m_id c0).
    { intros c0. unfold add_attr. by destruct (0 <? a). }
    pose proof (alter_ids (λ c, add_attr c a) (m_clusters lc) k0 k Hf) as Hids.
    rewrite Hk in Hids. simpl in Hids.
    destruct (m_clusters lc !! k) as [c0|] eqn:Hc0; [|done].
    injection Hids as ->. by apply IH.
  - intros Hk. destruct (remove_cluster_slots lc j) as (_ & Hids & _).
    specialize (Hids k). rewrite Hk in Hids. simpl in Hids.
    destruct (m_clusters lc !! k) as [c0|] eqn:Hc0; [|done].
    injection Hids as ->. by apply IH.
  - intros Hk. destruct (lcs_join_cluster_with_slots _ _ _ _ Hjoin) as (_ & Hids & _).
    specialize (Hids k). rewrite Hk in Hids. simpl in Hids.
    destruct (m_clusters lc !! k) as [c0|] eqn:Hc0; [|done].
    injection Hids as ->. by apply IH.
Qed.

(** X8. In a collection built by [insert], by [add] and [add_attr] on
    its clusters (the way [generate_clusters] fills the cluster [insert]
    returns), by [remove_cluster] and by [join_cluster_with], every id from
    1 to the number of slots names a cluster, and that cluster carries this
    id. *)
Theorem cluster_by_id_has_id lc i :
  lcs_built lc → 0 < i → i ≤ clusters_size lc →
  ∃ c, cluster_by_id lc i = Some c ∧ m_id c = i.
Proof.
  intros Hb Hpos Hle.
  destruct (cluster_by_id_in_range lc i Hpos Hle) as [c Hc].
  exists c. split.
  - unfold cluster_by_id.
    by rewrite (proj2 (N.ltb_lt 0 i) Hpos), (proj2 (N.ltb_ge _ _) Hle).
  - rewrite (lcs_built_ids lc Hb _ _ Hc). unfold slot. lia.
Qed.

(** X9. [insert] adds one slot at the end: the new cluster has no shapes
    and no attributes and its id is the new number of slots; every id that
    named a cluster before names the same cluster. *)
Theorem insert_appends lc :
  clusters_size (insert lc) = clusters_size lc + 1
  ∧ cluster_by_id (insert lc) (clusters_size lc + 1)
      = Some (set_id (local_cluster_new 0) (clusters_size lc + 1))
  ∧ (∀ i, 0 < i → i ≤ clusters_size lc →
          cluster_by_id (insert lc) i = cluster_by_id lc i)
  ∧ lcs_needs_update (insert lc) = true.
Proof.
  assert (Hsize : clusters_size (insert lc) = clusters_size lc + 1).
  { unfold clusters_size, insert. simpl. rewrite length_app. simpl. lia. }
  split_and!; [done| | |done].
  - unfold cluster_by_id. rewrite Hsize.
    rewrite (proj2 (N.ltb_lt 0 _)), (proj2 (N.ltb_ge _ _)) by lia.
    unfold insert, slot, clusters_size. simpl.
    rewrite lookup_app_r by lia.
    replace (N.to_nat (N.of_nat (length (m_clusters lc)) + 1 - 1) - length (m_clusters lc))%nat
      with 0%nat by lia.
    done.
  - intros i Hpos Hle. unfold cluster_by_id. rewrite Hsize.
    rewrite (proj2 (N.ltb_lt 0 _)), !(proj2 (N.ltb_ge _ _)) by lia.
    unfold insert. simpl. apply lookup_app_l.
    unfold slot, clusters_size in *. lia.
Qed.

(** X10. The local [join_cluster_with]: for two distinct ids in range the
    target becomes [join_with] of the two clusters and the other one is
    cleared; with [with_id] 0 or out of range, or [id] out of range, the
    collection is returned as it is; the id 0 as target fails the
    assertion. *)
Theorem lcs_join_cluster_with_cases lc id with_id :
  (id = 0 → lcs_join_cluster_with lc id with_id = None)
  ∧ (0 < id →
     with_id = 0 ∨ clusters_size lc < with_id ∨ clusters_size lc < id →
     lcs_join_cluster_with lc id with_id = Some lc)
  ∧ (∀ c1 c2,
       id ≠ with_id →
       cluster_by_id lc id = Some c1 → cluster_by_id lc with_id = Some c2 →
       id ≤ clusters_size lc → with_id ≤ clusters_size lc →
       ∃ lc', lcs_join_cluster_with lc id with_id = Some lc'
         ∧ cluster_by_id lc' id = Some (join_with c1 c2)
         ∧ cluster_by_id lc' with_id = Some (clear c2)
         ∧ lcs_needs_update lc' = true).
Proof.
  split_and!.
  - intros ->. done.
  - intros Hid Hout. unfold lcs_join_cluster_with.
    rewrite (proj2 (N.ltb_lt 0 id) Hid).
    assert ((with_id =? 0) || (clusters_size lc <? with_id) || (clusters_size lc <? id)
            = true) as ->; [|done].
    rewrite !orb_true_iff, N.eqb_eq, !N.ltb_lt. tauto.
  - intros c1 c2 Hne H1 H2 Hr1 Hr2.
    assert (0 < id) as Hid.
    { unfold cluster_by_id in H1. destruct (0 <? id) eqn:E; [by apply N.ltb_lt|done]. }
    assert (0 < with_id) as Hw.
    { unfold cluster_by_id in H2. destruct (0 <? with_id) eqn:E; [by apply N.ltb_lt|done]. }
    unfold cluster_by_id in H1, H2.
    rewrite (proj2 (N.ltb_lt 0 _)), (proj2 (N.ltb_ge _ _)) in H1 by done.
    rewrite (proj2 (N.ltb_lt 0 _)), (proj2 (N.ltb_ge _ _)) in H2 by done.
    assert (slot id ≠ slot with_id) as Hslot.
    { intros Heq. by apply Hne, slot_inj. }
    unfold lcs_join_cluster_with.
    rewrite (proj2 (N.ltb_lt 0 id) Hid), (proj2 (N.eqb_neq with_id 0)),
      !(proj2 (N.ltb_ge _ _)) by (done || lia).
    simpl. eexists. split; [done|]. rewrite H2. simpl.
    unfold cluster_by_id, clusters_size. simpl. rewrite !length_alter.
    fold (clusters_size lc).
    rewrite !(proj2 (N.ltb_lt 0 _)), !(proj2 (N.ltb_ge _ _)) by done.
    split_and!; [| |done].
    + rewrite list_lookup_alter_ne by done.
      rewrite list_lookup_alter, decide_True by done. by rewrite H1.
    + rewrite list_lookup_alter, decide_True by done.
      rewrite list_lookup_alter_ne by done. by rewrite H2.
Qed.

End LocalClustersOps.

(** [generate_clusters] builds its clusters with [insert], [add] and
    [add_attr]. *)
Section GenerateBuilt.
Context {G : Geometry}.
Variable deref : N → shape.

Lemma lcs_write_id (lc : local_clusters) k : lcs_write lc k (λ c, c) = lc.
Proof.
  destruct lc as [u cs b n]. unfold lcs_write. simpl. f_equal.
  apply list_alter_id. done.
Qed.

Lemma lcs_write_compose (lc : local_clusters) k (f g : local_cluster → local_cluster) :
  lcs_write lc k (λ c, g (f c)) = lcs_write (lcs_write lc k f) k g.
Proof.
  unfold lcs_write. simpl. f_equal. symmetry. apply (list_alter_alter_eq g f).
Qed.

(** The loop of [generate_clusters] over the shapes of a candidate is a
    sequence of [add] and [add_attr] on the cluster of one slot. *)
Lemma lcs_built_fill (v : list shape_value) : ∀ (lc : local_clusters) k,
  lcs_built lc →
  lcs_built (lcs_write lc k
               (λ cluster, foldl (λ cl (s : shape_value),
                                    add_attr (add cl (deref s.1) s.2.1) s.2.2)
                                 cluster v)).
Proof.
  induction v as [|s v IH]; intros lc k Hb.
  - simpl. by rewrite lcs_write_id.
  - cbn [foldl].
    rewrite (lcs_write_compose lc k
               (λ c, add_attr (add c (deref s.1) s.2.1) s.2.2)
               (λ c, foldl (λ cl (s : shape_value),
                              add_attr (add cl (deref s.1) s.2.1) s.2.2) c v)).
    apply IH.
    rewrite (lcs_write_compose lc k (λ c, add c (deref s.1) s.2.1)
                               (λ c, add_attr c s.2.2)).
    by apply lcs_built_add_attr, lcs_built_add.
Qed.

Lemma generate_clusters_built (r : cb_receiver) (lc : local_clusters) :
  lcs_built lc → lcs_built (generate_clusters deref r lc).
Proof.
  unfold generate_clusters. generalize (cb_clusters r). intros cs. revert lc.
  induction cs as [|c cs IH]; intros lc Hb; [done|].
  cbn [foldl]. apply IH.
  change (generate_cluster deref lc c.2) with
    (lcs_write (insert lc) (length (m_clusters lc))
       (λ cluster, foldl (λ cl (s : shape_value),
                            add_attr (add cl (deref s.1) s.2.1) s.2.2) cluster c.2)).
  by apply lcs_built_fill, lcs_built_insert.
Qed.

End GenerateBuilt.

Section ConnectedOps.
Context {G : Geometry}.
Implicit Types (cc : connected_clusters) (ci : ClusterInstance) (id : N).

(** X11. After [add_connection (id, inst)] the lookup of [inst] gives
    [id] and [inst] is the last connection of [id]; the lookup of every
    other instance, the connections of every other cluster and the local
    clusters are as before. *)
Theorem add_connection_lookup cc id (inst : ClusterInstance) :
  find_cluster_with_connection (add_connection cc id inst) inst = id
  ∧ connections_for_cluster (add_connection cc id inst) id
      = connections_for_cluster cc id ++ [inst]
  ∧ (∀ ci, ci ≠ inst →
       find_cluster_with_connection (add_connection cc id inst) ci
         = find_cluster_with_connection cc ci)
  ∧ (∀ j, j ≠ id →
       connections_for_cluster (add_connection cc id inst) j
         = connections_for_cluster cc j)
  ∧ base (add_connection cc id inst) = base cc.
Proof.
  split_and!.
  - by rewrite find_add, decide_True.
  - by rewrite connections_for_add, decide_True.
  - intros ci Hne. by rewrite find_add, decide_False.
  - intros j Hne. by rewrite connections_for_add, decide_False.
  - done.
Qed.

(** X12. A join neither loses nor invents a connection: an instance is in
    some list after [join_cluster_with] exactly if it was in some list
    before.  For two distinct ids the list of the target has as many
    entries as the two lists had together, and the list of the other
    cluster is empty. *)
Theorem join_cluster_with_keeps_edges cc id with_id cc' :
  join_cluster_with cc id with_id = Some cc' →
  (∀ ci, (∃ j, ci ∈ connections_for_cluster cc' j) ↔
         (∃ j, ci ∈ connections_for_cluster cc j))
  ∧ (id ≠ with_id →
     length (connections_for_cluster cc' id) =
       (length (connections_for_cluster cc id)
        + length (connections_for_cluster cc with_id))%nat
     ∧ connections_for_cluster cc' with_id = []).
Proof.
  intros Hjoin. destruct (decide (id = with_id)) as [->|Hne].
  { unfold join_cluster_with in Hjoin. rewrite N.eqb_refl in Hjoin.
    injection Hjoin as <-. done. }
  destruct (join_cluster_with_connections _ _ _ _ Hne Hjoin) as (_ & Hconn & _ & _).
  split.
  - intros ci. split.
    + intros [j Hj]. rewrite Hconn in Hj.
      destruct (decide (j = with_id)); [by apply elem_of_nil in Hj|].
      destruct (decide (j = id)); [|by exists j].
      apply elem_of_app in Hj as [Hj|Hj]; [by exists id|by exists with_id].
    + intros [j Hj]. destruct (decide (j = with_id)) as [->|Hjw].
      * exists id. rewrite Hconn, decide_False, decide_True by done. set_solver.
      * exists j. rewrite Hconn, decide_False by done.
        destruct (decide (j = id)) as [->|]; [set_solver|done].
  - intros _. rewrite !Hconn.
    rewrite decide_False, !decide_True by done. by rewrite length_app.
Qed.

(** X13. The steps of the stitching receiver keep [m_rev_connections] the
    inverse of [m_connections]: the promotion step of the
    instance-to-instance pass (if the dummy id it allocates is not 0), the
    step of the local-to-instance pass (for a local cluster id other than
    0) and [join_superclusters]. *)
Theorem receiver_keeps_rev_inverse :
  (∀ cc k1 k2 cc',
     rev_inverse cc → (insert_dummy cc).1 ≠ 0 →
     add_single_pair_promote cc k1 k2 = Some cc' → rev_inverse cc')
  ∧ (∀ (r : hc_receiver) c1 k2,
       rev_inverse (mp_cell_clusters r) → c1 ≠ 0 →
       rev_inverse (mp_cell_clusters (add_single_pair_local r c1 k2)))
  ∧ (∀ (r r' : hc_receiver),
       rev_inverse (mp_cell_clusters r) → join_superclusters r = Some r' →
       rev_inverse (mp_cell_clusters r')).
Proof.
  split_and!.
  - intros cc k1 k2 cc' Hinv Hd. unfold add_single_pair_promote.
    destruct (N.eqb_spec (find_cluster_with_connection cc k1) 0) as [H1|H1];
      destruct (N.eqb_spec (find_cluster_with_connection cc k2) 0) as [H2|H2].
    + assert (Hinv1 : rev_inverse (insert_dummy cc).2) by by apply (rev_inverse_same cc).
      pose proof (insert_dummy_find cc) as Hfind.
      destruct (insert_dummy cc) as [d cc1]. simpl in *. intros [= <-].
      apply rev_inverse_add; [|done|].
      * apply rev_inverse_add; [done..|]. left. by rewrite Hfind.
      * rewrite find_add. case_decide; [by right|]. left. by rewrite Hfind.
    + intros [= <-]. apply rev_inverse_add; [done..|by left].
    + intros [= <-]. apply rev_inverse_add; [done..|by left].
    + destruct (N.eqb_spec (find_cluster_with_connection cc k1)
                           (find_cluster_with_connection cc k2)) as [He|He]; simpl.
      { by intros [= <-]. }
      destruct (_ <? _).
      * destruct (join_cluster_with cc _ _) as [cc1|] eqn:Hj; [|done].
        simpl. intros [= <-]. apply (rev_inverse_same cc1); [done..|].
        by eapply rev_inverse_join.
      * destruct (join_cluster_with cc _ _) as [cc1|] eqn:Hj; [|done].
        simpl. intros [= <-]. apply (rev_inverse_same cc1); [done..|].
        by eapply rev_inverse_join.
  - intros r c1 k2 Hinv Hc1. unfold add_single_pair_local.
    destruct (N.ltb_spec 0 (find_cluster_with_connection (mp_cell_clusters r) k2)).
    + by rewrite mark_to_join_cell_clusters.
    + simpl. apply rev_inverse_add; [done..|]. left. lia.
  - intros r r' Hinv. unfold join_superclusters.
    rewrite join_superclusters_loop. simpl.
    destruct (apply_joins _ _) as [cc|] eqn:Hj; [|done].
    simpl. intros [= <-]. simpl. by eapply apply_joins_rev_inverse.
Qed.

(** X14. When the two clusters found by the promotion step are dummies (0
    or an id beyond the slots of the cell), the step does not fail and
    leaves the local clusters of the cell, their box and the update flag
    as they are. *)
Theorem add_single_pair_promote_dummies cc k1 k2 :
  let x1 := find_cluster_with_connection cc k1 in
  let x2 := find_cluster_with_connection cc k2 in
  x1 = 0 ∨ clusters_size (base cc) < x1 →
  x2 = 0 ∨ clusters_size (base cc) < x2 →
  ∃ cc', add_single_pair_promote cc k1 k2 = Some cc'
    ∧ m_clusters (base cc') = m_clusters (base cc)
    ∧ lcs_needs_update (base cc') = lcs_needs_update (base cc)
    ∧ lcs_bbox (base cc') = lcs_bbox (base cc).
Proof.
  intros x1 x2 Hx1 Hx2. unfold add_single_pair_promote. fold x1 x2.
  assert (Hjoin : ∀ t o, t ≠ 0 → o = 0 ∨ clusters_size (base cc) < o → t ≠ o →
    ∃ cc1, join_cluster_with cc t o = Some cc1 ∧ base cc1 = base cc).
  { intros t o Ht Ho Hto. unfold join_cluster_with, lcs_join_cluster_with.
    rewrite (proj2 (N.eqb_neq t o) Hto), (proj2 (N.ltb_lt 0 t)) by lia.
    assert ((o =? 0) || (clusters_size (base cc) <? o) = true) as ->.
    { rewrite orb_true_iff, N.eqb_eq, N.ltb_lt. tauto. }
    simpl. by eexists. }
  assert (Hremove : ∀ cc1 o, base cc1 = base cc →
    o = 0 ∨ clusters_size (base cc) < o → base (cc_remove_cluster cc1 o) = base cc).
  { intros cc1 o Hb Ho. simpl. rewrite Hb. unfold remove_cluster.
    assert ((o =? 0) || (clusters_size (base cc) <? o) = true) as ->; [|done].
    rewrite orb_true_iff, N.eqb_eq, N.ltb_lt. tauto. }
  destruct (N.eqb_spec x1 0) as [E1|E1]; destruct (N.eqb_spec x2 0) as [E2|E2].
  - simpl. by eexists.
  - by eexists.
  - by eexists.
  - destruct (N.eqb_spec x1 x2) as [E|E]; simpl; [by eexists|].
    destruct (_ <? _).
    + destruct (Hjoin x2 x1) as (cc1 & -> & Hb); [done..|]. simpl.
      eexists. split; [done|]. by rewrite Hremove.
    + destruct (Hjoin x1 x2) as (cc1 & -> & Hb); [done..|]. simpl.
      eexists. split; [done|]. by rewrite Hremove.
Qed.

(** X15. The two variants of [clusters_per_cell] give the same
    collection; the non-const one adds an empty entry for a cell that has
    none and changes no other entry, so that afterwards the cell has an
    entry and both variants leave the map alone. *)
Theorem clusters_per_cell_mut_const (hc : hier_clusters) (cell_index : N) :
  let '(cc, hc') := clusters_per_cell_mut hc cell_index in
  cc = clusters_per_cell hc cell_index
  ∧ hc' !! cell_index = Some cc
  ∧ (∀ cell : N, cell ≠ cell_index → hc' !! cell = hc !! cell)
  ∧ (∀ cell : N, clusters_per_cell hc' cell = clusters_per_cell hc cell)
  ∧ clusters_per_cell_mut hc' cell_index = (cc, hc')
  ∧ (is_Some (hc !! cell_index) → hc' = hc).
Proof.
  unfold clusters_per_cell_mut, clusters_per_cell, hier_clusters in *.
  destruct (hc !! cell_index) as [c|] eqn:Hc.
  - split_and!; try done. by rewrite Hc.
  - split_and!.
    + done.
    + apply lookup_insert_eq.
    + intros cell Hne. by apply lookup_insert_ne.
    + intros cell. destruct (decide (cell = cell_index)) as [->|Hne].
      * by rewrite lookup_insert_eq, Hc.
      * by rewrite lookup_insert_ne.
    + by rewrite lookup_insert_eq.
    + by intros [? ?].
Qed.

End ConnectedOps.

Section JoinComponents.
Context {G : Geometry}.
Implicit Types (r : hc_receiver) (a b u v : N) (calls : list (N * N)).

Lemma same_set_same_node r a b : join_inv r → same_set r a b ↔ same_node r a b.
Proof.
  intros Hinv. split.
  - intros (h & s & Hs & Ha & Hb). exists h.
    apply (elem_lookup_node _ _ _ (inv_nodup r Hinv)) in Hs.
    split; apply (inv_map r Hinv); eauto.
  - intros (h & Ha & Hb).
    apply (inv_map r Hinv) in Ha as (s & Hl & Ha).
    apply (inv_map r Hinv) in Hb as (s' & Hl' & Hb).
    assert (s' = s) as -> by congruence.
    exists h, s. split; [by apply lookup_node_Some_elem|done].
Qed.

(** A handle the map holds is below the next handle. *)
Lemma inv_map_fresh r i : join_inv r → m_cm2join_map r !! i ≠ Some (next_node r).
Proof.
  intros Hinv Hi. apply (inv_map r Hinv) in Hi as (s & Hl & _).
  apply lookup_node_handle, (inv_fresh r Hinv) in Hl. lia.
Qed.

(** Sending the ids of [P] to the node [t]: the ids of [P] and those of
    [t] become one class [C], and the other classes stay. *)
Lemma retarget_classes (m m' : gmap N nat) (P C : N → Prop) (t : nat) u v :
  (∀ w, P w ∨ ¬ P w) →
  (∀ w, P w → m' !! w = Some t) →
  (∀ w, ¬ P w → m' !! w = m !! w) →
  (∀ w, C w ↔ P w ∨ m !! w = Some t) →
  (∀ w w' h, P w → m !! w = Some h → m !! w' = Some h → P w') →
  (∃ h, m' !! u = Some h ∧ m' !! v = Some h) ↔
  (∃ h, m !! u = Some h ∧ m !! v = Some h) ∨ (C u ∧ C v).
Proof.
  intros Hdec Hin Hout HC Hclosed. rewrite !HC. split.
  - intros (h & Hu & Hv).
    destruct (Hdec u) as [Pu|Pu], (Hdec v) as [Pv|Pv].
    + right. tauto.
    + right. rewrite (Hin u Pu) in Hu. rewrite (Hout v Pv) in Hv. split; [tauto|].
      right. congruence.
    + right. rewrite (Hin v Pv) in Hv. rewrite (Hout u Pu) in Hu. split; [|tauto].
      right. congruence.
    + left. rewrite (Hout u Pu) in Hu. rewrite (Hout v Pv) in Hv. eauto.
  - assert (Hto : ∀ w, P w ∨ m !! w = Some t → m' !! w = Some t).
    { intros w [Pw|Hw]; [by apply Hin|].
      destruct (Hdec w) as [Pw|Pw]; [by apply Hin|]. by rewrite Hout. }
    intros [(h & Hu & Hv)|[Hu Hv]].
    + destruct (Hdec u) as [Pu|Pu].
      { exists t. split; apply Hto; left; [done|]. by eapply Hclosed. }
      destruct (Hdec v) as [Pv|Pv].
      { exists t. split; apply Hto; left; [|done]. by eapply Hclosed. }
      exists h. by rewrite !Hout.
    + exists t. split; by apply Hto.
Qed.

(** What one call does to the classes: the classes of [a] and [b] become
    one class, and the others stay. *)
Lemma mark_to_join_same_node_iff r a b u v :
  join_inv r →
  same_node (mark_to_join r a b) u v ↔
  same_node r u v
  ∨ ((u = a ∨ u = b ∨ same_node r u a ∨ same_node r u b)
     ∧ (v = a ∨ v = b ∨ same_node r v a ∨ same_node r v b)).
Proof.
  intros Hinv.
  set (C := λ w, w = a ∨ w = b ∨ same_node r w a ∨ same_node r w b).
  change (same_node (mark_to_join r a b) u v ↔ same_node r u v ∨ (C u ∧ C v)).
  unfold mark_to_join.
  destruct (m_cm2join_map r !! a) as [x|] eqn:Ha;
    destruct (m_cm2join_map r !! b) as [y|] eqn:Hb.
  - case_decide as Hxy.
    { subst y. split; [by left|]. intros [Hs|[Hu Hv]]; [done|].
      assert (Hcls : ∀ w, w = a ∨ w = b ∨ same_node r w a ∨ same_node r w b →
                          m_cm2join_map r !! w = Some x).
      { intros w [->|[->|[(h & ? & ?)|(h & ? & ?)]]]; congruence. }
      exists x. split; by apply Hcls. }
    destruct (inv_map_node r b y Hinv Hb) as (sy & Hsy & _).
    rewrite node_set_lookup, Hsy. simpl.
    assert (Hy : ∀ i, i ∈ set_iter sy ↔ m_cm2join_map r !! i = Some y).
    { intros i. rewrite elem_of_set_iter, (inv_map r Hinv). split.
      - intros Hi. by exists sy.
      - intros (s & Hl & Hi). congruence. }
    apply (retarget_classes (m_cm2join_map r) _
             (λ w, m_cm2join_map r !! w = Some y) C x).
    + intros w. destruct (decide (m_cm2join_map r !! w = Some y)); tauto.
    + intros w Hw. simpl. rewrite foldl_insert_lookup, decide_True; [done|]. by apply Hy.
    + intros w Hw. simpl. rewrite foldl_insert_lookup, decide_False; [done|]. by rewrite Hy.
    + intros w. unfold C, same_node. split.
      * intros [->|[->|[(h & ? & ?)|(h & ? & ?)]]]; [right|left|right|left]; congruence.
      * intros [Hw|Hw]; [right; right; right; by exists y|right; right; left; by exists x].
    + intros w w' h ? ? ?. congruence.
  - apply (retarget_classes (m_cm2join_map r) _ (λ w, w = b) C x).
    + intros w. destruct (decide (w = b)); tauto.
    + intros w ->. simpl. by rewrite lookup_insert_eq.
    + intros w Hw. simpl. by rewrite lookup_insert_ne.
    + intros w. unfold C, same_node. split.
      * intros [->|[->|[(h & ? & ?)|(h & ? & ?)]]]; [right|left|right|]; congruence.
      * intros [Hw|Hw]; [tauto|right; right; left; by exists x].
    + intros w w' h -> ? ?. congruence.
  - apply (retarget_classes (m_cm2join_map r) _ (λ w, w = a) C y).
    + intros w. destruct (decide (w = a)); tauto.
    + intros w ->. simpl. by rewrite lookup_insert_eq.
    + intros w Hw. simpl. by rewrite lookup_insert_ne.
    + intros w. unfold C, same_node. split.
      * intros [->|[->|[(h & ? & ?)|(h & ? & ?)]]]; [left|right| |right]; congruence.
      * intros [Hw|Hw]; [tauto|right; right; right; by exists y].
    + intros w w' h -> ? ?. congruence.
  - pose proof (inv_map_fresh r) as Hfresh.
    apply (retarget_classes (m_cm2join_map r) _ (λ w, w = a ∨ w = b) C (next_node r)).
    + intros w. destruct (decide (w = a)), (decide (w = b)); tauto.
    + intros w [->| ->]; simpl.
      * destruct (decide (b = a)) as [->|]; [by rewrite lookup_insert_eq|].
        by rewrite lookup_insert_ne, lookup_insert_eq.
      * by rewrite lookup_insert_eq.
    + intros w Hw. simpl. rewrite !lookup_insert_ne; [done|..]; intros ->; tauto.
    + intros w. unfold C, same_node. split.
      * intros [->|[->|[(h & ? & ?)|(h & ? & ?)]]]; [tauto|tauto|congruence..].
      * intros [Hw|Hw]; [tauto|]. by destruct (Hfresh w Hinv).
    + intros w w' h [->| ->] ? ?; congruence.
Qed.

Lemma same_node_sym r u v : same_node r u v → same_node r v u.
Proof. intros (h & ? & ?). by exists h. Qed.

Lemma same_node_trans r u w v : same_node r u w → same_node r w v → same_node r u v.
Proof. intros (h & ? & ?) (h' & ? & ?). exists h. split; congruence. Qed.

Lemma run_marks_snoc r calls a b :
  run_marks r (calls ++ [(a, b)]) = mark_to_join (run_marks r calls) a b.
Proof. unfold run_marks. by rewrite foldl_snoc. Qed.

Lemma marked_id_snoc calls a b u :
  marked_id (calls ++ [(a, b)]) u ↔ marked_id calls u ∨ u = a ∨ u = b.
Proof.
  unfold marked_id. setoid_rewrite elem_of_app.
  setoid_rewrite list_elem_of_singleton. split.
  - intros (w & [[?|[= -> ->]]|[?|[= -> ->]]]); eauto.
  - intros [(w & [?|?])|[->| ->]]; eauto.
Qed.

Lemma rtsc_marked_snoc calls a b u v :
  rtsc (marked calls) u v → rtsc (marked (calls ++ [(a, b)])) u v.
Proof.
  apply rtc_subrel. intros x y [Hxy|Hxy]; [left|right];
    unfold marked in *; set_solver.
Qed.

(** The classes of the map are the connected components of the marked
    pairs. *)
Lemma run_marks_components (cc : connected_clusters) calls u v :
  same_node (run_marks (hc_receiver_new cc) calls) u v ↔
  marked_id calls u ∧ rtsc (marked calls) u v.
Proof.
  revert u v. induction calls as [|[a b] calls IH] using rev_ind; intros u v.
  - unfold same_node, marked_id. simpl. setoid_rewrite lookup_empty.
    split; [by intros (? & ? & _)|].
    intros [(w & [Hw|Hw]) _]; by apply elem_of_nil in Hw.
  - rewrite run_marks_snoc.
    set (r := run_marks (hc_receiver_new cc) calls) in *.
    assert (Hinv : join_inv r) by apply run_marks_inv, join_inv_new.
    pose proof (λ u v, mark_to_join_same_node_iff r a b u v Hinv) as Hiff.
    assert (Hab : rtsc (marked (calls ++ [(a, b)])) a b).
    { apply rtsc_lr. unfold marked. set_solver. }
    assert (Hcls : ∀ w,
      w = a ∨ w = b ∨ same_node r w a ∨ same_node r w b →
      rtsc (marked (calls ++ [(a, b)])) w a).
    { intros w [->|[->|[Hw|Hw]]].
      - done.
      - by symmetry.
      - apply IH in Hw as [_ Hw]. by apply rtsc_marked_snoc.
      - apply IH in Hw as [_ Hw]. etrans; [by apply rtsc_marked_snoc|]. by symmetry. }
    assert (Hid : ∀ w,
      w = a ∨ w = b ∨ same_node r w a ∨ same_node r w b →
      marked_id (calls ++ [(a, b)]) w).
    { intros w Hw. apply marked_id_snoc.
      destruct Hw as [->|[->|[Hw|Hw]]]; [tauto..| |]; apply IH in Hw as [? _]; tauto. }
    split.
    + intros [Huv|[Hu Hv]]%Hiff.
      * apply IH in Huv as [Hu Huv].
        split; [apply marked_id_snoc; tauto|by apply rtsc_marked_snoc].
      * split; [by apply Hid|]. etrans; [by apply Hcls|]. symmetry. by apply Hcls.
    + intros [Hu Huv].
      assert (Hrefl : same_node (mark_to_join r a b) u u).
      { apply Hiff. apply marked_id_snoc in Hu as [Hu|Hu]; [|right; tauto].
        left. apply IH. by split. }
      assert (Hstep : ∀ x y, marked (calls ++ [(a, b)]) x y →
                             same_node (mark_to_join r a b) x y).
      { intros x y Hxy. apply Hiff. unfold marked in Hxy.
        apply elem_of_app in Hxy as [Hxy|Hxy%list_elem_of_singleton].
        - left. apply IH. split; [exists y; by left|by apply rtsc_lr].
        - injection Hxy as -> ->. right. tauto. }
      clear Hu. induction Huv as [u|u w v Huw Hwv IHp]; [done|].
      assert (same_node (mark_to_join r a b) u w) as Hs.
      { destruct Huw as [Huw|Huw]; [by apply Hstep|]. by apply same_node_sym, Hstep. }
      eapply same_node_trans; [exact Hs|]. apply IHp.
      eapply same_node_trans; [|exact Hs]. by apply same_node_sym.
Qed.

(** X16. After any sequence of [mark_to_join] calls on a new receiver,
    two ids are in one set of the list exactly if the first is an id of
    some call and the two are linked by a chain of marked pairs, taken in
    either direction: the sets are the connected components of the pairs
    marked. *)
Theorem join_sets_are_components (cc : connected_clusters) calls a b :
  same_set (run_marks (hc_receiver_new cc) calls) a b ↔
  marked_id calls a ∧ rtsc (marked calls) a b.
Proof.
  rewrite same_set_same_node by apply run_marks_inv, join_inv_new.
  apply run_marks_components.
Qed.

(** X17. If the id 0 is never marked, [join_superclusters] does not fail
    the assertion of the join: it returns, with the join sets as they
    were. *)
Theorem join_superclusters_returns (cc : connected_clusters) calls :
  (∀ a b, (a, b) ∈ calls → a ≠ 0 ∧ b ≠ 0) →
  ∃ r', join_superclusters (run_marks (hc_receiver_new cc) calls) = Some r'
      ∧ m_cm2join_sets r' = m_cm2join_sets (run_marks (hc_receiver_new cc) calls)
      ∧ m_cm2join_map r' = m_cm2join_map (run_marks (hc_receiver_new cc) calls).
Proof.
  intros Hnz. set (r := run_marks (hc_receiver_new cc) calls).
  assert (Hinv : join_inv r) by apply run_marks_inv, join_inv_new.
  unfold join_superclusters. rewrite join_superclusters_loop. simpl.
  destruct (apply_joins_is_Some (mp_cell_clusters r) (join_pairs (m_cm2join_sets r)))
    as [cc' ->]; [|by eexists].
  intros t w (h & s & Hs & Ht & _)%elem_of_join_pairs.
  assert (same_set r t t) as Hsame by (by exists h, s).
  apply same_set_same_node in Hsame; [|done].
  apply run_marks_components in Hsame as [(x & [Hx|Hx]) _];
    destruct (Hnz _ _ Hx); lia.
Qed.

End JoinComponents.

Section DoBuildBatches.
Implicit Types (ly : Layout) (called : gset N) (st : build_state).

Lemma do_build_loop_snoc ly called st p c :
  do_build_loop ly called st (p ++ [c]) =
    do_build_loop ly called st p ≫= λ st', do_build_step ly called st' c.
Proof. unfold do_build_loop. by rewrite foldl_snoc. Qed.

Lemma children_first_prefix ly p rest :
  children_first ly (p ++ rest) → children_first ly p.
Proof.
  intros Hcf l1 c l2 -> d Hd. apply (Hcf l1 c (l2 ++ rest)); [|done].
  by rewrite <- app_assoc.
Qed.

(** The cells waiting in [todo] have all their children in [done]. *)
Lemma do_build_loop_ready ly called p :
  children_first ly p →
  (∀ c d, c ∈ called → is_child ly c d → d ∈ called) →
  ∃ st, do_build_loop ly called {| done := ∅; todo := []; stitched := [] |} p = Some st
      ∧ stitched st ++ todo st = filter (λ c, c ∈ called) p
      ∧ done st = list_to_set (stitched st)
      ∧ (∀ c d, c ∈ todo st → is_child ly c d → d ∈ done st).
Proof.
  intros Hcf Hclosed. induction p as [|c p IH] using rev_ind.
  - eexists. split; [done|]. split_and!; [done..|].
    intros c d Hc. by apply elem_of_nil in Hc.
  - destruct IH as (st & Hst & Htrace & Hdone & Hready);
      [by eapply children_first_prefix|].
    destruct (do_build_loop_trace ly called {| done := ∅; todo := []; stitched := [] |}
                [] (p ++ [c])) as (st' & Hst' & Htrace' & Hdone'); [done..|].
    exists st'. split_and!; [done..|].
    rewrite do_build_loop_snoc, Hst in Hst'. simpl in Hst'.
    unfold do_build_step in Hst'.
    destruct (decide (c ∈ called)) as [Hc|Hc]; [|by injection Hst' as <-].
    destruct (forallb _ (child_cells ly c)) eqn:Hall.
    + injection Hst' as <-. simpl. intros c' d [Hc'| ->%list_elem_of_singleton]%elem_of_app.
      * by apply Hready.
      * intros Hd. rewrite forallb_forall in Hall.
        apply list_elem_of_In, Hall in Hd. by apply bool_decide_eq_true in Hd.
    + destruct (todo st) as [|t ts] eqn:Ht; [done|]. injection Hst' as <-. simpl.
      intros c' d ->%list_elem_of_singleton Hd.
      assert (d ∈ filter (λ c, c ∈ called) p) as Hin.
      { apply list_elem_of_filter. split; [by eapply Hclosed|].
        by apply (Hcf p c []). }
      rewrite <- Htrace in Hin. rewrite Hdone. set_solver.
Qed.

(** X18. At every point of the loop of [do_build] (the layout's bottom-up
    sequence having the children of a cell before the cell), the loop has
    not failed, the cells in [done] are the cells stitched so far, and
    every child of a cell that waits in [todo] is in [done]: a batch
    handed to [build_hier_connections_for_cells] holds no cell with a
    child in the same batch or not yet stitched. *)
Theorem do_build_batches_ready ly (top : N) p rest :
  bottom_up ly = p ++ rest →
  children_first ly (bottom_up ly) →
  (∀ d, d ∈ collect_called_cells ly top ↔ tc (is_child ly) top d) →
  ∃ st, do_build_loop ly (called_set ly top)
          {| done := ∅; todo := []; stitched := [] |} p = Some st
      ∧ (∀ c, c ∈ done st ↔ c ∈ stitched st)
      ∧ (∀ c d, c ∈ todo st → is_child ly c d → d ∈ done st)
      ∧ (∀ c, c ∈ stitched st ++ todo st ↔ c ∈ called_set ly top ∧ c ∈ p).
Proof.
  intros Hbu Hcf Hcalled.
  assert (Hmem : ∀ c, c ∈ called_set ly top ↔ c = top ∨ tc (is_child ly) top c).
  { intros c. unfold called_set. rewrite elem_of_union, Hcalled, elem_of_singleton.
    tauto. }
  destruct (do_build_loop_ready ly (called_set ly top) p)
    as (st & Hst & Htrace & Hdone & Hready).
  - rewrite Hbu in Hcf. by eapply children_first_prefix.
  - intros c d Hc Hcd. apply Hmem. right. apply Hmem in Hc as [->|Hc].
    + by apply tc_once.
    + by eapply tc_r.
  - exists st. split_and!; [done| |done|].
    + intros c. rewrite Hdone. apply elem_of_list_to_set.
    + intros c. by rewrite Htrace, list_elem_of_filter.
Qed.

End DoBuildBatches.

Section ClusterIteratorProps.
Context {G : Geometry}.
Variable hc : hier_clusters.
Variable cell_of : N → N.
Variable rank : N → nat.
(** A connection leads to a cell of lower rank: the hierarchy has no
    cycle. *)
Hypothesis rank_decreases : ∀ ci id cli,
  cli ∈ connections_for_cluster (clusters_per_cell hc ci) id →
  (rank (cell_of cli.2) < rank ci)%nat.

Implicit Types (ci id : N) (cli : ClusterInstance) (path : list ClusterInstance)
  (frames below : list (list ClusterInstance)) (it : rc_iterator).

Lemma bind_ext_in {A B} (f g : A → list B) (l : list A) :
  (∀ x, x ∈ l → f x = g x) → l ≫= f = l ≫= g.
Proof.
  induction l as [|x l IH]; intros Hfg; [done|].
  rewrite !bind_cons, Hfg, IH; [done| |]; set_solver.
Qed.

(** With depth to spare the enumeration is that of the whole net below the
    cluster. *)
Lemma rc_visit_unfold (d : nat) ci id path :
  (rank ci ≤ d)%nat →
  rc_visit hc cell_of d ci id path =
    (ci, id, path)
    :: (connections_for_cluster (clusters_per_cell hc ci) id
          ≫= λ cli, rc_visit hc cell_of (rank (cell_of cli.2)) (cell_of cli.2) cli.1 (path ++ [cli])).
Proof.
  revert ci id path. induction d as [d IH] using lt_wf_ind. intros ci id path Hd.
  destruct d as [|d]; simpl.
  - f_equal. destruct (connections_for_cluster _ id) as [|cli l] eqn:Hc; [done|].
    assert (cli ∈ connections_for_cluster (clusters_per_cell hc ci) id) as Hin
      by (rewrite Hc; by left).
    apply rank_decreases in Hin. lia.
  - f_equal. apply bind_ext_in. intros cli Hin.
    pose proof (rank_decreases _ _ _ Hin) as Hr.
    rewrite (IH d) by lia. rewrite (IH (rank (cell_of cli.2))) by lia. done.
Qed.

Lemma rci_pending_cons top below :
  rci_pending hc cell_of rank (top :: below) =
    (top ≫= λ cli, rc_visit hc cell_of (rank (cell_of cli.2)) (cell_of cli.2) cli.1 (reverse (omap head below) ++ [cli]))
    ++ rci_pending_below hc cell_of rank below.
Proof. done. Qed.

Lemma rci_pending_below_cons g below :
  rci_pending_below hc cell_of rank (g :: below) =
    rci_pending hc cell_of rank (tail g :: below).
Proof. done. Qed.

(** Leaving the exhausted frames keeps what is still to come. *)
Lemma rci_leave_pending top cells below cells' frames' :
  length cells = S (length below) → Forall (λ g, g ≠ []) below →
  rci_leave top cells below = (cells', frames') →
  rci_pending hc cell_of rank frames' = rci_pending hc cell_of rank (top :: below)
  ∧ length cells' = length frames'
  ∧ Forall (λ g, g ≠ []) (tail frames')
  ∧ (∀ g, head frames' = Some g → g ≠ []).
Proof.
  revert top cells. induction below as [|g below IH]; intros top cells Hlen Hne.
  - simpl. destruct top as [|cli top]; intros [= <- <-].
    + destruct cells as [|c [|]]; simpl in *; try lia. done.
    + simpl in *. split_and!; [done|lia|done|]. by intros g [= <-].
  - simpl. destruct top as [|cli top].
    + intros Hleave. apply Forall_cons in Hne as [_ Hne].
      destruct cells as [|c cells]; [simpl in Hlen; lia|].
      apply IH in Hleave; [|simpl in *; lia|done].
      destruct Hleave as (Hp & ? & ? & ?). split_and!; [|done..].
      rewrite Hp. done.
    + intros [= <- <-]. simpl in *. split_and!; [done|lia|done|]. by intros g' [= <-].
Qed.

Lemma rci_next_conn_spec it :
  rci_wf it → rci_at_end it = false →
  ∃ it', rci_next_conn hc cell_of it = Some it' ∧ rci_wf it'
    ∧ match rci_pending hc cell_of rank (rci_conn_iter_stack it) with
      | [] => rci_at_end it' = true
      | x :: xs =>
          rci_at_end it' = false
          ∧ (rci_cell_index it', rci_cluster_id it', rci_inst_path it') = x
          ∧ rci_pending hc cell_of rank (rci_conn_iter_stack it') = xs
      end.
Proof.
  destruct it as [id0 cells frames]. unfold rci_wf, rci_at_end, rci_next_conn.
  cbn [rci_conn_iter_stack rci_cell_index_stack rci_id].
  intros [Hlen Hne] Hend. destruct frames as [|top below]; [done|].
  cbn [tail length] in Hlen, Hne.
  destruct (rci_leave top cells below) as [cells' frames'] eqn:Hleave.
  destruct (rci_leave_pending _ _ _ _ _ Hlen Hne Hleave) as (Hp & Hlen' & Hne' & Hhd).
  rewrite <- Hp. clear Hp Hleave.
  destruct frames' as [|[|cli g] below'].
  - eexists. split; [done|]. split; [done|]. done.
  - by destruct (Hhd [] eq_refl).
  - eexists. split; [done|]. split.
    { unfold rci_down. cbn [rci_conn_iter_stack rci_cell_index_stack rci_id tail].
      split; [simpl in *; lia|]. constructor; [done|]. exact Hne'. }
    rewrite rci_pending_cons, bind_cons.
    rewrite (rc_visit_unfold _ _ _ _ (Nat.le_refl _)).
    cbn [app]. split; [done|]. split.
    + unfold rci_cell_index, rci_cluster_id, rci_inst_path, rci_down.
      cbn [rci_conn_iter_stack rci_cell_index_stack rci_id tail head default omap].
      simpl. by rewrite reverse_cons.
    + unfold rci_down. cbn [rci_conn_iter_stack].
      rewrite rci_pending_cons.
      assert (reverse (omap head ((cli :: g) :: below'))
              = reverse (omap head below') ++ [cli]) as ->
        by (simpl; apply reverse_cons).
      cbn [rci_pending_below tail]. by rewrite <- app_assoc.
Qed.

Lemma rci_collect_pending (n : nat) it :
  rci_wf it → rci_at_end it = false →
  (length (rci_pending hc cell_of rank (rci_conn_iter_stack it)) < n)%nat →
  rci_collect hc cell_of n it =
    (rci_cell_index it, rci_cluster_id it, rci_inst_path it)
    :: rci_pending hc cell_of rank (rci_conn_iter_stack it).
Proof.
  revert it. induction n as [|n IH]; intros it Hwf Hend Hn; [lia|].
  simpl. rewrite Hend.
  destruct (rci_next_conn_spec it Hwf Hend) as (it' & -> & Hwf' & Hp).
  f_equal. destruct (rci_pending _ _ _ (rci_conn_iter_stack it)) as [|x xs].
  - destruct n; [done|]. simpl. by rewrite Hp.
  - destruct Hp as (Hend' & <- & <-). apply IH; [done..|]. simpl in Hn. lia.
Qed.

(** X19. A loop over a [recursive_cluster_iterator] for the cluster [id]
    of the cell [ci] sees the clusters of the net depth first: the cluster
    itself, then, for each of its connections in turn, everything below
    that connection; at every position [cell_index], [cluster_id] and
    [inst_path] are the cell, the cluster and the connections leading to
    it.  After the last one the iterator is at its end.  (The connections
    lead to cells of lower rank: the hierarchy has no cycle.) *)
Theorem rci_visits_net ci id :
  let net := rc_visit hc cell_of (rank ci) ci id [] in
  rci_collect hc cell_of (S (length net)) (rci_new hc ci id) = net
  ∧ ∀ n : nat, (length net ≤ n)%nat →
      rci_collect hc cell_of n (rci_new hc ci id) = net.
Proof.
  intros net.
  assert (Hnet : net = (ci, id, [])
            :: rci_pending hc cell_of rank (rci_conn_iter_stack (rci_new hc ci id))).
  { unfold net. rewrite (rc_visit_unfold _ _ _ _ (Nat.le_refl _)). simpl.
    by rewrite app_nil_r. }
  assert (Hall : ∀ n : nat, (length net ≤ n)%nat →
                   rci_collect hc cell_of n (rci_new hc ci id) = net).
  { intros n Hn. rewrite Hnet. rewrite rci_collect_pending; [done| |done|].
    - split; [done|]. simpl. constructor.
    - rewrite Hnet in Hn. cbn [length] in Hn. lia. }
  split; [apply Hall, Nat.le_succ_diag_r|done].
Qed.

End ClusterIteratorProps.

Section NodesProps.
Context {A : Type}.
Implicit Types (nodes : list (nat * A)) (h : nat) (x : A).

Lemma nodes_lookup_None nodes h : nodes_lookup nodes h = None ↔ h ∉ nodes.*1.
Proof.
  induction nodes as [|[h' x'] r IH]; simpl.
  - split; [set_solver|done].
  - case_decide as Hh; [subst; set_solver|].
    rewrite IH. set_solver.
Qed.

Lemma nodes_lookup_handle nodes h x : nodes_lookup nodes h = Some x → h ∈ nodes.*1.
Proof.
  intros Hl. destruct (decide (h ∈ nodes.*1)) as [|Hnin]; [done|].
  apply nodes_lookup_None in Hnin. congruence.
Qed.

Lemma nodes_lookup_Some_elem nodes h x : nodes_lookup nodes h = Some x → (h, x) ∈ nodes.
Proof.
  induction nodes as [|[h' x'] r IH]; simpl; [done|].
  case_decide as Hh.
  - intros [= <-]. subst. by left.
  - intros Hl. right. by apply IH.
Qed.

Lemma elem_nodes_lookup nodes h x :
  NoDup nodes.*1 → (h, x) ∈ nodes → nodes_lookup nodes h = Some x.
Proof.
  induction nodes as [|[h' x'] r IH]; simpl; [by intros _ ?%elem_of_nil|].
  intros [Hnin Hnd]%NoDup_cons [Heq|Hin]%elem_of_cons.
  - injection Heq as -> ->. by rewrite decide_True.
  - case_decide as Hh; [|by apply IH]. subst.
    destruct Hnin. apply list_elem_of_fmap. by exists (h, x).
Qed.

Lemma nodes_update_fst f nodes h : (nodes_update f h nodes).*1 = nodes.*1.
Proof.
  induction nodes as [|[h' x'] r IH]; simpl; [done|].
  case_decide; simpl; [done|]. f_equal. apply IH.
Qed.

Lemma nodes_lookup_update f nodes h h' :
  nodes_lookup (nodes_update f h nodes) h' =
    if decide (h = h') then f <$> nodes_lookup nodes h else nodes_lookup nodes h'.
Proof.
  induction nodes as [|[h0 x0] r IH]; simpl; [by case_decide|].
  destruct (decide (h0 = h)) as [->|Hne]; simpl.
  - destruct (decide (h = h')) as [->|Hne']; [done|]. done.
  - rewrite IH. destruct (decide (h0 = h')) as [->|Hne'].
    + by rewrite decide_False.
    + done.
Qed.

Lemma nodes_erase_fst_subseteq nodes h h' :
  h' ∈ (nodes_erase h nodes).*1 → h' ∈ nodes.*1.
Proof.
  induction nodes as [|[h0 x0] r IH]; simpl; [done|].
  case_decide; simpl; set_solver.
Qed.

Lemma nodes_erase_NoDup nodes h : NoDup nodes.*1 → NoDup (nodes_erase h nodes).*1.
Proof.
  induction nodes as [|[h0 x0] r IH]; simpl; [done|].
  intros [Hnin Hnd]%NoDup_cons. case_decide; simpl; [done|].
  apply NoDup_cons. split; [|by apply IH].
  intros Hin. by apply Hnin, (nodes_erase_fst_subseteq _ h).
Qed.

Lemma nodes_lookup_erase nodes h h' :
  NoDup nodes.*1 →
  nodes_lookup (nodes_erase h nodes) h' =
    if decide (h = h') then None else nodes_lookup nodes h'.
Proof.
  induction nodes as [|[h0 x0] r IH]; simpl; [by case_decide|].
  intros [Hnin Hnd]%NoDup_cons.
  destruct (decide (h0 = h)) as [->|Hne]; simpl.
  - destruct (decide (h = h')) as [->|Hne']; [|done].
    by apply nodes_lookup_None.
  - rewrite IH by done. destruct (decide (h0 = h')) as [->|Hne'].
    + by rewrite decide_False.
    + done.
Qed.

Lemma nodes_lookup_app nodes h0 x0 h :
  nodes_lookup (nodes ++ [(h0, x0)]) h =
    match nodes_lookup nodes h with
    | Some x => Some x
    | None => if decide (h0 = h) then Some x0 else None
    end.
Proof.
  induction nodes as [|[h' x'] r IH]; simpl; [by case_decide|].
  destruct (decide (h' = h)); [done|apply IH].
Qed.

End NodesProps.

Lemma map_insert_new_None `{Countable K} {V} (k : K) (v : V) (m : gmap K V) :
  m !! k = None → map_insert_new k v m = <[k := v]> m.
Proof. unfold map_insert_new. by intros ->. Qed.

Section ClusterBuildingProps.
Context {G : Geometry}.
Variable conn : Connectivity.
Variable deref : N → shape.
Implicit Types (r : cb_receiver) (s t u w : N) (p : N * N) (v : list shape_value)
  (events : list cb_event).

Lemma cb_inv_new : cb_inv cb_receiver_new.
Proof.
  split; simpl; try done.
  - constructor.
  - intros h Hh. by apply elem_of_nil in Hh.
  - intros s h. rewrite lookup_empty. split; [done|]. by intros (v & ? & _).
Qed.

Lemma cb_inv_map_node r s h :
  cb_inv r → m_shape_to_clusters r !! s = Some h →
  ∃ v, nodes_lookup (cb_clusters r) h = Some v ∧ s ∈ v.*1.
Proof. intros Hinv. apply (cb_inv_map r Hinv). Qed.

Lemma cb_inv_unrecorded r s h v :
  cb_inv r → m_shape_to_clusters r !! s = None →
  nodes_lookup (cb_clusters r) h = Some v → s ∉ v.*1.
Proof.
  intros Hinv Hnone Hl Hin.
  assert (m_shape_to_clusters r !! s = Some h) as Hsome
    by (apply (cb_inv_map r Hinv); eauto).
  congruence.
Qed.

(** A new candidate at the end of the list, of shapes that are not
    recorded. *)
Lemma cb_inv_push r v0 :
  cb_inv r → v0 ≠ [] → NoDup v0.*1 →
  (∀ s, s ∈ v0.*1 → m_shape_to_clusters r !! s = None) →
  ∀ m', (∀ s, m' !! s = if decide (s ∈ v0.*1) then Some (cb_next_node r)
                        else m_shape_to_clusters r !! s) →
  cb_inv {| m_shape_to_clusters := m';
            cb_clusters := cb_clusters r ++ [(cb_next_node r, v0)];
            cb_next_node := S (cb_next_node r) |}.
Proof.
  intros Hinv Hne Hnd Hnew m' Hm'.
  assert (Hfresh : nodes_lookup (cb_clusters r) (cb_next_node r) = None).
  { apply nodes_lookup_None. intros Hin. apply (cb_inv_fresh r Hinv) in Hin. lia. }
  assert (Hlook : ∀ h,
    nodes_lookup (cb_clusters r ++ [(cb_next_node r, v0)]) h =
      if decide (h = cb_next_node r) then Some v0
      else nodes_lookup (cb_clusters r) h).
  { intros h. rewrite nodes_lookup_app.
    destruct (decide (h = cb_next_node r)) as [->|Hneq].
    - by rewrite Hfresh, decide_True.
    - destruct (nodes_lookup (cb_clusters r) h); [done|].
      by rewrite decide_False. }
  split; simpl.
  - rewrite fmap_app. apply NoDup_app. split_and!.
    + apply (cb_inv_nodup r Hinv).
    + intros h Hh ->%list_elem_of_singleton.
      apply (cb_inv_fresh r Hinv) in Hh. simpl in Hh. lia.
    + apply NoDup_singleton.
  - intros h. rewrite fmap_app, elem_of_app.
    intros [Hh| ->%list_elem_of_singleton]; [|simpl; lia].
    apply (cb_inv_fresh r Hinv) in Hh. lia.
  - intros h1 h2 v1 v2 s Hneq. rewrite !Hlook.
    destruct (decide (h1 = cb_next_node r)) as [->|H1];
      destruct (decide (h2 = cb_next_node r)) as [->|H2]; try done.
    + intros [= <-] Hl2 Hs. apply (cb_inv_unrecorded r s h2 v2 Hinv); auto.
    + intros Hl1 [= <-] Hs Hs'. by apply (cb_inv_unrecorded r s h1 v1 Hinv); auto.
    + by apply (cb_inv_disjoint r Hinv).
  - intros s h. rewrite Hm', Hlook.
    destruct (decide (s ∈ v0.*1)) as [Hs|Hs].
    + split.
      * intros [= <-]. rewrite decide_True by done. by exists v0.
      * intros (v & Hl & Hin). case_decide as Hh; [by subst|].
        by destruct (cb_inv_unrecorded r s h v Hinv (Hnew s Hs) Hl).
    + rewrite (cb_inv_map r Hinv).
      case_decide as Hh; [|done]. subst. rewrite Hfresh. split.
      * by intros (v & ? & _).
      * by intros (v & [= <-] & Hin).
  - intros h v. rewrite Hlook. case_decide; [by intros [= <-]|].
    apply (cb_inv_once r Hinv).
  - intros h v. rewrite Hlook. case_decide; [by intros [= <-]|].
    apply (cb_inv_nonempty r Hinv).
Qed.

(** A shape that is not recorded enters a candidate. *)
Lemma cb_inv_extend r s p y :
  cb_inv r → m_shape_to_clusters r !! s = None → y ∈ (cb_clusters r).*1 →
  cb_inv {| m_shape_to_clusters := map_insert_new s y (m_shape_to_clusters r);
            cb_clusters := nodes_update (λ v, v ++ [(s, p)]) y (cb_clusters r);
            cb_next_node := cb_next_node r |}.
Proof.
  intros Hinv Hs Hy. rewrite map_insert_new_None by done.
  destruct (nodes_lookup (cb_clusters r) y) as [vy|] eqn:Hvy;
    [|by apply nodes_lookup_None in Hvy].
  split; simpl.
  - rewrite nodes_update_fst. apply (cb_inv_nodup r Hinv).
  - intros h. rewrite nodes_update_fst. apply (cb_inv_fresh r Hinv).
  - intros h1 h2 v1 v2 s' Hneq. rewrite !nodes_lookup_update.
    destruct (decide (y = h1)) as [<-|H1]; destruct (decide (y = h2)) as [<-|H2];
      try done.
    + rewrite Hvy. simpl. intros [= <-] Hl2. rewrite fmap_app, elem_of_app.
      intros [Hin|Hin%list_elem_of_singleton].
      * by apply (cb_inv_disjoint r Hinv _ _ _ _ _ Hneq Hvy Hl2).
      * simpl in Hin. subst. by apply (cb_inv_unrecorded r s h2 v2 Hinv).
    + rewrite Hvy. simpl. intros Hl1 [= <-] Hin. rewrite fmap_app, elem_of_app.
      intros [Hin'|Hin'%list_elem_of_singleton].
      * by apply (cb_inv_disjoint r Hinv _ _ _ _ _ Hneq Hl1 Hvy Hin).
      * simpl in Hin'. subst. by apply (cb_inv_unrecorded r s h1 v1 Hinv).
    + by apply (cb_inv_disjoint r Hinv).
  - intros s' h. rewrite nodes_lookup_update, Hvy. simpl.
    destruct (decide (s' = s)) as [->|Hss].
    + rewrite lookup_insert_eq. split.
      * intros [= <-]. rewrite decide_True by done.
        eexists; split; [done|]. rewrite fmap_app. set_solver.
      * intros (v & Hl & Hin). case_decide as Hh; [by subst|].
        by destruct (cb_inv_unrecorded r s h v Hinv Hs Hl).
    + rewrite lookup_insert_ne by done. rewrite (cb_inv_map r Hinv).
      case_decide as Hh; [subst h; rewrite Hvy|done]. split.
      * intros (v & [= <-] & Hin). eexists; split; [done|]. rewrite fmap_app. set_solver.
      * intros (v & [= <-] & Hin). eexists; split; [done|].
        rewrite fmap_app in Hin. set_solver.
  - intros h v. rewrite nodes_lookup_update.
    destruct (decide (y = h)) as [<-|]; [|apply (cb_inv_once r Hinv)].
    rewrite Hvy. simpl. intros [= <-]. rewrite fmap_app.
    apply NoDup_app. split_and!.
    + by apply (cb_inv_once r Hinv y).
    + intros s' Hin ->%list_elem_of_singleton.
      by apply (cb_inv_unrecorded r s y vy Hinv).
    + apply NoDup_singleton.
  - intros h v. rewrite nodes_lookup_update.
    destruct (decide (y = h)) as [<-|]; [|apply (cb_inv_nonempty r Hinv)].
    rewrite Hvy. simpl. intros [= <-]. by destruct vy.
Qed.

Lemma foldl_insert_fst_lookup (m : gmap N nat) (j : list shape_value) (x : nat) s :
  foldl (λ m (i : shape_value), <[i.1 := x]> m) m j !! s =
    if decide (s ∈ j.*1) then Some x else m !! s.
Proof.
  revert m. induction j as [|i j IH]; intros m.
  - case_decide as Hin; [by apply elem_of_nil in Hin|done].
  - cbn [foldl]. rewrite IH, fmap_cons. destruct (decide (s ∈ j.*1)) as [Hin|Hnin].
    + rewrite decide_True; [done|]. by right.
    + destruct (decide (s = i.1)) as [->|Hne].
      * rewrite lookup_insert_eq, decide_True; [done|]. by left.
      * rewrite lookup_insert_ne by done. rewrite decide_False; [done|].
        intros [?|?]%elem_of_cons; done.
Qed.

(** Two candidates are merged and the one of [y] is erased. *)
Lemma cb_inv_merge r x y vy :
  cb_inv r → x ≠ y → x ∈ (cb_clusters r).*1 →
  nodes_lookup (cb_clusters r) y = Some vy →
  cb_inv {| m_shape_to_clusters :=
              foldl (λ m (i : shape_value), <[i.1 := x]> m) (m_shape_to_clusters r) vy;
            cb_clusters := nodes_erase y (nodes_update (λ v, v ++ vy) x (cb_clusters r));
            cb_next_node := cb_next_node r |}.
Proof.
  intros Hinv Hne Hx Hvy.
  destruct (nodes_lookup (cb_clusters r) x) as [vx|] eqn:Hvx;
    [|by apply nodes_lookup_None in Hvx].
  assert (Hlook : ∀ h,
    nodes_lookup (nodes_erase y (nodes_update (λ v, v ++ vy) x (cb_clusters r))) h =
      if decide (h = y) then None
      else if decide (h = x) then Some (vx ++ vy)
      else nodes_lookup (cb_clusters r) h).
  { intros h. rewrite nodes_lookup_erase
      by (rewrite nodes_update_fst; apply (cb_inv_nodup r Hinv)).
    rewrite nodes_lookup_update, Hvx. simpl.
    destruct (decide (y = h)) as [<-|]; [by rewrite decide_True|].
    rewrite (decide_False (P := h = y)) by congruence.
    destruct (decide (x = h)) as [<-|]; [by rewrite decide_True|].
    by rewrite (decide_False (P := h = x)) by congruence. }
  pose proof (λ s, cb_inv_disjoint r Hinv _ _ _ _ s Hne Hvx Hvy) as Hxy.
  split; simpl.
  - apply nodes_erase_NoDup. rewrite nodes_update_fst. apply (cb_inv_nodup r Hinv).
  - intros h Hh. apply nodes_erase_fst_subseteq in Hh.
    rewrite nodes_update_fst in Hh. by apply (cb_inv_fresh r Hinv).
  - intros h1 h2 v1 v2 s H12. rewrite !Hlook.
    destruct (decide (h1 = y)) as [->|H1y]; [done|].
    destruct (decide (h2 = y)) as [->|H2y]; [done|].
    destruct (decide (h1 = x)) as [->|H1x]; destruct (decide (h2 = x)) as [->|H2x];
      try done.
    + intros [= <-] Hl2. rewrite fmap_app, elem_of_app. intros [Hin|Hin].
      * by apply (cb_inv_disjoint r Hinv _ _ _ _ _ H12 Hvx Hl2).
      * intros Hin'. by apply (cb_inv_disjoint r Hinv _ _ _ _ _ H2y Hl2 Hvy Hin').
    + intros Hl1 [= <-] Hin. rewrite fmap_app, elem_of_app. intros [Hin'|Hin'].
      * by apply (cb_inv_disjoint r Hinv _ _ _ _ _ H12 Hl1 Hvx Hin).
      * by apply (cb_inv_disjoint r Hinv _ _ _ _ _ H1y Hl1 Hvy Hin).
    + by apply (cb_inv_disjoint r Hinv).
  - intros s h. rewrite foldl_insert_fst_lookup, Hlook.
    destruct (decide (s ∈ vy.*1)) as [Hs|Hs].
    + split.
      * intros [= <-]. rewrite decide_False, decide_True by done.
        eexists; split; [done|]. rewrite fmap_app. set_solver.
      * intros (v & Hl & Hin).
        destruct (decide (h = y)) as [->|Hhy]; [done|].
        destruct (decide (h = x)) as [->|Hhx]; [done|].
        by destruct (cb_inv_disjoint r Hinv _ _ _ _ _ Hhy Hl Hvy Hin).
    + rewrite (cb_inv_map r Hinv).
      destruct (decide (h = y)) as [->|Hhy].
      { rewrite Hvy. split; [|by intros (v & ? & _)].
        intros (v & [= <-] & Hin). done. }
      destruct (decide (h = x)) as [->|Hhx]; [|done].
      rewrite Hvx. split.
      * intros (v & [= <-] & Hin). eexists; split; [done|]. rewrite fmap_app. set_solver.
      * intros (v & [= <-] & Hin). eexists; split; [done|].
        rewrite fmap_app in Hin. set_solver.
  - intros h v. rewrite Hlook.
    destruct (decide (h = y)); [done|].
    destruct (decide (h = x)); [|apply (cb_inv_once r Hinv)].
    intros [= <-]. rewrite fmap_app. apply NoDup_app. split_and!.
    + by apply (cb_inv_once r Hinv x).
    + apply Hxy.
    + by apply (cb_inv_once r Hinv y).
  - intros h v. rewrite Hlook.
    destruct (decide (h = y)); [done|].
    destruct (decide (h = x)); [|apply (cb_inv_nonempty r Hinv)].
    intros [= <-]. pose proof (cb_inv_nonempty r Hinv _ _ Hvx). by destruct vx.
Qed.

Lemma cb_add_inv r s1 p1 s2 p2 :
  cb_inv r → s1 ≠ s2 → cb_inv (cb_add conn deref r s1 p1 s2 p2).
Proof.
  intros Hinv Hne. unfold cb_add.
  destruct (interacts _ _ _ _ _ _); simpl; [|done].
  destruct (m_shape_to_clusters r !! s1) as [x|] eqn:H1;
    destruct (m_shape_to_clusters r !! s2) as [y|] eqn:H2.
  - case_decide as Hxy; [done|].
    destruct (cb_inv_map_node r s1 x Hinv H1) as (vx & Hvx & _).
    destruct (cb_inv_map_node r s2 y Hinv H2) as (vy & Hvy & _).
    rewrite Hvx, Hvy. simpl.
    destruct (length vx <? length vy)%nat.
    + rewrite Hvx. simpl. apply cb_inv_merge; [done|congruence| |done].
      by eapply nodes_lookup_handle.
    + rewrite Hvy. simpl. apply cb_inv_merge; [done|congruence| |done].
      by eapply nodes_lookup_handle.
  - destruct (cb_inv_map_node r s1 x Hinv H1) as (vx & Hvx & _).
    apply cb_inv_extend; [done..|]. by eapply nodes_lookup_handle.
  - destruct (cb_inv_map_node r s2 y Hinv H2) as (vy & Hvy & _).
    apply cb_inv_extend; [done..|]. by eapply nodes_lookup_handle.
  - apply cb_inv_push; [done|done| | |].
    + simpl. apply NoDup_cons. split; [by intros ->%list_elem_of_singleton|].
      apply NoDup_singleton.
    + simpl. intros s [->|[->|[]%elem_of_nil]%elem_of_cons]%elem_of_cons; done.
    + intros s. simpl.
      rewrite (map_insert_new_None s1) by done.
      rewrite (map_insert_new_None s2) by (by rewrite lookup_insert_ne).
      destruct (decide (s = s2)) as [->|Hs2].
      { rewrite lookup_insert_eq, decide_True; [done|]. set_solver. }
      rewrite lookup_insert_ne by done.
      destruct (decide (s = s1)) as [->|Hs1].
      { rewrite lookup_insert_eq, decide_True; [done|]. set_solver. }
      rewrite lookup_insert_ne by done. rewrite decide_False; [done|]. set_solver.
Qed.

Lemma cb_finish_inv r s p : cb_inv r → cb_inv (cb_finish r s p).
Proof.
  intros Hinv. unfold cb_finish.
  destruct (m_shape_to_clusters r !! s) as [x|] eqn:Hs; [done|].
  apply cb_inv_push; [done|done| | |].
  - apply NoDup_singleton.
  - simpl. by intros s' ->%list_elem_of_singleton.
  - intros s'. simpl. rewrite map_insert_new_None by done.
    destruct (decide (s' = s)) as [->|Hne].
    + rewrite lookup_insert_eq, decide_True; [done|]. set_solver.
    + rewrite lookup_insert_ne by done. rewrite decide_False; [done|]. set_solver.
Qed.

Lemma cb_step_inv r ev : cb_inv r → cb_event_ok ev → cb_inv (cb_step conn deref r ev).
Proof.
  intros Hinv Hok. destruct ev as [s1 p1 s2 p2|s p]; simpl.
  - by apply cb_add_inv.
  - by apply cb_finish_inv.
Qed.

Lemma cb_run_inv r events :
  cb_inv r → Forall cb_event_ok events → cb_inv (cb_run conn deref r events).
Proof.
  revert r. induction events as [|ev events IH]; intros r Hinv Hok; [done|].
  apply Forall_cons in Hok as [Hev Hok]. simpl. apply IH; [|done]. by apply cb_step_inv.
Qed.

Lemma same_candidate_same_node r s t : cb_inv r → same_candidate r s t ↔ cb_same_node r s t.
Proof.
  intros Hinv. split.
  - intros (h & v & Hv & Hs & Ht). exists h.
    apply (elem_nodes_lookup _ _ _ (cb_inv_nodup r Hinv)) in Hv.
    split; apply (cb_inv_map r Hinv); eauto.
  - intros (h & Hs & Ht).
    apply (cb_inv_map r Hinv) in Hs as (v & Hl & Hs).
    apply (cb_inv_map r Hinv) in Ht as (v' & Hl' & Ht).
    assert (v' = v) as -> by congruence.
    exists h, v. split; [by apply nodes_lookup_Some_elem|done].
Qed.

Lemma cb_inv_map_fresh r s : cb_inv r → m_shape_to_clusters r !! s ≠ Some (cb_next_node r).
Proof.
  intros Hinv Hs. apply (cb_inv_map r Hinv) in Hs as (v & Hl & _).
  apply nodes_lookup_handle, (cb_inv_fresh r Hinv) in Hl. lia.
Qed.

Lemma map_insert_new_pair (m : gmap N nat) s1 s2 (c : nat) w :
  m !! s1 = None → m !! s2 = None →
  map_insert_new s2 c (map_insert_new s1 c m) !! w =
    if decide (w = s1 ∨ w = s2) then Some c else m !! w.
Proof.
  intros H1 H2. rewrite (map_insert_new_None s1) by done.
  destruct (decide (s2 = s1)) as [->|Hne].
  - unfold map_insert_new. rewrite lookup_insert_eq.
    destruct (decide (w = s1)) as [->|Hw].
    + rewrite lookup_insert_eq, decide_True; [done|tauto].
    + rewrite lookup_insert_ne by done. rewrite decide_False; [done|tauto].
  - rewrite (map_insert_new_None s2) by (by rewrite lookup_insert_ne).
    destruct (decide (w = s2)) as [->|Hw2].
    { rewrite lookup_insert_eq, decide_True; [done|tauto]. }
    rewrite lookup_insert_ne by done.
    destruct (decide (w = s1)) as [->|Hw1].
    { rewrite lookup_insert_eq, decide_True; [done|tauto]. }
    rewrite lookup_insert_ne by done. rewrite decide_False; [done|tauto].
Qed.

(** What one interacting pair does to the classes of the map: the classes
    of the two shapes become one class, and the others stay. *)
Lemma cb_add_same_node_iff r s1 p1 s2 p2 u w :
  cb_inv r →
  cb_same_node (cb_add conn deref r s1 p1 s2 p2) u w ↔
  cb_same_node r u w
  ∨ (interacts conn (deref s1) p1.1 (deref s2) p2.1 None = true
     ∧ (u = s1 ∨ u = s2 ∨ cb_same_node r u s1 ∨ cb_same_node r u s2)
     ∧ (w = s1 ∨ w = s2 ∨ cb_same_node r w s1 ∨ cb_same_node r w s2)).
Proof.
  intros Hinv. unfold cb_add.
  destruct (interacts _ _ _ _ _ _); simpl; [|split; [tauto|by intros [?|[? _]]]].
  set (C := λ x, x = s1 ∨ x = s2 ∨ cb_same_node r x s1 ∨ cb_same_node r x s2).
  enough (cb_same_node
    match m_shape_to_clusters r !! s1, m_shape_to_clusters r !! s2 with
    | None, None =>
        let c := cb_next_node r in
        {| m_shape_to_clusters :=
             map_insert_new s2 c (map_insert_new s1 c (m_shape_to_clusters r));
           cb_clusters := cb_clusters r ++ [(c, [(s1, p1); (s2, p2)])];
           cb_next_node := S c |}
    | None, Some c2 =>
        {| m_shape_to_clusters := map_insert_new s1 c2 (m_shape_to_clusters r);
           cb_clusters := nodes_update (λ v, v ++ [(s1, p1)]) c2 (cb_clusters r);
           cb_next_node := cb_next_node r |}
    | Some c1, None =>
        {| m_shape_to_clusters := map_insert_new s2 c1 (m_shape_to_clusters r);
           cb_clusters := nodes_update (λ v, v ++ [(s2, p2)]) c1 (cb_clusters r);
           cb_next_node := cb_next_node r |}
    | Some c1, Some c2 =>
        if decide (c1 = c2) then r
        else
          let size c := length (default [] (nodes_lookup (cb_clusters r) c)) in
          let '(c1, c2) := if (size c1 <? size c2)%nat then (c2, c1) else (c1, c2) in
          let j := default [] (nodes_lookup (cb_clusters r) c2) in
          {| m_shape_to_clusters :=
               foldl (λ m (i : shape_value), <[i.1 := c1]> m) (m_shape_to_clusters r) j;
             cb_clusters :=
               nodes_erase c2 (nodes_update (λ v, v ++ j) c1 (cb_clusters r));
             cb_next_node := cb_next_node r |}
    end u w ↔ cb_same_node r u w ∨ (C u ∧ C w)) as Hen.
  { rewrite Hen. unfold C. tauto. }
  assert (Hmem : ∀ y vy, nodes_lookup (cb_clusters r) y = Some vy →
            ∀ i, i ∈ vy.*1 ↔ m_shape_to_clusters r !! i = Some y).
  { intros y vy Hvy i. rewrite (cb_inv_map r Hinv). split.
    - intros Hi. by exists vy.
    - intros (v & Hl & Hi). congruence. }
  destruct (m_shape_to_clusters r !! s1) as [x|] eqn:H1;
    destruct (m_shape_to_clusters r !! s2) as [y|] eqn:H2.
  - case_decide as Hxy.
    { subst y. split; [by left|]. intros [Hs|[Hu Hw]]; [done|].
      assert (Hcls : ∀ z, C z → m_shape_to_clusters r !! z = Some x).
      { intros z [->|[->|[(h & ? & ?)|(h & ? & ?)]]]; congruence. }
      exists x. split; by apply Hcls. }
    destruct (cb_inv_map_node r s1 x Hinv H1) as (vx & Hvx & _).
    destruct (cb_inv_map_node r s2 y Hinv H2) as (vy & Hvy & _).
    cbv zeta beta. rewrite Hvx, Hvy. simpl.
    destruct (length vx <? length vy)%nat.
    + rewrite Hvx. simpl.
      apply (retarget_classes (m_shape_to_clusters r) _
               (λ z, m_shape_to_clusters r !! z = Some x) C y).
      * intros z. destruct (decide (m_shape_to_clusters r !! z = Some x)); tauto.
      * intros z Hz. simpl. rewrite foldl_insert_fst_lookup, decide_True; [done|].
        by apply (Hmem x vx).
      * intros z Hz. simpl. rewrite foldl_insert_fst_lookup, decide_False; [done|].
        by rewrite (Hmem x vx).
      * intros z. unfold C, cb_same_node. split.
        -- intros [->|[->|[(h & ? & ?)|(h & ? & ?)]]]; [left|right|left|right]; congruence.
        -- intros [Hz|Hz]; [right; right; left; by exists x|right; right; right; by exists y].
      * intros z z' h ? ? ?. congruence.
    + rewrite Hvy. simpl.
      apply (retarget_classes (m_shape_to_clusters r) _
               (λ z, m_shape_to_clusters r !! z = Some y) C x).
      * intros z. destruct (decide (m_shape_to_clusters r !! z = Some y)); tauto.
      * intros z Hz. simpl. rewrite foldl_insert_fst_lookup, decide_True; [done|].
        by apply (Hmem y vy).
      * intros z Hz. simpl. rewrite foldl_insert_fst_lookup, decide_False; [done|].
        by rewrite (Hmem y vy).
      * intros z. unfold C, cb_same_node. split.
        -- intros [->|[->|[(h & ? & ?)|(h & ? & ?)]]]; [right|left|right|left]; congruence.
        -- intros [Hz|Hz]; [right; right; right; by exists y|right; right; left; by exists x].
      * intros z z' h ? ? ?. congruence.
  - rewrite map_insert_new_None by done.
    apply (retarget_classes (m_shape_to_clusters r) _ (λ z, z = s2) C x).
    + intros z. destruct (decide (z = s2)); tauto.
    + intros z ->. simpl. by rewrite lookup_insert_eq.
    + intros z Hz. simpl. by rewrite lookup_insert_ne.
    + intros z. unfold C, cb_same_node. split.
      * intros [->|[->|[(h & ? & ?)|(h & ? & ?)]]]; [right|left|right|]; congruence.
      * intros [Hz|Hz]; [tauto|right; right; left; by exists x].
    + intros z z' h -> ? ?. congruence.
  - rewrite map_insert_new_None by done.
    apply (retarget_classes (m_shape_to_clusters r) _ (λ z, z = s1) C y).
    + intros z. destruct (decide (z = s1)); tauto.
    + intros z ->. simpl. by rewrite lookup_insert_eq.
    + intros z Hz. simpl. by rewrite lookup_insert_ne.
    + intros z. unfold C, cb_same_node. split.
      * intros [->|[->|[(h & ? & ?)|(h & ? & ?)]]]; [left|right| |right]; congruence.
      * intros [Hz|Hz]; [tauto|right; right; right; by exists y].
    + intros z z' h -> ? ?. congruence.
  - pose proof (cb_inv_map_fresh r) as Hfresh.
    apply (retarget_classes (m_shape_to_clusters r) _ (λ z, z = s1 ∨ z = s2) C
             (cb_next_node r)).
    + intros z. destruct (decide (z = s1)), (decide (z = s2)); tauto.
    + intros z Hz. simpl. rewrite map_insert_new_pair by done. by rewrite decide_True.
    + intros z Hz. simpl. rewrite map_insert_new_pair by done. by rewrite decide_False.
    + intros z. unfold C, cb_same_node. split.
      * intros [->|[->|[(h & ? & ?)|(h & ? & ?)]]]; [tauto|tauto|congruence..].
      * intros [Hz|Hz]; [tauto|]. by destruct (Hfresh z Hinv).
    + intros z z' h [->| ->] ? ?; congruence.
Qed.

(** [finish] gives a shape that is not recorded a class of its own. *)
Lemma cb_finish_same_node_iff r s p u w :
  cb_inv r →
  cb_same_node (cb_finish r s p) u w ↔ cb_same_node r u w ∨ (u = s ∧ w = s).
Proof.
  intros Hinv. unfold cb_finish.
  destruct (m_shape_to_clusters r !! s) as [x|] eqn:Hs.
  - split; [tauto|]. intros [?|[-> ->]]; [done|]. by exists x.
  - rewrite map_insert_new_None by done.
    pose proof (cb_inv_map_fresh r) as Hfresh.
    apply (retarget_classes (m_shape_to_clusters r) _ (λ z, z = s) (λ z, z = s)
             (cb_next_node r)).
    + intros z. destruct (decide (z = s)); tauto.
    + intros z ->. simpl. by rewrite lookup_insert_eq.
    + intros z Hz. simpl. by rewrite lookup_insert_ne.
    + intros z. split; [tauto|]. intros [Hz|Hz]; [done|]. by destruct (Hfresh z Hinv).
    + intros z z' h -> ? ?. congruence.
Qed.

Lemma cb_run_snoc r events ev :
  cb_run conn deref r (events ++ [ev]) = cb_step conn deref (cb_run conn deref r events) ev.
Proof. unfold cb_run. by rewrite foldl_snoc. Qed.

Lemma cb_linked_snoc events ev x y :
  cb_linked conn deref (events ++ [ev]) x y ↔
  cb_linked conn deref events x y
  ∨ ∃ p1 p2, ev = CbAdd x p1 y p2
           ∧ interacts conn (deref x) p1.1 (deref y) p2.1 None = true.
Proof.
  unfold cb_linked. setoid_rewrite elem_of_app.
  setoid_rewrite list_elem_of_singleton. split.
  - intros (p1 & p2 & [Hin|Heq] & Hi); [left; eauto|right; eauto].
  - intros [(p1 & p2 & Hin & Hi)|(p1 & p2 & Heq & Hi)]; exists p1, p2; eauto.
Qed.

Lemma cb_seen_snoc events ev s :
  cb_seen conn deref (events ++ [ev]) s ↔
  cb_seen conn deref events s
  ∨ (∃ t p1 p2, (ev = CbAdd s p1 t p2
                 ∧ interacts conn (deref s) p1.1 (deref t) p2.1 None = true)
              ∨ (ev = CbAdd t p1 s p2
                 ∧ interacts conn (deref t) p1.1 (deref s) p2.1 None = true))
  ∨ (∃ p, ev = CbFinish s p).
Proof.
  unfold cb_seen. setoid_rewrite cb_linked_snoc. setoid_rewrite elem_of_app.
  setoid_rewrite list_elem_of_singleton. split.
  - intros [(t & [[Hl|(p1 & p2 & Hev)]|[Hl|(p1 & p2 & Hev)]])|(p & [Hin|Heq])].
    + left. left. eauto.
    + right. left. exists t, p1, p2. tauto.
    + left. left. eauto.
    + right. left. exists t, p1, p2. tauto.
    + left. right. eauto.
    + right. right. eauto.
  - intros [[(t & Hl)|(p & Hin)]|[(t & p1 & p2 & [Hev|Hev])|(p & Heq)]].
    + left. exists t. tauto.
    + right. eauto.
    + left. exists t. left. right. eauto.
    + left. exists t. right. right. eauto.
    + right. eauto.
Qed.

(** One step of the component argument: the classes [S] are the
    components of the links [L] on the seen shapes [D]; after two seeds
    [a] and [b] are put into one class and linked, the classes are the
    components again. *)
Lemma components_step (S S' L L' : N → N → Prop) (D D' : N → Prop) (a b : N) :
  (∀ x y, S x y ↔ D x ∧ rtsc L x y) →
  (∀ x y, S' x y ↔ S x y ∨ ((x = a ∨ x = b ∨ S x a ∨ S x b)
                            ∧ (y = a ∨ y = b ∨ S y a ∨ S y b))) →
  (∀ x y, S' x y → S' y x) →
  (∀ x z y, S' x z → S' z y → S' x y) →
  (∀ x y, L x y → L' x y) →
  (∀ x y, L' x y → L x y ∨ (x = a ∧ y = b)) →
  rtsc L' a b →
  (∀ x y, L x y → D x) →
  (∀ x, D' x ↔ D x ∨ x = a ∨ x = b) →
  ∀ x y, S' x y ↔ D' x ∧ rtsc L' x y.
Proof.
  intros IH Hiff Hsym Htrans Hsub Hnew Hab HLD HD' u v.
  assert (Hlift : ∀ x y, rtsc L x y → rtsc L' x y).
  { intros x y. apply rtc_subrel. intros x' y' [?|?]; [left|right]; by apply Hsub. }
  assert (Hcls : ∀ z, z = a ∨ z = b ∨ S z a ∨ S z b → rtsc L' z a).
  { intros z [->|[->|[Hz|Hz]]].
    - done.
    - by symmetry.
    - apply IH in Hz as [_ Hz]. by apply Hlift.
    - apply IH in Hz as [_ Hz]. etrans; [by apply Hlift|]. by symmetry. }
  assert (Hid : ∀ z, z = a ∨ z = b ∨ S z a ∨ S z b → D' z).
  { intros z Hz. apply HD'.
    destruct Hz as [->|[->|[Hz|Hz]]]; [tauto..| |]; apply IH in Hz as [? _]; tauto. }
  split.
  - intros [Huv|[Hu Hv]]%Hiff.
    + apply IH in Huv as [Hu Huv]. split; [apply HD'; tauto|by apply Hlift].
    + split; [by apply Hid|]. etrans; [by apply Hcls|]. symmetry. by apply Hcls.
  - intros [Hu Huv].
    assert (Hrefl : S' u u).
    { apply Hiff. apply HD' in Hu as [Hu|Hu]; [|right; tauto].
      left. apply IH. by split. }
    assert (Hstep : ∀ x y, L' x y → S' x y).
    { intros x y Hxy. apply Hiff. destruct (Hnew _ _ Hxy) as [HL|[-> ->]].
      - left. apply IH. split; [by eapply HLD|by apply rtsc_lr].
      - right. tauto. }
    clear Hu. induction Huv as [u|u w v Huw Hwv IHp]; [done|].
    assert (S' u w) as Hs.
    { destruct Huw as [Huw|Huw]; [by apply Hstep|]. by apply Hsym, Hstep. }
    eapply Htrans; [exact Hs|]. apply IHp.
    eapply Htrans; [|exact Hs]. by apply Hsym.
Qed.

Lemma cb_same_node_sym r u w : cb_same_node r u w → cb_same_node r w u.
Proof. intros (h & ? & ?). by exists h. Qed.

Lemma cb_same_node_trans r u z w :
  cb_same_node r u z → cb_same_node r z w → cb_same_node r u w.
Proof. intros (h & ? & ?) (h' & ? & ?). exists h. split; congruence. Qed.

Lemma cb_linked_seen events x y : cb_linked conn deref events x y → cb_seen conn deref events x.
Proof. intros Hl. left. exists y. by left. Qed.

(** The classes of the map are the connected components of the
    interacting pairs. *)
Lemma cb_run_components events u w :
  Forall cb_event_ok events →
  cb_same_node (cb_run conn deref cb_receiver_new events) u w ↔
  cb_seen conn deref events u ∧ rtsc (cb_linked conn deref events) u w.
Proof.
  revert u w. induction events as [|ev events IH] using rev_ind; intros u w Hok.
  - unfold cb_same_node, cb_seen, cb_linked. simpl. setoid_rewrite lookup_empty.
    split; [by intros (? & ? & _)|].
    intros [[(t & [(? & ? & Hin & _)|(? & ? & Hin & _)])|(p & Hin)] _];
      by apply elem_of_nil in Hin.
  - apply Forall_app in Hok as [Hok Hev]. apply Forall_singleton in Hev.
    rewrite cb_run_snoc.
    set (r := cb_run conn deref cb_receiver_new events) in *.
    assert (Hinv : cb_inv r) by (by apply cb_run_inv; [apply cb_inv_new|]).
    specialize (λ u w, IH u w Hok).
    destruct ev as [s1 p1 s2 p2|s p]; simpl.
    + destruct (interacts conn (deref s1) p1.1 (deref s2) p2.1 None) eqn:Hi.
      * revert u w.
        apply (components_step (cb_same_node r) _ (cb_linked conn deref events) _
                 (cb_seen conn deref events) _ s1 s2).
        -- done.
        -- intros x y. rewrite cb_add_same_node_iff, Hi by done. tauto.
        -- intros x y. apply cb_same_node_sym.
        -- intros x z y. apply cb_same_node_trans.
        -- intros x y Hl. apply cb_linked_snoc. by left.
        -- intros x y [Hl|(q1 & q2 & [= -> -> -> ->] & _)]%cb_linked_snoc; tauto.
        -- apply rtsc_lr, cb_linked_snoc. right. by exists p1, p2.
        -- apply cb_linked_seen.
        -- intros x. rewrite cb_seen_snoc. split.
           ++ intros [?|[(t & q1 & q2 & [[[= -> -> -> ->] _]|[[= -> -> -> ->] _]])|(q & [=])]];
                tauto.
           ++ intros [?|[->| ->]]; [tauto|right; left..].
              ** exists s2, p1, p2. tauto.
              ** exists s1, p1, p2. tauto.
      * rewrite cb_add_same_node_iff, Hi, IH by done.
        assert (Hl : ∀ x y, cb_linked conn deref (events ++ [CbAdd s1 p1 s2 p2]) x y ↔
                            cb_linked conn deref events x y).
        { intros x y. rewrite cb_linked_snoc. split; [|tauto].
          intros [?|(q1 & q2 & [= -> -> -> ->] & Hi')]; [done|congruence]. }
        assert (Hs : cb_seen conn deref (events ++ [CbAdd s1 p1 s2 p2]) u ↔
                     cb_seen conn deref events u).
        { rewrite cb_seen_snoc. split; [|tauto].
          intros [?|[(t & q1 & q2 & [[[= -> -> -> ->] Hi']|[[= -> -> -> ->] Hi']])|(q & [=])]];
            [done|congruence..]. }
        rewrite Hs. split.
        -- intros [[Hu Huw]|[[=] _]]. split; [done|].
           eapply rtc_subrel; [|exact Huw]. intros x y [?|?]; [left|right]; by apply Hl.
        -- intros [Hu Huw]. left. split; [done|].
           eapply rtc_subrel; [|exact Huw]. intros x y [?|?]; [left|right]; by apply Hl.
    + revert u w.
      apply (components_step (cb_same_node r) _ (cb_linked conn deref events) _
               (cb_seen conn deref events) _ s s).
      * done.
      * intros x y. rewrite cb_finish_same_node_iff by done. split.
        -- intros [?|[-> ->]]; tauto.
        -- intros [?|[Hx Hy]]; [tauto|].
           destruct (decide (x = s)) as [->|Hxs], (decide (y = s)) as [->|Hys].
           ++ tauto.
           ++ left. destruct Hy as [?|[?|[Hy|Hy]]]; try done; by apply cb_same_node_sym.
           ++ left. destruct Hx as [?|[?|[Hx|Hx]]]; done.
           ++ left. destruct Hx as [?|[?|[Hx|Hx]]]; try done;
                destruct Hy as [?|[?|[Hy|Hy]]]; try done;
                (eapply cb_same_node_trans; [exact Hx|by apply cb_same_node_sym]).
      * intros x y. apply cb_same_node_sym.
      * intros x z y. apply cb_same_node_trans.
      * intros x y Hl. apply cb_linked_snoc. by left.
      * intros x y [Hl|(q1 & q2 & [=] & _)]%cb_linked_snoc. tauto.
      * done.
      * apply cb_linked_seen.
      * intros x. rewrite cb_seen_snoc. split.
        -- intros [?|[(t & q1 & q2 & [[[=] _]|[[=] _]])|(q & [= -> _])]]; tauto.
        -- intros [?|[->| ->]]; [tauto|right; right; eauto..].
Qed.

(** X20. After the scanner has reported any pairs of distinct shapes and
    finished any shapes, two shapes are in one candidate of the receiver
    exactly if the first one was placed and the two are linked by a chain
    of reported pairs that interact, taken in either direction: the
    candidates are the connected components of the interacting pairs. *)
Theorem candidates_are_components events s t :
  Forall cb_event_ok events →
  same_candidate (cb_run conn deref cb_receiver_new events) s t ↔
  cb_seen conn deref events s ∧ rtsc (cb_linked conn deref events) s t.
Proof.
  intros Hok. rewrite same_candidate_same_node by (by apply cb_run_inv; [apply cb_inv_new|]).
  by apply cb_run_components.
Qed.

(** X21. The candidates partition the shapes placed: a shape is in some
    candidate exactly if it was part of an interacting pair or was
    finished, no shape is in two candidates, and every candidate is not
    empty and holds each of its shapes once. *)
Theorem candidates_partition events :
  Forall cb_event_ok events →
  let candidates := cb_clusters (cb_run conn deref cb_receiver_new events) in
  (∀ s, cb_seen conn deref events s ↔ ∃ h v, (h, v) ∈ candidates ∧ s ∈ v.*1)
  ∧ (∀ h1 v1 h2 v2 s, (h1, v1) ∈ candidates → (h2, v2) ∈ candidates →
       s ∈ v1.*1 → s ∈ v2.*1 → h1 = h2 ∧ v1 = v2)
  ∧ (∀ h v, (h, v) ∈ candidates → v ≠ [] ∧ NoDup v.*1).
Proof.
  intros Hok. simpl.
  set (r := cb_run conn deref cb_receiver_new events).
  assert (Hinv : cb_inv r) by (by apply cb_run_inv; [apply cb_inv_new|]).
  split_and!.
  - intros s. split.
    + intros Hs.
      assert (same_candidate r s s) as (h & v & Hv & Hin & _).
      { apply same_candidate_same_node; [done|]. by apply cb_run_components. }
      eauto.
    + intros (h & v & Hv & Hin).
      assert (same_candidate r s s) as Hsame by (by exists h, v).
      apply same_candidate_same_node in Hsame; [|done].
      by apply cb_run_components in Hsame as [? _].
  - intros h1 v1 h2 v2 s Hv1 Hv2 Hs1 Hs2.
    apply (elem_nodes_lookup _ _ _ (cb_inv_nodup r Hinv)) in Hv1, Hv2.
    destruct (decide (h1 = h2)) as [->|Hne]; [split; congruence|].
    by destruct (cb_inv_disjoint r Hinv _ _ _ _ _ Hne Hv1 Hv2 Hs1).
  - intros h v Hv.
    apply (elem_nodes_lookup _ _ _ (cb_inv_nodup r Hinv)) in Hv.
    split; [by eapply (cb_inv_nonempty r Hinv)|by eapply (cb_inv_once r Hinv)].
Qed.

(** Filling a cluster with the shapes of a candidate. *)
Lemma fill_cluster cl v :
  let c := foldl (λ cl (s : shape_value), add_attr (add cl (deref s.1) s.2.1) s.2.2) cl v in
  m_id c = m_id cl
  ∧ m_size c = m_size cl + N.of_nat (length v)
  ∧ (∀ l, shapes_on c l = shapes_on cl l ++ (deref <$> (filter (λ sv : shape_value, sv.2.1 = l) v).*1))
  ∧ (∀ a, a ∈ m_attrs c ↔ a ∈ m_attrs cl ∨ (0 < a ∧ ∃ s l, (s, (l, a)) ∈ v)).
Proof.
  revert cl. induction v as [|[s [la a]] v IH]; intros cl.
  - simpl. split_and!; [done|lia| |].
    + intros l. by rewrite app_nil_r.
    + intros a. split; [tauto|]. intros [?|(_ & s & l & Hin)]; [done|].
      by apply elem_of_nil in Hin.
  - cbn [foldl fst snd].
    set (cl1 := add_attr (add cl (deref s) la) a).
    destruct (IH cl1) as (Hid & Hsize & Hshapes & Hattrs).
    assert (Hid1 : m_id cl1 = m_id cl).
    { unfold cl1, add_attr. by destruct (0 <? a). }
    assert (Hsize1 : m_size cl1 = m_size cl + 1).
    { unfold cl1, add_attr. by destruct (0 <? a). }
    assert (Hshapes1 : ∀ l, shapes_on cl1 l =
              if decide (l = la) then shapes_on cl la ++ [deref s] else shapes_on cl l).
    { intros l. unfold cl1, add_attr, shapes_on.
      destruct (0 <? a); simpl; apply tree_of_add. }
    assert (Hattrs1 : ∀ b, b ∈ m_attrs cl1 ↔ b ∈ m_attrs cl ∨ (0 < a ∧ b = a)).
    { intros b. unfold cl1, add_attr. destruct (N.ltb_spec 0 a); simpl.
      - rewrite elem_of_union, elem_of_singleton. tauto.
      - split; [tauto|]. intros [?|[? _]]; [done|lia]. }
    simpl. split_and!.
    + congruence.
    + rewrite Hsize, Hsize1. cbn [length]. lia.
    + intros l. rewrite Hshapes, Hshapes1, filter_cons. simpl.
      destruct (decide (la = l)) as [->|Hne].
      * rewrite decide_True by done. simpl. by rewrite <- app_assoc.
      * by rewrite decide_False by congruence.
    + intros b. rewrite Hattrs, Hattrs1. split.
      * intros [[?|[Hpos ->]]|(Hpos & s' & l' & Hin)]; [tauto| |].
        -- right. split; [done|]. exists s, la. by left.
        -- right. split; [done|]. exists s', l'. by right.
      * intros [?|(Hpos & s' & l' & [[= -> -> ->]|Hin]%elem_of_cons)]; [tauto|tauto|].
        right. split; [done|]. eauto.
Qed.

Lemma generate_cluster_clusters lc v :
  m_clusters (generate_cluster deref lc v) =
    m_clusters lc ++
      [foldl (λ cl (s : shape_value), add_attr (add cl (deref s.1) s.2.1) s.2.2)
             (set_id (local_cluster_new 0) (clusters_size lc + 1)) v].
Proof.
  unfold generate_cluster, insert, clusters_size. simpl.
  rewrite <- (Nat.add_0_r (length (m_clusters lc))) at 1.
  by rewrite alter_app_r.
Qed.

Lemma generate_clusters_clusters (cs : list (nat * list shape_value)) lc :
  m_clusters (foldl (λ lc (c : nat * list shape_value), generate_cluster deref lc c.2) lc cs) =
    m_clusters lc ++
      imap (λ k (c : nat * list shape_value),
              foldl (λ cl (s : shape_value), add_attr (add cl (deref s.1) s.2.1) s.2.2)
                    (set_id (local_cluster_new 0) (clusters_size lc + N.of_nat k + 1)) c.2) cs.
Proof.
  revert lc. induction cs as [|c cs IH]; intros lc.
  - simpl. by rewrite app_nil_r.
  - cbn [foldl]. rewrite IH, generate_cluster_clusters, <- app_assoc. f_equal.
    cbn [imap app]. rewrite N.add_0_r. f_equal.
    apply imap_ext. intros k c' _. simpl. do 2 f_equal.
    unfold clusters_size. rewrite generate_cluster_clusters, length_app. simpl. lia.
Qed.

(** X22. [generate_clusters] appends one cluster per candidate, in the
    order of the list: the clusters that were there keep their ids, and
    the cluster of the candidate at position [k] gets the next free id,
    holds on every layer the shapes of the candidate reported for that
    layer, in their order, has the number of shapes as its size, and has
    the attributes of the candidate that are not 0. *)
Theorem generate_clusters_spec r lc :
  let lc' := generate_clusters deref r lc in
  clusters_size lc' = clusters_size lc + N.of_nat (length (cb_clusters r))
  ∧ (∀ i, 0 < i → i ≤ clusters_size lc → cluster_by_id lc' i = cluster_by_id lc i)
  ∧ (∀ k h v, cb_clusters r !! k = Some (h, v) →
       ∃ c, cluster_by_id lc' (clusters_size lc + N.of_nat k + 1) = Some c
          ∧ m_id c = clusters_size lc + N.of_nat k + 1
          ∧ m_size c = N.of_nat (length v)
          ∧ (∀ l, shapes_on c l = deref <$> (filter (λ sv : shape_value, sv.2.1 = l) v).*1)
          ∧ (∀ a, a ∈ m_attrs c ↔ 0 < a ∧ ∃ s l, (s, (l, a)) ∈ v)).
Proof.
  simpl.
  pose proof (generate_clusters_clusters (cb_clusters r) lc) as Hcl.
  fold (generate_clusters deref r lc) in Hcl.
  assert (Hsize : clusters_size (generate_clusters deref r lc) =
                  clusters_size lc + N.of_nat (length (cb_clusters r))).
  { unfold clusters_size. rewrite Hcl, length_app, length_imap. lia. }
  split_and!; [done| |].
  - intros i Hpos Hle. unfold cluster_by_id. rewrite Hsize.
    rewrite (proj2 (N.ltb_lt 0 _) Hpos), !(proj2 (N.ltb_ge _ _)) by lia.
    rewrite Hcl. apply lookup_app_l. unfold slot, clusters_size in *. lia.
  - intros k h v Hk.
    pose proof (lookup_lt_Some _ _ _ Hk) as Hlt.
    eexists. split; [|].
    + unfold cluster_by_id. rewrite Hsize.
      rewrite (proj2 (N.ltb_lt 0 _)), (proj2 (N.ltb_ge _ _)) by lia.
      rewrite Hcl, lookup_app_r by (unfold slot, clusters_size; lia).
      replace (slot (clusters_size lc + N.of_nat k + 1) - length (m_clusters lc))%nat
        with k by (unfold slot, clusters_size; lia).
      rewrite list_lookup_imap, Hk. simpl. reflexivity.
    + destruct (fill_cluster (set_id (local_cluster_new 0) (clusters_size lc + N.of_nat k + 1)) v)
        as (Hid & Hsz & Hshapes & Hattrs).
      split_and!.
      * by rewrite Hid.
      * rewrite Hsz. simpl. lia.
      * intros l. by rewrite Hshapes.
      * intros a. rewrite Hattrs. simpl. split; [|tauto].
        intros [Hin|?]; [by apply elem_of_empty in Hin|done].
Qed.

End ClusterBuildingProps.

Lemma map_insert_new_Some `{Countable K} {V} (k : K) (v v' : V) (m : gmap K V) :
  m !! k = Some v' → map_insert_new k v m = m.
Proof. unfold map_insert_new. by intros ->. Qed.

Section IncomingProps.
Context {G : Geometry}.
Variable hc : hier_clusters.
Variable cell_of : N → N.
Variable parent_cells : N → list N.
Variable rank : N → nat.
Hypothesis rank_parent : ∀ ci pc, pc ∈ parent_cells ci → (rank pc < rank ci)%nat.
Implicit Types (m : incoming_map) (st : incoming_cluster_connections)
  (e : IncomingClusterInstance) (R E : gset N).

Lemma incoming_at_push m c id e0 c' id' e :
  e ∈ incoming_at (push_incoming m c id e0) c' id' ↔
  e ∈ incoming_at m c' id' ∨ (c' = c ∧ id' = id ∧ e = e0).
Proof.
  unfold incoming_at, push_incoming, incoming_map in *.
  destruct (decide (c' = c)) as [->|Hc].
  - rewrite lookup_insert_eq. simpl.
    destruct (decide (id' = id)) as [->|Hid].
    + rewrite lookup_insert_eq. simpl. rewrite elem_of_app, list_elem_of_singleton. tauto.
    + rewrite lookup_insert_ne by done. tauto.
  - rewrite lookup_insert_ne by done. tauto.
Qed.

Lemma push_incoming_nonempty m c id e0 :
  (∀ ci i id', m !! ci = Some i → i !! id' ≠ Some []) →
  ∀ ci i id', push_incoming m c id e0 !! ci = Some i → i !! id' ≠ Some [].
Proof.
  unfold push_incoming, incoming_map in *. intros Hne ci i id'.
  destruct (decide (ci = c)) as [->|Hc].
  - rewrite lookup_insert_eq. intros [= <-].
    destruct (decide (id' = id)) as [->|Hid].
    + rewrite lookup_insert_eq. intros [= Heq]. by destruct (default [] _).
    + rewrite lookup_insert_ne by done.
      destruct (m !! c) as [i|] eqn:Hm; simpl; [by eapply Hne|by rewrite lookup_empty].
  - rewrite lookup_insert_ne by done. apply Hne.
Qed.

Lemma push_incoming_keys m c id e0 ci :
  is_Some (m !! ci) → is_Some (push_incoming m c id e0 !! ci).
Proof.
  unfold push_incoming, incoming_map in *. intros Hs.
  destruct (decide (ci = c)) as [->|Hc]; [by rewrite lookup_insert_eq|].
  by rewrite lookup_insert_ne.
Qed.

(** What a fold of [push_incoming] over a list of entries adds. *)
Lemma fold_push_incoming {A} (f : A → N * N * IncomingClusterInstance) (l : list A) m :
  let m' := foldl (λ m a, push_incoming m (f a).1.1 (f a).1.2 (f a).2) m l in
  (∀ c id e, e ∈ incoming_at m' c id ↔
             e ∈ incoming_at m c id ∨ ∃ a, a ∈ l ∧ f a = (c, id, e))
  ∧ ((∀ ci i id, m !! ci = Some i → i !! id ≠ Some []) →
     ∀ ci i id, m' !! ci = Some i → i !! id ≠ Some [])
  ∧ (∀ ci, is_Some (m !! ci) → is_Some (m' !! ci)).
Proof.
  revert m. induction l as [|a l IH]; intros m; simpl.
  - split_and!; [|done..]. intros c id e. split; [tauto|].
    intros [?|(a & Hin & _)]; [done|]. by apply elem_of_nil in Hin.
  - destruct (IH (push_incoming m (f a).1.1 (f a).1.2 (f a).2)) as (Hin & Hne & Hkeys).
    split_and!.
    + intros c id e. rewrite Hin, incoming_at_push. split.
      * intros [[?|(-> & -> & ->)]|(a' & Ha' & Hf)]; [tauto| |].
        -- right. exists a. split; [by left|]. by destruct (f a) as [[? ?] ?].
        -- right. exists a'. split; [by right|done].
      * intros [?|(a' & [->|Ha']%elem_of_cons & Hf)]; [tauto| |].
        -- left. right. by rewrite Hf.
        -- right. eauto.
    + intros Hm. apply Hne. by apply push_incoming_nonempty.
    + intros ci Hs. by apply Hkeys, push_incoming_keys.
Qed.

Lemma foldl_nested {A B C} (g : A → B → C → A) (h : B → list C) (a : A) (ks : list B) :
  foldl (λ a x, foldl (λ a y, g a x y) a (h x)) a ks =
  foldl (λ a (xy : B * C), g a xy.1 xy.2) a (ks ≫= λ x, (λ y, (x, y)) <$> h x).
Proof.
  revert a. induction ks as [|x ks IH]; intros a; [done|].
  cbn [foldl]. rewrite bind_cons, foldl_app, <- IH. f_equal.
  generalize (h x). intros l. revert a. induction l as [|y l IHl]; intros a; [done|].
  simpl. apply IHl.
Qed.

(** Recording the connections of a cell adds them to what the index
    holds. *)
Lemma record_connections_records R m pc :
  records hc cell_of R m →
  records hc cell_of (R ∪ {[pc]}) (record_connections hc cell_of m pc)
  ∧ ∀ ci, is_Some (m !! ci) → is_Some (record_connections hc cell_of m pc !! ci).
Proof.
  intros [Hin Hne]. unfold record_connections.
  rewrite (foldl_nested
    (λ m x (xx : ClusterInstance), push_incoming m (cell_of xx.2) xx.1 (pc, x, xx.2))).
  set (flat := map_keys (m_connections (clusters_per_cell hc pc)) ≫=
               λ x, (λ y, (x, y)) <$> connections_for_cluster (clusters_per_cell hc pc) x).
  destruct (fold_push_incoming
    (λ a : N * ClusterInstance, (cell_of a.2.2, a.2.1, (pc, a.1, a.2.2))) flat m)
    as (Hin' & Hne' & Hkeys).
  split; [split|].
  - intros ci id e. simpl in Hin'. rewrite Hin', Hin, elem_of_union, elem_of_singleton.
    unfold is_incoming. split.
    + intros [[? ?]|([x [id' inst]] & Ha & [= <- <- <-])]; [tauto|]. simpl in *.
      apply list_elem_of_bind in Ha as (x' & Ha & _).
      apply list_elem_of_fmap in Ha as (y & [= <- <-] & Hy). tauto.
    + intros [[?| <-] [Hc Hcell]]; [tauto|]. right.
      destruct e as [[pc x] inst]. simpl in *.
      exists (x, (id, inst)). split; [|simpl; by rewrite Hcell].
      apply list_elem_of_bind. exists x. split.
      * apply list_elem_of_fmap. by exists (id, inst).
      * apply elem_of_map_keys. unfold connections_for_cluster in Hc.
        destruct (m_connections (clusters_per_cell hc pc) !! x); [done|].
        by apply elem_of_nil in Hc.
  - by apply Hne'.
  - apply Hkeys.
Qed.

Lemma records_insert_new R m ci :
  records hc cell_of R m → records hc cell_of R (map_insert_new ci ∅ m).
Proof.
  intros [Hin Hne]. unfold incoming_map in *.
  destruct (m !! ci) as [i|] eqn:Hm; [by rewrite (map_insert_new_Some _ _ i)|].
  rewrite map_insert_new_None by done. split.
  - intros c id e. rewrite <- Hin. unfold incoming_at, incoming_map.
    destruct (decide (c = ci)) as [->|Hc].
    + by rewrite lookup_insert_eq, Hm.
    + by rewrite lookup_insert_ne.
  - unfold incoming_map. intros c i id. destruct (decide (c = ci)) as [->|Hc].
    + rewrite lookup_insert_eq. intros [= <-]. by rewrite lookup_empty.
    + rewrite lookup_insert_ne by done. apply Hne.
Qed.

Lemma map_insert_new_keys m ci c (i0 : gmap N (list IncomingClusterInstance)) :
  (is_Some (m !! c) → is_Some (map_insert_new ci i0 m !! c))
  ∧ is_Some (map_insert_new ci i0 m !! ci).
Proof.
  unfold incoming_map in *.
  destruct (m !! ci) as [i|] eqn:Hm.
  - rewrite (map_insert_new_Some _ _ i) by done. split; [done|]. by rewrite Hm.
  - rewrite map_insert_new_None by done.
    split; [|by rewrite lookup_insert_eq]. intros Hs.
    destruct (decide (c = ci)) as [->|Hc]; [by rewrite lookup_insert_eq|].
    by rewrite lookup_insert_ne.
Qed.

Lemma ensure_computed_spec called0 fuel : ∀ st ci R E,
  (rank ci < fuel)%nat → icc_inv hc cell_of called0 R E st →
  ∃ st' R', ensure_computed hc cell_of parent_cells fuel st ci = Some st'
          ∧ R ⊆ R'
          ∧ icc_inv hc cell_of called0 R' (E ∪ {[ci]}) st'
          ∧ (∀ c, is_Some (m_incoming st !! c) → is_Some (m_incoming st' !! c))
          ∧ is_Some (m_incoming st' !! ci)
          ∧ (∀ pc, pc ∈ parent_cells ci → pc ∈ called0 → pc ∉ E → pc ∈ R').
Proof.
  induction fuel as [|fuel IH]; intros st ci R E Hrank Hinv; [lia|].
  cbn [ensure_computed].
  set (F := λ (acc : option incoming_cluster_connections) pc,
         st ← acc;
         if decide (pc ∈ m_called_cells st)
         then st' ← ensure_computed hc cell_of parent_cells fuel st pc;
              Some {| m_called_cells := m_called_cells st';
                      m_incoming := record_connections hc cell_of (m_incoming st') pc |}
         else Some st).
  assert (Hloop : ∀ ps st0 R0,
    (∀ pc, pc ∈ ps → (rank pc < fuel)%nat) → icc_inv hc cell_of called0 R0 E st0 →
    ∃ st1 R1, foldl F (Some st0) ps = Some st1
            ∧ R0 ⊆ R1 ∧ icc_inv hc cell_of called0 R1 E st1
            ∧ (∀ c, is_Some (m_incoming st0 !! c) → is_Some (m_incoming st1 !! c))
            ∧ (∀ pc, pc ∈ ps → pc ∈ called0 → pc ∉ E → pc ∈ R1)).
  { induction ps as [|pc ps IHps]; intros st0 R0 Hps Hinv0.
    - exists st0, R0. split_and!; [done..|]. by intros pc ?%elem_of_nil.
    - cbn [foldl]. unfold F at 2. simpl.
      destruct Hinv0 as (Hcalled & Hrec & Hsub).
      case_decide as Hpc.
      + destruct (IH st0 pc R0 E) as (st' & R' & -> & HRR' & (Hc' & Hrec' & Hsub') & Hk' & _ & _).
        { apply Hps. by left. }
        { done. }
        simpl.
        destruct (record_connections_records R' (m_incoming st') pc Hrec') as [Hrec2 Hk2].
        destruct (IHps {| m_called_cells := m_called_cells st';
                          m_incoming := record_connections hc cell_of (m_incoming st') pc |}
                       (R' ∪ {[pc]}))
          as (st1 & R1 & -> & HR1 & Hinv1 & Hk1 & Hps1).
        { intros pc' Hin. apply Hps. by right. }
        { split_and!; simpl; [|done|].
          - rewrite Hc'. set_solver.
          - rewrite Hcalled in Hpc. set_solver. }
        exists st1, R1. split_and!; [done|set_solver|done| |].
        * intros c Hs. apply Hk1. simpl. by apply Hk2, Hk'.
        * intros pc' [->|Hin]%elem_of_cons ? ?; [set_solver|by apply Hps1].
      + destruct (IHps st0 R0) as (st1 & R1 & -> & HR1 & Hinv1 & Hk1 & Hps1).
        { intros pc' Hin. apply Hps. by right. }
        { done. }
        exists st1, R1. split_and!; [done..|].
        intros pc' [->|Hin]%elem_of_cons Hc0 HE; [|by apply Hps1].
        rewrite Hcalled in Hpc. set_solver. }
  destruct Hinv as (Hcalled & Hrec & Hsub).
  destruct (Hloop (parent_cells ci)
              {| m_called_cells := m_called_cells st;
                 m_incoming := map_insert_new ci ∅ (m_incoming st) |} R)
    as (st1 & R1 & -> & HR1 & (Hc1 & Hrec1 & Hsub1) & Hk1 & Hps1).
  { intros pc Hpc. apply rank_parent in Hpc. lia. }
  { split_and!; simpl; [done| |done]. by apply records_insert_new. }
  simpl. exists {| m_called_cells := m_called_cells st1 ∖ {[ci]};
                   m_incoming := m_incoming st1 |}, R1.
  split; [done|]. split; [done|]. split; [|split; [|split]]; simpl.
  - split; [|by split]. simpl. rewrite Hc1. set_solver.
  - intros c Hs. apply Hk1. simpl. by apply map_insert_new_keys.
  - apply Hk1. simpl. apply (map_insert_new_keys _ _ ci).
  - done.
Qed.

Lemma ensure_computed_fuel_mono fuel : ∀ fuel' st ci st',
  ensure_computed hc cell_of parent_cells fuel st ci = Some st' → (fuel ≤ fuel')%nat →
  ensure_computed hc cell_of parent_cells fuel' st ci = Some st'.
Proof.
  induction fuel as [|fuel IH]; intros fuel' st ci st' Hres Hle; [done|].
  destruct fuel' as [|fuel']; [lia|].
  cbn [ensure_computed] in Hres |- *.
  set (F := λ fuel (acc : option incoming_cluster_connections) pc,
         st ← acc;
         if decide (pc ∈ m_called_cells st)
         then st' ← ensure_computed hc cell_of parent_cells fuel st pc;
              Some {| m_called_cells := m_called_cells st';
                      m_incoming := record_connections hc cell_of (m_incoming st') pc |}
         else Some st).
  assert (Hloop : ∀ ps acc st1,
    foldl (F fuel) acc ps = Some st1 → foldl (F fuel') acc ps = Some st1).
  { induction ps as [|pc ps IHps]; intros acc st1; [done|].
    cbn [foldl]. intros Hf. apply IHps.
    destruct acc as [st2|]; [|done].
    unfold F in Hf |- * at 2. simpl in *.
    destruct (decide (pc ∈ m_called_cells st2)); [|done].
    destruct (ensure_computed hc cell_of parent_cells fuel st2 pc) as [st3|] eqn:Hst3.
    - by rewrite (IH fuel' _ _ _ Hst3) by lia.
    - simpl in Hf. exfalso.
      assert (Hnone : ∀ ps, foldl (F fuel) None ps = None).
      { clear. induction ps as [|? ? IHn]; [done|]. simpl. apply IHn. }
      by rewrite Hnone in Hf. }
  match type of Hres with
  | context [foldl ?f ?a ?l] => destruct (foldl f a l) as [st1|] eqn:Hst1; [|done]
  end.
  apply Hloop in Hst1. unfold F in Hst1. by rewrite Hst1.
Qed.

(** A computation that returns keeps the state of the index. *)
Lemma ensure_computed_inv called0 fuel st ci st' R E :
  ensure_computed hc cell_of parent_cells fuel st ci = Some st' →
  icc_inv hc cell_of called0 R E st →
  ∃ R', icc_inv hc cell_of called0 R' (E ∪ {[ci]}) st'.
Proof.
  intros Hres Hinv.
  destruct (ensure_computed_spec called0 (fuel `max` S (rank ci)) st ci R E)
    as (st'' & R' & Hres' & _ & Hinv' & _); [lia|done|].
  rewrite (ensure_computed_fuel_mono fuel _ _ _ st' Hres) in Hres' by lia.
  injection Hres' as <-. eauto.
Qed.

Lemma incoming_entry_inv called0 fuel st ci i st' R E :
  incoming_entry hc cell_of parent_cells fuel st ci = Some (i, st') →
  icc_inv hc cell_of called0 R E st →
  m_incoming st' !! ci = Some i
  ∧ ∃ R' E', icc_inv hc cell_of called0 R' E' st'.
Proof.
  unfold incoming_entry. intros Hres Hinv.
  destruct (m_incoming st !! ci) as [i0|] eqn:Hi; simpl in Hres.
  - rewrite Hi in Hres. injection Hres as <- <-. eauto.
  - destruct (ensure_computed hc cell_of parent_cells fuel st ci) as [st1|] eqn:Hst1;
      [|done].
    simpl in Hres. destruct (m_incoming st1 !! ci) as [i1|] eqn:Hi1; [|done].
    injection Hres as <- <-. split; [done|].
    destruct (ensure_computed_inv called0 _ _ _ _ R E Hst1 Hinv) as [R' HR']. eauto.
Qed.

Lemma icc_inv_new (called0 : gset N) :
  icc_inv hc cell_of called0 ∅ ∅ {| m_called_cells := called0; m_incoming := ∅ |}.
Proof.
  split; [|split]; simpl.
  - set_solver.
  - split.
    + intros ci id e. unfold incoming_at, incoming_map. rewrite lookup_empty. simpl.
      rewrite lookup_empty. simpl. set_solver.
    + unfold incoming_map. intros ci i id. by rewrite lookup_empty.
  - set_solver.
Qed.

Lemma icc_reachable_inv (called0 : gset N) st :
  icc_reachable hc cell_of parent_cells
    {| m_called_cells := called0; m_incoming := ∅ |} st →
  ∃ R E, icc_inv hc cell_of called0 R E st.
Proof.
  induction 1 as [|st fuel ci id b st' _ (R & E & IH) Hq|st fuel ci id l st' _ (R & E & IH) Hq].
  - exists ∅, ∅. apply icc_inv_new.
  - unfold has_incoming in Hq.
    destruct (incoming_entry hc cell_of parent_cells fuel st ci) as [[i st1]|] eqn:He;
      [|done].
    simpl in Hq. injection Hq as _ <-.
    by destruct (incoming_entry_inv called0 _ _ _ _ _ R E He IH) as [_ ?].
  - unfold incoming in Hq.
    destruct (incoming_entry hc cell_of parent_cells fuel st ci) as [[i st1]|] eqn:He;
      [|done].
    simpl in Hq. injection Hq as _ <-.
    by destruct (incoming_entry_inv called0 _ _ _ _ _ R E He IH) as [_ ?].
Qed.

(** The two queries on a state of the index. *)
Lemma query_spec called0 fuel st ci id R E :
  (rank ci < fuel)%nat → icc_inv hc cell_of called0 R E st →
  ∃ l st' R',
    incoming hc cell_of parent_cells fuel st ci id = Some (l, st')
    ∧ has_incoming hc cell_of parent_cells fuel st ci id = Some (bool_decide (l ≠ []), st')
    ∧ R ⊆ R' ∧ R' ⊆ called0
    ∧ (∀ e, e ∈ l ↔ e.1.1 ∈ R' ∧ is_incoming hc cell_of ci id e)
    ∧ (is_Some (m_incoming st !! ci) → st' = st)
    ∧ (m_incoming st !! ci = None →
       ∀ pc, pc ∈ parent_cells ci → pc ∈ called0 → pc ∉ E → pc ∈ R')
    ∧ (∀ fuel', incoming hc cell_of parent_cells fuel' st' ci id = Some (l, st')).
Proof.
  intros Hrank Hinv.
  assert (∃ i st' R' E',
    incoming_entry hc cell_of parent_cells fuel st ci = Some (i, st')
    ∧ m_incoming st' !! ci = Some i
    ∧ icc_inv hc cell_of called0 R' E' st' ∧ R ⊆ R'
    ∧ (is_Some (m_incoming st !! ci) → st' = st)
    ∧ (m_incoming st !! ci = None →
       ∀ pc, pc ∈ parent_cells ci → pc ∈ called0 → pc ∉ E → pc ∈ R'))
    as (i & st' & R' & E' & He & Hi & (Hc' & [Hrec' Hne'] & Hsub') & HRR' & Hmemo & Hpar).
  { unfold incoming_entry.
    destruct (m_incoming st !! ci) as [i0|] eqn:Hi; simpl.
    - exists i0, st, R, E. rewrite Hi. simpl. split_and!; try done.
    - destruct (ensure_computed_spec called0 fuel st ci R E Hrank Hinv)
        as (st' & R' & -> & HRR' & Hinv' & _ & [i Hi'] & Hpar).
      simpl. rewrite Hi'. simpl. exists i, st', R', (E ∪ {[ci]}).
      split_and!; try done. }
  assert (Hl : default [] (i !! id) = incoming_at (m_incoming st') ci id).
  { unfold incoming_at. by rewrite Hi. }
  exists (default [] (i !! id)), st', R'.
  split; [|split; [|split; [|split; [|split; [|split; [|split]]]]]]; try done.
  - unfold incoming. by rewrite He.
  - unfold has_incoming. rewrite He. simpl. do 2 f_equal.
    apply bool_decide_ext. split.
    + intros [l Hil]. rewrite Hil. simpl. intros ->. by apply (Hne' ci i id).
    + destruct (i !! id); [by eexists|done].
  - intros e. rewrite Hl. apply Hrec'.
  - intros fuel'. unfold incoming, incoming_entry. rewrite Hi. simpl. by rewrite Hi.
Qed.

(** X23. The first query on a new index, with the parent cells forming a
    hierarchy without cycles and every connection of a cell leading into a
    cell it is a parent of: [incoming (ci, id)] returns, and the list holds
    exactly the connections into the cluster [id] of [ci] from the top
    cell and the cells the top cell calls; [has_incoming] says whether the
    list is not empty. *)
Theorem incoming_first_query (ly : Layout) (cell ci id : N) (fuel : nat) :
  (∀ pc x cli, cli ∈ connections_for_cluster (clusters_per_cell hc pc) x →
               pc ∈ parent_cells (cell_of cli.2)) →
  (rank ci < fuel)%nat →
  ∃ l st',
    incoming hc cell_of parent_cells fuel (incoming_cluster_connections_new ly cell) ci id
      = Some (l, st')
    ∧ has_incoming hc cell_of parent_cells fuel (incoming_cluster_connections_new ly cell) ci id
      = Some (bool_decide (l ≠ []), st')
    ∧ ∀ e, e ∈ l ↔
           (e.1.1 = cell ∨ e.1.1 ∈ collect_called_cells ly cell)
           ∧ is_incoming hc cell_of ci id e.
Proof.
  intros Hhier Hrank.
  set (called0 := collect_called_cells ly cell ∪ {[cell]}).
  destruct (query_spec called0 fuel _ ci id ∅ ∅ Hrank (icc_inv_new called0))
    as (l & st' & R' & Hinc & Hhas & _ & Hsub & Hl & _ & Hpar & _).
  exists l, st'. split; [done|]. split; [done|].
  intros e. rewrite Hl. split.
  - intros [He Hin]. split; [|done]. apply Hsub in He. set_solver.
  - intros [He [Hc Hcell]]. split; [|done].
    apply Hpar; [done| |set_solver|set_solver].
    rewrite <- Hcell. apply (Hhier _ _ _ Hc).
Qed.

(** X24. After any sequence of queries on a new index, the parent cells
    forming a hierarchy without cycles, a query returns, [has_incoming]
    says whether the list of [incoming] is not empty, and every triple of
    the list is a connection into the cluster asked for from the top cell
    or a cell it calls.  A cell that has an entry is not computed again,
    and asking again gives the same list and changes nothing. *)
Theorem incoming_sound_memo (ly : Layout) (cell : N) st (ci id : N) (fuel : nat) :
  icc_reachable hc cell_of parent_cells (incoming_cluster_connections_new ly cell) st →
  (rank ci < fuel)%nat →
  ∃ l st',
    incoming hc cell_of parent_cells fuel st ci id = Some (l, st')
    ∧ has_incoming hc cell_of parent_cells fuel st ci id = Some (bool_decide (l ≠ []), st')
    ∧ (∀ e, e ∈ l →
            (e.1.1 = cell ∨ e.1.1 ∈ collect_called_cells ly cell)
            ∧ is_incoming hc cell_of ci id e)
    ∧ (is_Some (m_incoming st !! ci) → st' = st)
    ∧ (∀ fuel', incoming hc cell_of parent_cells fuel' st' ci id = Some (l, st')).
Proof.
  intros Hreach Hrank.
  set (called0 := collect_called_cells ly cell ∪ {[cell]}).
  destruct (icc_reachable_inv called0 st Hreach) as (R & E & Hinv).
  destruct (query_spec called0 fuel st ci id R E Hrank Hinv)
    as (l & st' & R' & Hinc & Hhas & _ & Hsub & Hl & Hmemo & _ & Hagain).
  exists l, st'. split_and!; try done.
  intros e [He Hin]%Hl. split; [|done]. apply Hsub in He. set_solver.
Qed.

End IncomingProps.

Section LocalInsertsProps.
Context {G : Geometry} {GL : GeometryLaws G}.
Variable area_ratio : ratio.
Implicit Types (c f : local_cluster) (local heap inserted : list local_cluster).

Lemma concat_reverse_perm {A} (L : list (list A)) : concat (reverse L) ≡ₚ concat L.
Proof.
  induction L as [|x L IH]; [done|].
  rewrite reverse_cons, concat_app. simpl. rewrite app_nil_r, IH.
  apply Permutation_app_comm.
Qed.

(** The entries the scanner gets for one cluster. *)
Lemma local_insert_step_spec inserted heap c :
  ∃ g out,
    local_insert_step area_ratio (Some (inserted, heap)) c
      = Some (inserted ++ g, heap ++ out)
    ∧ (g = [c] ∧ out = [] ∨ g = reverse out ∧ out ≠ [])
    ∧ (∀ f, f ∈ g → m_id f = m_id c)
    ∧ (∀ l, concat ((λ f, shapes_on f l) <$> g) ≡ₚ shapes_on c l).
Proof.
  destruct (split_cluster_spec (S (shape_count (m_shapes c))) c area_ratio)
    as (n & out & Hres & Hn & Hall & Hperm); [lia|].
  unfold local_insert_step. cbn [mbind option_bind]. unfold split. rewrite Hres.
  cbn [mbind option_bind]. destruct (N.eqb_spec n 0) as [Hz|Hnz].
  - assert (out = []) as -> by (destruct out; [done|simpl in Hn; lia]).
    exists [c], []. split_and!.
    + done.
    + by left.
    + by intros f ->%list_elem_of_singleton.
    + intros l. simpl. by rewrite app_nil_r.
  - exists (reverse out), out.
    assert (Htake : take (N.to_nat n) (reverse (heap ++ out)) = reverse out).
    { rewrite reverse_app. apply take_app_length'. rewrite length_reverse. lia. }
    rewrite Htake. split_and!.
    + done.
    + right. split; [done|]. intros ->. simpl in Hn. lia.
    + intros f Hf. rewrite elem_of_reverse in Hf. rewrite Forall_forall in Hall.
      by destruct (Hall f Hf).
    + intros l. rewrite <- (Hperm Hnz l). rewrite fmap_reverse. apply concat_reverse_perm.
Qed.

Lemma local_inserts_from inserted heap local :
  ∃ groups outs,
    foldl (local_insert_step area_ratio) (Some (inserted, heap)) local
      = Some (inserted ++ concat groups, heap ++ concat outs)
    ∧ Forall2 (λ c g,
         (g = [c] ∨ g ≠ [] ∧ g ⊆ concat outs)
         ∧ (∀ f, f ∈ g → m_id f = m_id c)
         ∧ (∀ l, concat ((λ f, shapes_on f l) <$> g) ≡ₚ shapes_on c l)) local groups.
Proof.
  revert inserted heap. induction local as [|c local IH]; intros inserted heap.
  - exists [], []. simpl. by rewrite !app_nil_r.
  - cbn [foldl].
    destruct (local_insert_step_spec inserted heap c) as (g & out & -> & Hg & Hid & Hsh).
    destruct (IH (inserted ++ g) (heap ++ out)) as (groups & outs & -> & Hall).
    exists (g :: groups), (out :: outs). simpl. rewrite <- !app_assoc. split; [done|].
    constructor.
    + split_and!; [|done..].
      destruct Hg as [[-> ->]|[-> Hne]]; [by left|right].
      split; [by destruct out using rev_ind; [|rewrite reverse_snoc]|].
      intros f Hf. rewrite elem_of_reverse in Hf. set_solver.
    + eapply Forall2_impl; [exact Hall|]. intros c' g' ([->|[Hne Hsub]] & ? & ?).
      * split_and!; [by left|done..].
      * split_and!; [right|done..]. split; [done|]. set_solver.
Qed.

(** X25. The loop of [build_hier_connections] over the local clusters
    gives the scanner, for every cluster in turn, a group of entries:
    the cluster itself, or fragments taken from the heap.  Every entry of
    the group has the id of the cluster, and the shapes of the group are,
    on every layer, the shapes of the cluster up to their order: walking
    back [n] entries from the end of the heap picks the fragments of this
    cluster and no other's. *)
Theorem local_inserts_fragments local :
  ∃ groups heap,
    local_inserts area_ratio local = Some (concat groups, heap)
    ∧ Forall2 (λ c g,
         (g = [c] ∨ g ≠ [] ∧ ∀ f, f ∈ g → f ∈ heap)
         ∧ (∀ f, f ∈ g → m_id f = m_id c)
         ∧ (∀ l, concat ((λ f, shapes_on f l) <$> g) ≡ₚ shapes_on c l)) local groups.
Proof.
  destruct (local_inserts_from [] [] local) as (groups & outs & Hres & Hall).
  exists groups, (concat outs). split; [done|].
  eapply Forall2_impl; [exact Hall|]. intros c g ([->|[Hne Hsub]] & ? & ?).
  - split_and!; [by left|done..].
  - split_and!; [right|done..]. split; [done|]. intros f Hf. by apply Hsub.
Qed.

End LocalInsertsProps.

Lemma bind_ext_elem {A B} (f g : A → list B) (l : list A) :
  (∀ x, x ∈ l → f x = g x) → l ≫= f = l ≫= g.
Proof.
  induction l as [|x l IH]; intros Hfg; [done|].
  rewrite !bind_cons, Hfg, IH; [done| |].
  - intros y Hy. apply Hfg. by right.
  - by left.
Qed.

Section ShapeIteratorProps.
Context {G : Geometry}.
Variable hc : hier_clusters.
Variable cell_of : N → N.
Variable inst_trans : N → trans_type.
Variable trans_unit : trans_type.
Variable rank : N → nat.
(** A connection leads to a cell of lower rank: the hierarchy has no
    cycle. *)
Hypothesis rank_decreases : ∀ ci id cli,
  cli ∈ connections_for_cluster (clusters_per_cell hc ci) id →
  (rank (cell_of cli.2) < rank ci)%nat.

Implicit Types (ci id : N) (cli : ClusterInstance) (path : list ClusterInstance)
  (frames below : list (list ClusterInstance)) (it : rcs_iterator)
  (t : trans_type) (transs : list trans_type).


Lemma rcs_visit_unfold (d : nat) ci id t path :
  (rank ci ≤ d)%nat →
  rcs_visit hc cell_of inst_trans d ci id t path =
    (ci, id, t, path)
    :: (connections_for_cluster (clusters_per_cell hc ci) id
          ≫= λ cli, rcs_visit hc cell_of inst_trans (rank (cell_of cli.2)) (cell_of cli.2) cli.1
                          (trans_mul t (inst_trans cli.2)) (path ++ [cli])).
Proof.
  revert ci id t path. induction d as [d IH] using lt_wf_ind. intros ci id t path Hd.
  destruct d as [|d]; simpl.
  - f_equal. destruct (connections_for_cluster _ id) as [|cli l] eqn:Hc; [done|].
    assert (cli ∈ connections_for_cluster (clusters_per_cell hc ci) id) as Hin
      by (rewrite Hc; by left).
    apply rank_decreases in Hin. lia.
  - f_equal. apply bind_ext_elem. intros cli Hin.
    pose proof (rank_decreases _ _ _ Hin) as Hr.
    rewrite (IH d) by lia. rewrite (IH (rank (cell_of cli.2))) by lia. done.
Qed.

Lemma rcsi_pending_cons top below t transs :
  rcsi_pending hc cell_of inst_trans rank (top :: below) (t :: transs) =
    (top ≫= λ cli, rcs_visit hc cell_of inst_trans (rank (cell_of cli.2)) (cell_of cli.2) cli.1
                         (trans_mul t (inst_trans cli.2))
                         (reverse (omap head below) ++ [cli]))
    ++ rcsi_pending_below hc cell_of inst_trans rank below transs.
Proof. done. Qed.

Lemma rcsi_pending_below_cons g below t transs :
  rcsi_pending_below hc cell_of inst_trans rank (g :: below) (t :: transs) = rcsi_pending hc cell_of inst_trans rank (tail g :: below) (t :: transs).
Proof. done. Qed.

(** Leaving the exhausted frames keeps what is still to come, and takes
    frames away. *)
Lemma rcsi_leave_pending top transs cells below transs' cells' frames' :
  length cells = S (length below) → length transs = S (length below) →
  Forall (λ g, g ≠ []) below →
  rcsi_leave top transs cells below = (transs', cells', frames') →
  rcsi_pending hc cell_of inst_trans rank frames' transs' = rcsi_pending hc cell_of inst_trans rank (top :: below) transs
  ∧ length cells' = length frames'
  ∧ length transs' = length frames'
  ∧ Forall (λ g, g ≠ []) (tail frames')
  ∧ (∀ g, head frames' = Some g → g ≠ [])
  ∧ (length frames' ≤ S (length below))%nat
  ∧ (top = [] → length frames' ≤ length below)%nat.
Proof.
  revert top transs cells. induction below as [|g below IH]; intros top transs cells Hlc Hlt Hne.
  - simpl. destruct top as [|cli top]; intros [= <- <- <-].
    + destruct cells as [|c [|]]; simpl in *; try lia.
      destruct transs as [|t [|]]; simpl in *; try lia.
      split_and!; [done..|lia|lia].
    + simpl in *. split_and!; [done|lia|lia|done| |lia|done]. by intros g [= <-].
  - simpl. destruct top as [|cli top].
    + intros Hleave. apply Forall_cons in Hne as [_ Hne].
      destruct cells as [|c cells]; [simpl in Hlc; lia|].
      destruct transs as [|t transs]; [simpl in Hlt; lia|].
      apply IH in Hleave; [|simpl in *; lia..|done].
      destruct Hleave as (Hp & ? & ? & ? & ? & Hlen & _).
      split_and!; [|done..| |].
      * rewrite Hp. simpl in Hlt. destruct transs as [|t' transs]; [simpl in Hlt; lia|]. done.
      * simpl in *. lia.
      * intros _. simpl in *. lia.
    + intros [= <- <- <-]. simpl in *. split_and!; [done|lia|lia|done| |lia|done].
      by intros g' [= <-].
Qed.

Lemma rcsi_next_conn_spec it :
  rcsi_wf it → rcsi_conn_iter_stack it ≠ [] → rcsi_shape_iter it = [] →
  Forall (λ x, 0 < x.1.1.2) (rcsi_pending hc cell_of inst_trans rank (rcsi_conn_iter_stack it) (rcsi_trans_stack it)) →
  ∃ it', rcsi_next_conn hc cell_of inst_trans it = Some it'
    ∧ rcsi_wf it'
    ∧ rcsi_layer it' = rcsi_layer it
    ∧ rcsi_remaining hc cell_of inst_trans trans_unit rank it'
      = rcsi_remaining hc cell_of inst_trans trans_unit rank it
    ∧ Forall (λ x, 0 < x.1.1.2) (rcsi_pending hc cell_of inst_trans rank (rcsi_conn_iter_stack it') (rcsi_trans_stack it'))
    ∧ (2 * length (rcsi_pending hc cell_of inst_trans rank (rcsi_conn_iter_stack it') (rcsi_trans_stack it'))
         + length (rcsi_conn_iter_stack it')
       < 2 * length (rcsi_pending hc cell_of inst_trans rank (rcsi_conn_iter_stack it) (rcsi_trans_stack it))
         + length (rcsi_conn_iter_stack it))%nat.
Proof.
  destruct it as [layer id0 transs cells frames shapes].
  unfold rcsi_wf, rcsi_next_conn, rcsi_remaining.
  cbn [rcsi_conn_iter_stack rcsi_cell_index_stack rcsi_trans_stack rcsi_shape_iter
       rcsi_layer rcsi_id].
  intros (Hlc & Hlt & Hne) Hframes -> Hpos.
  destruct frames as [|top below]; [done|]. clear Hframes.
  destruct transs as [|t transs]; [simpl in Hlt; lia|].
  cbn [tail length] in Hlc, Hlt, Hne.
  destruct top as [|cli rest].
  - destruct (rcsi_leave [] (t :: transs) cells below) as [[transs' cells'] frames'] eqn:Hleave.
    destruct (rcsi_leave_pending [] (t :: transs) cells below _ _ _ Hlc Hlt Hne Hleave)
      as (Hp & Hlc' & Hlt' & Hne' & _ & _ & Hlen).
    eexists. split; [done|].
    cbn [rcsi_conn_iter_stack rcsi_cell_index_stack rcsi_trans_stack rcsi_shape_iter
         rcsi_layer rcsi_id].
    rewrite Hp. split_and!; [done..|]. specialize (Hlen eq_refl). simpl. lia.
  - rewrite rcsi_pending_cons, bind_cons in Hpos |- *.
    rewrite (rcs_visit_unfold _ _ _ _ _ (Nat.le_refl _)) in Hpos |- *.
    cbn [app] in Hpos |- *. rewrite <- app_assoc in Hpos |- *.
    apply Forall_cons in Hpos as [Hid Hpos]. simpl in Hid.
    unfold rcsi_down.
    cbn [rcsi_conn_iter_stack rcsi_cell_index_stack rcsi_trans_stack rcsi_shape_iter
         rcsi_layer rcsi_id].
    unfold rcsi_cell_index, rcsi_cluster_id.
    cbn [rcsi_conn_iter_stack rcsi_cell_index_stack rcsi_trans_stack rcsi_shape_iter
         rcsi_layer rcsi_id head default].
    destruct (cluster_by_id_total (base (clusters_per_cell hc (cell_of cli.2))) cli.1 Hid)
      as [cluster Hcl].
    cbn [id]. rewrite Hcl. cbn [mbind option_bind]. eexists. split; [done|].
    cbn [rcsi_conn_iter_stack rcsi_cell_index_stack rcsi_trans_stack rcsi_shape_iter
         rcsi_layer rcsi_id].
    assert (Hpath : reverse (omap head ((cli :: rest) :: below))
                    = reverse (omap head below) ++ [cli])
      by (simpl; apply reverse_cons).
    assert (Hpend :
      rcsi_pending hc cell_of inst_trans rank (connections_for_cluster (clusters_per_cell hc (cell_of cli.2)) cli.1
                 :: (cli :: rest) :: below)
              (trans_mul t (inst_trans cli.2) :: t :: transs)
      = (connections_for_cluster (clusters_per_cell hc (cell_of cli.2)) cli.1
           ≫= λ cli0, rcs_visit hc cell_of inst_trans (rank (cell_of cli0.2)) (cell_of cli0.2) cli0.1
                        (trans_mul (trans_mul t (inst_trans cli.2)) (inst_trans cli0.2))
                        ((reverse (omap head below) ++ [cli]) ++ [cli0]))
        ++ (rest ≫= λ cli0, rcs_visit hc cell_of inst_trans (rank (cell_of cli0.2)) (cell_of cli0.2) cli0.1
                        (trans_mul t (inst_trans cli0.2))
                        (reverse (omap head below) ++ [cli0]))
        ++ rcsi_pending_below hc cell_of inst_trans rank below transs).
    { rewrite rcsi_pending_cons, Hpath. f_equal. }
    rewrite Hpend. split_and!.
    + simpl in *. lia.
    + simpl in *. lia.
    + cbn [tail]. constructor; [done|]. exact Hne.
    + done.
    + unfold rcsi_trans, rcsi_inst_path.
      cbn [rcsi_conn_iter_stack rcsi_cell_index_stack rcsi_trans_stack rcsi_shape_iter
           rcsi_layer rcsi_id head default tail fmap list_fmap app].
      rewrite Hpath, bind_cons. f_equal.
      unfold rcs_shapes. cbn [fst snd id]. by rewrite Hcl.
    + done.
    + cbn [length]. rewrite !length_app. lia.
Qed.

Lemma rcsi_skip_spec (fuel : nat) : ∀ it,
  rcsi_wf it →
  Forall (λ x, 0 < x.1.1.2) (rcsi_pending hc cell_of inst_trans rank (rcsi_conn_iter_stack it) (rcsi_trans_stack it)) →
  (2 * length (rcsi_pending hc cell_of inst_trans rank (rcsi_conn_iter_stack it) (rcsi_trans_stack it))
     + length (rcsi_conn_iter_stack it) < fuel)%nat →
  ∃ it', rcsi_skip hc cell_of inst_trans fuel it = Some it'
    ∧ rcsi_wf it'
    ∧ rcsi_layer it' = rcsi_layer it
    ∧ rcsi_remaining hc cell_of inst_trans trans_unit rank it'
      = rcsi_remaining hc cell_of inst_trans trans_unit rank it
    ∧ Forall (λ x, 0 < x.1.1.2) (rcsi_pending hc cell_of inst_trans rank (rcsi_conn_iter_stack it') (rcsi_trans_stack it'))
    ∧ (2 * length (rcsi_pending hc cell_of inst_trans rank (rcsi_conn_iter_stack it') (rcsi_trans_stack it'))
         + length (rcsi_conn_iter_stack it')
       ≤ 2 * length (rcsi_pending hc cell_of inst_trans rank (rcsi_conn_iter_stack it) (rcsi_trans_stack it))
         + length (rcsi_conn_iter_stack it))%nat
    ∧ (rcsi_shape_iter it' = [] → rcsi_conn_iter_stack it' = []).
Proof.
  induction fuel as [|fuel IH]; intros it Hwf Hpos Hfuel; [lia|].
  cbn [rcsi_skip]. unfold rcsi_at_end.
  destruct (rcsi_shape_iter it) as [|s shapes] eqn:Hsh.
  - case_bool_decide as Hfr; cbn [negb andb].
    + exists it. split_and!; try done; by rewrite Hsh.
    + destruct (rcsi_next_conn_spec it Hwf Hfr Hsh Hpos)
        as (it1 & -> & Hwf1 & Hl1 & Hr1 & Hpos1 & Hm1).
      cbn [mbind option_bind].
      destruct (IH it1 Hwf1 Hpos1) as (it' & -> & Hwf' & Hl' & Hr' & Hpos' & Hm' & Hend');
        [lia|].
      exists it'. split_and!; [done|done|congruence|congruence|done|lia|done].
  - cbn [andb]. exists it. split_and!; try done; by rewrite Hsh.
Qed.

Lemma rcsi_collect_spec (n fuel : nat) : ∀ it,
  rcsi_wf it →
  Forall (λ x, 0 < x.1.1.2) (rcsi_pending hc cell_of inst_trans rank (rcsi_conn_iter_stack it) (rcsi_trans_stack it)) →
  (2 * length (rcsi_pending hc cell_of inst_trans rank (rcsi_conn_iter_stack it) (rcsi_trans_stack it))
     + length (rcsi_conn_iter_stack it) < fuel)%nat →
  (rcsi_shape_iter it = [] → rcsi_conn_iter_stack it = []) →
  (length (rcsi_remaining hc cell_of inst_trans trans_unit rank it) ≤ n)%nat →
  rcsi_collect hc cell_of inst_trans trans_unit n fuel it
    = rcsi_remaining hc cell_of inst_trans trans_unit rank it.
Proof.
  induction n as [|n IH]; intros it Hwf Hpos Hfuel Hend Hn.
  - destruct (rcsi_remaining _ _ _ _ _ it); [done|simpl in Hn; lia].
  - cbn [rcsi_collect]. unfold rcsi_remaining in *.
    destruct (rcsi_shape_iter it) as [|s shapes] eqn:Hsh.
    + rewrite (Hend eq_refl). done.
    + cbn [fmap list_fmap app]. f_equal.
      set (it1 := {| rcsi_layer := rcsi_layer it; rcsi_id := rcsi_id it;
                     rcsi_trans_stack := rcsi_trans_stack it;
                     rcsi_cell_index_stack := rcsi_cell_index_stack it;
                     rcsi_conn_iter_stack := rcsi_conn_iter_stack it;
                     rcsi_shape_iter := tail (rcsi_shape_iter it) |}).
      destruct (rcsi_skip_spec fuel it1) as (it' & Hskip & Hwf' & Hl' & Hr' & Hpos' & Hm' & Hend');
        [done..|].
      unfold rcsi_incr. fold it1. rewrite Hskip.
      rewrite IH; [|done|done| |done|].
      2: { eapply Nat.le_lt_trans; [exact Hm'|exact Hfuel]. }
      * unfold rcsi_remaining in Hr'. rewrite Hr'. unfold it1. simpl. by rewrite Hsh.
      * unfold rcsi_remaining in Hr'. rewrite Hr'. unfold it1.
        cbn [rcsi_conn_iter_stack rcsi_trans_stack rcsi_shape_iter rcsi_layer].
        rewrite Hsh. cbn [tail]. cbn [fmap list_fmap app length] in Hn.
        rewrite length_app, length_fmap in Hn |- *. lia.
Qed.

(** X26. A loop over a [recursive_cluster_shape_iterator] for the cluster
    [id] of the cell [ci] delivers the shapes of the net on the layer,
    cluster by cluster in depth-first order: the shapes of the cluster
    itself, then, for each of its connections in turn, those below that
    connection.  With every shape, [trans ()] is the product of the
    transformations of the placements on the way down and [inst_path ()]
    is the list of these connections; the number of positions is the sum
    of the numbers of shapes the clusters have on the layer.  (No cluster
    of the net has the id 0, and the connections lead to cells of lower
    rank: the hierarchy has no cycle.) *)
Theorem rcsi_visits_shapes (layer ci id : N) (fuel n : nat) :
  let net := rcs_visit hc cell_of inst_trans (rank ci) ci id trans_unit [] in
  Forall (λ x, 0 < x.1.1.2) net →
  (2 * length net ≤ fuel)%nat →
  (length (net ≫= rcs_shapes hc layer) ≤ n)%nat →
  ∃ it, rcsi_new hc cell_of inst_trans trans_unit fuel layer ci id = Some it
      ∧ rcsi_collect hc cell_of inst_trans trans_unit n fuel it = net ≫= rcs_shapes hc layer.
Proof.
  rename id into id0. intros net Hpos Hfuel Hn.
  assert (Hnet : net = (ci, id0, trans_unit, [])
            :: rcsi_pending hc cell_of inst_trans rank [connections_for_cluster (clusters_per_cell hc ci) id0] [trans_unit]).
  { unfold net. rewrite (rcs_visit_unfold _ _ _ _ _ (Nat.le_refl _)). simpl.
    by rewrite app_nil_r. }
  rewrite Hnet in Hpos, Hfuel, Hn |- *. clear Hnet net.
  apply Forall_cons in Hpos as [Hid Hpos]. simpl in Hid.
  unfold rcsi_new, rcsi_down.
  cbn [rcsi_conn_iter_stack rcsi_cell_index_stack rcsi_trans_stack rcsi_shape_iter
       rcsi_layer rcsi_id].
  unfold rcsi_cell_index, rcsi_cluster_id.
  cbn [rcsi_conn_iter_stack rcsi_cell_index_stack rcsi_trans_stack rcsi_shape_iter
       rcsi_layer rcsi_id head default].
  destruct (cluster_by_id_total (base (clusters_per_cell hc ci)) id0 Hid) as [cluster Hcl].
  cbn [id]. rewrite Hcl. cbn [mbind option_bind].
  match goal with |- ∃ it, rcsi_skip _ _ _ _ ?i = _ ∧ _ => set (it0 := i) end.
  assert (Hwf0 : rcsi_wf it0) by (split_and!; [done..|constructor]).
  assert (Hrem0 : rcsi_remaining hc cell_of inst_trans trans_unit rank it0 =
    ((ci, id0, trans_unit, [])
       :: rcsi_pending hc cell_of inst_trans rank [connections_for_cluster (clusters_per_cell hc ci) id0] [trans_unit])
      ≫= rcs_shapes hc layer).
  { unfold rcsi_remaining, it0, rcsi_trans, rcsi_inst_path.
    cbn [rcsi_conn_iter_stack rcsi_cell_index_stack rcsi_trans_stack rcsi_shape_iter
         rcsi_layer rcsi_id head default tail omap].
    rewrite bind_cons. f_equal. unfold rcs_shapes. cbn [fst snd id]. by rewrite Hcl. }
  destruct (rcsi_skip_spec fuel it0 Hwf0 Hpos)
    as (it & Hskip & Hwf & Hl & Hr & Hpos' & Hm & Hend).
  { unfold it0. cbn [rcsi_conn_iter_stack rcsi_trans_stack length] in *. lia. }
  exists it. split; [done|].
  rewrite rcsi_collect_spec; [|done|done| |done|].
  - by rewrite Hr, Hrem0.
  - unfold it0 in Hm. cbn [rcsi_conn_iter_stack rcsi_trans_stack length] in *. lia.
  - by rewrite Hr, Hrem0.
Qed.

End ShapeIteratorProps.

Lemma foldl_invariant {A B} (P : A → Prop) (f : A → B → A) (l : list B) (a : A) :
  P a → (∀ a x, x ∈ l → P a → P (f a x)) → P (foldl f a l).
Proof.
  revert a. induction l as [|x l IH]; intros a Ha Hstep; [done|].
  simpl. apply IH.
  - apply Hstep; [by left|done].
  - intros a' x' Hx'. apply Hstep. by right.
Qed.

Section MakePathProps.
Context {G : Geometry}.
Variable cell_of : N → N.
Variable parent_insts : N → list (N * list N).
Variable current_cell : N.
(** The elements the layout lists for a child cell are placements of that
    cell. *)
Hypothesis parent_insts_child : ∀ child pc es e,
  (pc, es) ∈ parent_insts child → e ∈ es → cell_of e = child.

Implicit Types (hc : hier_clusters) (st : mp_state) (ci : ClusterInstance)
  (path above below : list N).

Lemma clusters_per_cell_mut_fst hc c :
  (clusters_per_cell_mut hc c).1 = clusters_per_cell hc c.
Proof.
  unfold clusters_per_cell_mut, clusters_per_cell, hier_clusters in *.
  by destruct (hc !! c).
Qed.

Lemma clusters_per_cell_mut_view hc c c' :
  clusters_per_cell (clusters_per_cell_mut hc c).2 c' = clusters_per_cell hc c'.
Proof.
  unfold clusters_per_cell_mut, clusters_per_cell, hier_clusters in *.
  destruct (hc !! c) as [cc|] eqn:Hc; [done|]. simpl.
  destruct (decide (c' = c)) as [->|Hne].
  - by rewrite lookup_insert_eq, Hc.
  - by rewrite lookup_insert_ne.
Qed.

Lemma add_dummy_connection_view hc pc ci2 c :
  clusters_per_cell (add_dummy_connection hc pc ci2).2 c =
    if decide (c = pc)
    then add_connection (insert_dummy (clusters_per_cell hc pc)).2
                        (insert_dummy (clusters_per_cell hc pc)).1 ci2
    else clusters_per_cell hc c.
Proof.
  unfold add_dummy_connection.
  pose proof (clusters_per_cell_mut_fst hc pc) as Hfst.
  pose proof (clusters_per_cell_mut_view hc pc c) as Hview.
  destruct (clusters_per_cell_mut hc pc) as [parent_cc hc1]. simpl in Hfst, Hview. subst parent_cc.
  destruct (insert_dummy (clusters_per_cell hc pc)) as [d cc1]. simpl.
  unfold clusters_per_cell, hier_clusters in *.
  destruct (decide (c = pc)) as [->|Hne].
  - by rewrite lookup_insert_eq.
  - by rewrite lookup_insert_ne.
Qed.

Lemma add_dummy_connection_fst hc pc ci2 :
  (add_dummy_connection hc pc ci2).1 = (insert_dummy (clusters_per_cell hc pc)).1.
Proof.
  unfold add_dummy_connection.
  pose proof (clusters_per_cell_mut_fst hc pc) as Hfst.
  destruct (clusters_per_cell_mut hc pc) as [parent_cc hc1]. simpl in Hfst. subst parent_cc.
  by destruct (insert_dummy (clusters_per_cell hc pc)).
Qed.

Lemma mp_grows_refl cs hc : mp_grows cell_of cs hc hc.
Proof. by split_and!. Qed.

Lemma mp_grows_trans cs hc1 hc2 hc3 :
  mp_grows cell_of cs hc1 hc2 → mp_grows cell_of cs hc2 hc3 → mp_grows cell_of cs hc1 hc3.
Proof.
  intros (Ha & Hb & Hc) (Ha' & Hb' & Hc'). split_and!.
  - intros cell x k Hk. by apply Ha', Ha.
  - intros cell. by rewrite Hb', Hb.
  - intros cell y e He. by rewrite Hc', Hc.
Qed.

Lemma mp_grows_weaken cs cs' hc hc' :
  (∀ c, c ∈ cs → c ∈ cs') → mp_grows cell_of cs hc hc' → mp_grows cell_of cs' hc hc'.
Proof.
  intros Hsub (Ha & Hb & Hc). split_and!; [done..|].
  intros cell y e He. apply Hc. intros Hin. by apply He, Hsub.
Qed.

Lemma mp_grows_mut cs hc c : mp_grows cell_of cs hc (clusters_per_cell_mut hc c).2.
Proof.
  split_and!; intros; by rewrite clusters_per_cell_mut_view.
Qed.

Lemma mp_grows_add_dummy hc pc id e :
  mp_grows cell_of [cell_of e] hc (add_dummy_connection hc pc (id, e)).2.
Proof.
  split_and!.
  - intros cell x k Hk. rewrite add_dummy_connection_view.
    case_decide as Hc; [subst cell|done].
    rewrite connections_for_add. case_decide; [subst x|done].
    apply elem_of_app. by left.
  - intros cell. rewrite add_dummy_connection_view. by case_decide as Hc; [subst cell|].
  - intros cell y e' He'. rewrite add_dummy_connection_view.
    case_decide as Hc; [subst cell|done].
    rewrite find_add. rewrite decide_False; [done|].
    intros [= -> ->]. apply He'. by left.
Qed.

Lemma promote_top_grows hc child id ci :
  mp_grows cell_of [child] hc (promote_top parent_insts current_cell hc child id ci).
Proof.
  unfold promote_top.
  apply (foldl_invariant (λ hc', mp_grows cell_of [child] hc hc')); [apply mp_grows_refl|].
  intros hc1 [pc es] Hpi Hg. simpl.
  apply (foldl_invariant (λ hc', mp_grows cell_of [child] hc hc')).
  - eapply mp_grows_trans; [exact Hg|apply mp_grows_mut].
  - intros hc2 e He Hg2. destruct (_ || _); [|done].
    eapply mp_grows_trans; [exact Hg2|].
    rewrite <- (parent_insts_child child pc es e Hpi He). apply mp_grows_add_dummy.
Qed.

Lemma promote_inner_grows hc child id pci ci :
  mp_grows cell_of [child] hc (promote_inner parent_insts hc child id pci ci).1
  ∧ ((promote_inner parent_insts hc child id pci ci).2 ≠ 0 →
     find_cluster_with_connection
       (clusters_per_cell (promote_inner parent_insts hc child id pci ci).1 pci) ci
     = (promote_inner parent_insts hc child id pci ci).2).
Proof.
  unfold promote_inner.
  apply (foldl_invariant (λ acc : hier_clusters * N,
    mp_grows cell_of [child] hc acc.1
    ∧ (acc.2 ≠ 0 →
       find_cluster_with_connection (clusters_per_cell acc.1 pci) ci = acc.2))).
  { split; [apply mp_grows_refl|done]. }
  intros [hc1 n1] [pc es] Hpi [Hg Hhit]. simpl in *.
  apply (foldl_invariant (λ acc : hier_clusters * N,
    mp_grows cell_of [child] hc acc.1
    ∧ (acc.2 ≠ 0 →
       find_cluster_with_connection (clusters_per_cell acc.1 pci) ci = acc.2))).
  { simpl. split; [eapply mp_grows_trans; [exact Hg|apply mp_grows_mut]|].
    intros Hn. rewrite clusters_per_cell_mut_view. by apply Hhit. }
  intros [hc2 n2] e He [Hg2 Hhit2]. simpl in *.
  pose proof (add_dummy_connection_fst hc2 pc (id, e)) as Hfst.
  pose proof (add_dummy_connection_view hc2 pc (id, e) pci) as Hview.
  pose proof (mp_grows_add_dummy hc2 pc id e) as Hg3.
  destruct (add_dummy_connection hc2 pc (id, e)) as [d hc3]. simpl in *.
  split.
  - eapply mp_grows_trans; [exact Hg2|].
    by rewrite <- (parent_insts_child child pc es e Hpi He).
  - rewrite Hview. destruct (N.eqb_spec pci pc) as [<-|Hpc]; simpl.
    + rewrite decide_True by done. rewrite find_add.
      case_bool_decide as Hci.
      * intros _. by rewrite decide_True.
      * intros Hn. rewrite decide_False by done. by apply Hhit2.
    + rewrite decide_False by done. done.
Qed.

Lemma valid_path_persist cs hc hc' below : ∀ x p id,
  mp_grows cell_of cs hc hc' → (∀ e, e ∈ below → cell_of e ∉ cs) →
  valid_path cell_of hc x (p :: below) id → valid_path cell_of hc' x (p :: below) id.
Proof.
  induction below as [|p' below IH]; intros x p id Hg Hbelow; [done|].
  cbn [valid_path]. intros (Hx & y & Hfind & Hrest).
  split; [done|]. exists y. split.
  - destruct Hg as (_ & _ & Hc). rewrite Hc; [done|]. apply Hbelow. by left.
  - apply IH; [done| |done]. intros e He. apply Hbelow. by right.
Qed.

Lemma is_root_reset_root st cell id c x :
  is_root (reset_root st cell id) c x = true → is_root st c x = true.
Proof.
  unfold is_root, reset_root. simpl.
  intros Hr%bool_decide_eq_true. apply bool_decide_eq_true. intros Hin. apply Hr.
  destruct (decide (c = cell)) as [->|Hne].
  - rewrite lookup_insert_eq. simpl. set_solver.
  - by rewrite lookup_insert_ne.
Qed.

Lemma is_root_reset_root_eq st cell id : is_root (reset_root st cell id) cell id = false.
Proof.
  unfold is_root, reset_root. simpl. apply bool_decide_eq_false.
  rewrite lookup_insert_eq. simpl. set_solver.
Qed.

Lemma make_path_up_valid above : ∀ st id p below id0 ci st',
  NoDup (cell_of <$> (reverse above ++ p :: below)) →
  valid_path cell_of (mp_tree st) id (p :: below) id0 →
  make_path_up cell_of parent_insts current_cell st id p above = Some (ci, st') →
  ci.2 = default p (last above)
  ∧ valid_path cell_of (mp_tree st') ci.1 (reverse above ++ p :: below) id0
  ∧ mp_grows cell_of (cell_of <$> (reverse above ++ [p])) (mp_tree st) (mp_tree st')
  ∧ (∀ c x, is_root st' c x = true → is_root st c x = true).
Proof.
  induction above as [|p' above IH]; intros st id p below id0 ci st' Hnd Hvalid.
  - cbn [make_path_up reverse app fmap list_fmap last default] in *.
    assert (Hbelow : ∀ e, e ∈ below → cell_of e ∉ [cell_of p]).
    { intros e He Hin%list_elem_of_singleton. apply NoDup_cons in Hnd as [Hnin _].
      apply Hnin. rewrite <- Hin. apply list_elem_of_fmap. by exists e. }
    destruct (is_root _ (cell_of p) id) eqn:Hroot; intros [= <- <-]; simpl.
    + split; [done|].
      assert (Hg : mp_grows cell_of [cell_of p] (mp_tree st)
                 (promote_top parent_insts current_cell
                    (clusters_per_cell_mut (mp_tree st) (cell_of p)).2 (cell_of p) id (id, p))).
      { eapply mp_grows_trans; [apply mp_grows_mut|apply promote_top_grows]. }
      split_and!; [by eapply valid_path_persist|done|].
      intros c x Hr%is_root_reset_root. done.
    + split; [done|].
      assert (Hg : mp_grows cell_of [cell_of p] (mp_tree st)
                 (clusters_per_cell_mut (mp_tree st) (cell_of p)).2) by apply mp_grows_mut.
      split_and!; [by eapply valid_path_persist|done|done].
  - cbn [make_path_up].
    assert (Hlist : ∀ l : list N, reverse (p' :: above) ++ l = reverse above ++ p' :: l).
    { intros l. by rewrite reverse_cons, <- app_assoc. }
    rewrite Hlist in Hnd. rewrite !Hlist.
    assert (Hlast : default p (last (p' :: above)) = default p' (last above)).
    { destruct above as [|a above']; [done|]. rewrite last_cons_cons.
      destruct (last (a :: above')) eqn:Hl; [done|]. by apply last_None in Hl. }
    rewrite Hlast.
    pose proof (clusters_per_cell_mut_fst (mp_tree st) (cell_of p')) as Hfst.
    pose proof (mp_grows_mut [] (mp_tree st) (cell_of p')) as Hg1.
    destruct (clusters_per_cell_mut (mp_tree st) (cell_of p')) as [target_cc hc1].
    simpl in Hfst, Hg1. subst target_cc.
    assert (Hbelow : ∀ (cs : list N) e, e ∈ below → (∀ c, c ∈ cs → c = cell_of p) → cell_of e ∉ cs).
    { intros cs e He Hcs Hin. apply Hcs in Hin.
      rewrite fmap_app in Hnd. apply NoDup_app in Hnd as (_ & _ & Hnd).
      rewrite !fmap_cons in Hnd. apply NoDup_cons in Hnd as [_ Hnd].
      apply NoDup_cons in Hnd as [Hnin _].
      apply Hnin. rewrite <- Hin. apply list_elem_of_fmap. by exists e. }
    assert (Hweak : ∀ (cs : list N) hcA hcB, (∀ c, c ∈ cs → c = cell_of p) →
              mp_grows cell_of cs hcA hcB →
              mp_grows cell_of (cell_of <$> (reverse above ++ [p'; p])) hcA hcB).
    { intros cs hcA hcB Hcs. apply mp_grows_weaken. intros c Hc.
      apply Hcs in Hc as ->. apply list_elem_of_fmap. exists p. split; [done|].
      apply elem_of_app. right. set_solver. }
    assert (Hweak' : ∀ hcA hcB,
              mp_grows cell_of (cell_of <$> (reverse above ++ [p'])) hcA hcB →
              mp_grows cell_of (cell_of <$> (reverse above ++ [p'; p])) hcA hcB).
    { intros hcA hcB. apply mp_grows_weaken. intros c Hc.
      apply list_elem_of_fmap in Hc as (e & -> & He). apply list_elem_of_fmap.
      exists e. split; [done|]. set_solver. }
    assert (Hvalid1 : ∀ (cs : list N) hc', (∀ c, c ∈ cs → c = cell_of p) →
              mp_grows cell_of cs (mp_tree st) hc' →
              valid_path cell_of hc' id (p :: below) id0).
    { intros cs hc' Hcs Hg. eapply valid_path_persist; [exact Hg| |done].
      intros e He. by apply Hbelow. }
    destruct (N.ltb_spec 0 (find_cluster_with_connection
                              (clusters_per_cell (mp_tree st) (cell_of p')) (id, p)))
      as [Hpos|Hzero].
    + intros Hres.
      apply (IH _ _ _ (p :: below) id0) in Hres; [|done|].
      * destruct Hres as (Hci & Hv & Hg & Hroots). simpl in *.
        split_and!; [done|done| |done].
        eapply mp_grows_trans; [by apply (Hweak []); [intros c []%elem_of_nil|]|].
        apply Hweak'. exact Hg.
      * cbn [valid_path mp_tree]. split; [lia|]. exists id. split.
        -- destruct Hg1 as (_ & _ & Hc). apply Hc. apply not_elem_of_nil.
        -- apply (Hvalid1 []); [by intros c ?%elem_of_nil|done].
    + destruct (is_root _ (cell_of p) id) eqn:Hroot.
      * pose proof (promote_inner_grows
                      (clusters_per_cell_mut hc1 (cell_of p)).2 (cell_of p) id (cell_of p') (id, p))
          as [Hg2 Hhit].
        destruct (promote_inner parent_insts _ (cell_of p) id (cell_of p') (id, p))
          as [hc2 id_new]. simpl in Hg2, Hhit.
        destruct (N.eqb_spec id_new 0) as [->|Hnz]; [done|].
        intros Hres.
        assert (Hg3 : mp_grows cell_of [cell_of p] (mp_tree st) hc2).
        { eapply mp_grows_trans; [|exact Hg2].
          eapply mp_grows_trans; [|apply mp_grows_mut].
          eapply mp_grows_weaken; [|exact Hg1]. by intros c ?%elem_of_nil. }
        apply (IH _ _ _ (p :: below) id0) in Hres; [|done|].
        -- destruct Hres as (Hci & Hv & Hg & Hroots). simpl in *.
           split_and!; [done|done| |].
           ++ eapply mp_grows_trans;
                [apply (Hweak [cell_of p]); [by intros c ->%list_elem_of_singleton|done]|].
              by apply Hweak'.
           ++ intros c x Hr. by apply Hroots, is_root_reset_root in Hr.
        -- cbn [valid_path mp_tree reset_root]. split; [done|]. exists id. split.
           ++ by apply Hhit.
           ++ apply (Hvalid1 [cell_of p]); [by intros c ->%list_elem_of_singleton|done].
      * done.
Qed.

(** X27. [make_path] for a path of one element returns the cluster with
    that element, and afterwards the cluster is no root of its cell.  For
    any path through distinct cells, if no assertion fails, the instance
    returned has the first element of the path, and the path is valid in
    the collection left: from the cluster returned, every cell on the way
    records a cluster other than 0 for the connection to the next cluster
    through the next element, down to the cluster the call was made for.
    No connection is lost, the local clusters of every cell stay as they
    are, and no cluster becomes a root.  (The elements the layout lists
    for a child cell are placements of that cell.) *)
Theorem make_path_valid st id :
  (∀ e, ∃ st1,
     make_path cell_of parent_insts current_cell st id [e] = Some ((id, e), st1)
     ∧ is_root st1 (cell_of e) id = false)
  ∧ (∀ path ci st',
       NoDup (cell_of <$> path) →
       make_path cell_of parent_insts current_cell st id path = Some (ci, st') →
       head path = Some ci.2
       ∧ valid_path cell_of (mp_tree st') ci.1 path id
       ∧ (∀ cell x k,
            k ∈ connections_for_cluster (clusters_per_cell (mp_tree st) cell) x →
            k ∈ connections_for_cluster (clusters_per_cell (mp_tree st') cell) x)
       ∧ (∀ cell, m_clusters (base (clusters_per_cell (mp_tree st') cell))
                  = m_clusters (base (clusters_per_cell (mp_tree st) cell)))
       ∧ (∀ c x, is_root st' c x = true → is_root st c x = true)).
Proof.
  split.
  - intros e. unfold make_path. cbn [reverse rev_append make_path_up].
    destruct (is_root _ (cell_of e) id) eqn:Hroot.
    + eexists. split; [done|]. apply is_root_reset_root_eq.
    + eexists. split; [done|]. exact Hroot.
  - unfold make_path. intros path ci st' Hnd Hres.
    destruct (reverse path) as [|p above] eqn:Hrev; [done|].
    assert (Hpath : path = reverse above ++ [p]).
    { rewrite <- (reverse_involutive path), Hrev. by rewrite reverse_cons. }
    subst path.
    destruct (make_path_up_valid above st id p [] id ci st' Hnd eq_refl Hres)
      as (Hci & Hvalid & (Ha & Hb & _) & Hroots).
    split_and!; [|done..].
    rewrite Hci. destruct above as [|a above _] using rev_ind; [done|].
    rewrite reverse_snoc, last_snoc. done.
Qed.

End MakePathProps.

(** ** The further properties on the sample data *)

Lemma sample_hier_clusters ci :
  clusters_per_cell sample_hier ci =
    if decide (ci = 0) then add_connection (add_connection sample_connected 1 (1, 10)) 1 (2, 11)
    else if decide (ci = 1) then add_connection sample_connected 1 (1, 20)
    else connected_clusters_new.
Proof.
  unfold clusters_per_cell, sample_hier, hier_clusters.
  destruct (decide (ci = 0)) as [->|H0]; [by rewrite lookup_insert_eq|].
  rewrite lookup_insert_ne by done.
  destruct (decide (ci = 1)) as [->|H1]; [by rewrite lookup_insert_eq|].
  by rewrite lookup_insert_ne, lookup_empty.
Qed.

Lemma sample_hier_connections ci id cli :
  cli ∈ connections_for_cluster (clusters_per_cell sample_hier ci) id →
  (ci = 0 ∧ id = 1 ∧ (cli = (1, 10) ∨ cli = (2, 11)))
  ∨ (ci = 1 ∧ id = 1 ∧ cli = (1, 20)).
Proof.
  rewrite sample_hier_clusters. unfold connections_for_cluster.
  destruct (decide (ci = 0)) as [->|H0]; [|destruct (decide (ci = 1)) as [->|H1]].
  - destruct (decide (id = 1)) as [->|Hid].
    + intros Hin. vm_compute in Hin. left.
      apply elem_of_cons in Hin as [->|Hin]; [tauto|].
      apply elem_of_cons in Hin as [->|Hin]; [tauto|]. by apply elem_of_nil in Hin.
    + simpl. rewrite !lookup_insert_ne by done. rewrite lookup_empty.
      by intros ?%elem_of_nil.
  - destruct (decide (id = 1)) as [->|Hid].
    + intros Hin. vm_compute in Hin. right.
      apply elem_of_cons in Hin as [->|Hin]; [tauto|]. by apply elem_of_nil in Hin.
    + simpl. rewrite !lookup_insert_ne by done. rewrite lookup_empty.
      by intros ?%elem_of_nil.
  - simpl. rewrite lookup_empty. by intros ?%elem_of_nil.
Qed.

Lemma sample_rank_decreases ci id cli :
  cli ∈ connections_for_cluster (clusters_per_cell sample_hier ci) id →
  (sample_rank (sample_cell_of cli.2) < sample_rank ci)%nat.
Proof.
  intros [(-> & _ & [->| ->])|(-> & _ & ->)]%sample_hier_connections;
    vm_compute; lia.
Qed.

Lemma sample_parent_rank ci pc :
  pc ∈ sample_parent_cells ci → (N.to_nat pc < N.to_nat ci)%nat.
Proof.
  unfold sample_parent_cells.
  destruct (N.eqb_spec ci 1) as [->|H1]; [|destruct (N.eqb_spec ci 2) as [->|H2]].
  - intros ->%list_elem_of_singleton. lia.
  - intros [->|[->|[]%elem_of_nil]%elem_of_cons]%elem_of_cons; lia.
  - by intros ?%elem_of_nil.
Qed.

Lemma sample_hier_parents pc x cli :
  cli ∈ connections_for_cluster (clusters_per_cell sample_hier pc) x →
  pc ∈ sample_parent_cells (sample_cell_of cli.2).
Proof.
  intros [(-> & _ & [->| ->])|(-> & _ & ->)]%sample_hier_connections;
    apply (bool_decide_unpack _); vm_compute; reflexivity.
Qed.

Lemma connectivity_symmetric_witness :
  (∀ la lb, lb ∈ connected_layers conn01 la ↔ la ∈ connected_layers conn01 lb)
  ∧ (∀ l, l ∈ m_all_layers conn01 ↔ ∃ x, x ∈ connected_layers conn01 l).
Proof.
  destruct (connectivity_symmetric (G := box_geometry) conn01) as (Hsym & Hall & _).
  - apply conn_built_connect, conn_built_new.
  - split; [exact Hsym|exact Hall].
Defined.

Lemma size_counts_shapes_witness :
  m_size sample_cluster = N.of_nat (shape_count (m_shapes sample_cluster)).
Proof.
  apply (size_counts_shapes (GL := box_geometry_laws) sample_cluster).
  apply built_add_attr, built_add, built_add, built_new.
Defined.

Lemma ensure_sorted_keeps_witness :
  m_needs_update (ensure_sorted sample_cluster) = false
  ∧ ensure_sorted (ensure_sorted sample_cluster) = ensure_sorted sample_cluster
  ∧ (∀ l, shapes_on (ensure_sorted sample_cluster) l ≡ₚ shapes_on sample_cluster l).
Proof.
  destruct (ensure_sorted_keeps (GL := box_geometry_laws) sample_cluster)
    as (Hflag & _ & Hidem & Hshapes & _).
  split_and!; [exact Hflag|exact Hidem|exact Hshapes].
Defined.

Lemma split_fragments_final_witness :
  ∃ n out, split sample_cluster 2%Z = Some (n, out)
    ∧ n ≠ 1
    ∧ (∀ f, f ∈ out → m_size f ≠ 0 ∧ split f 2%Z = Some (0, [])).
Proof.
  destruct (split_cluster_spec (GL := box_geometry_laws)
              (S (shape_count (m_shapes sample_cluster))) sample_cluster 2%Z)
    as (n & out & Hres & _); [apply Nat.lt_succ_diag_r|].
  destruct (split_fragments_final (GL := box_geometry_laws) sample_cluster 2%Z n out Hres)
    as (Hn & Hall & _).
  exists n, out. split_and!; [exact Hres|exact Hn|exact Hall].
Defined.

(** The sample cell is built by three [insert] and two [add]. *)
Lemma sample_clusters_built : lcs_built sample_clusters.
Proof.
  change sample_clusters with
    (lcs_write (lcs_write (insert (insert (insert local_clusters_new))) 1
                          (λ c, add c box_A 0)) 1 (λ c, add c box_B 1)).
  apply lcs_built_add, lcs_built_add.
  apply lcs_built_insert, lcs_built_insert, lcs_built_insert, lcs_built_new.
Qed.

(** X8 on the sample cell, whose second cluster holds two boxes, and on
    the clusters generated from the sample events. *)
Lemma cluster_by_id_has_id_witness :
  let lc := generate_clusters sample_deref
              (cb_run conn01 sample_deref cb_receiver_new sample_events)
              local_clusters_new in
  (∃ c, cluster_by_id sample_clusters 2 = Some c ∧ m_id c = 2)
  ∧ (∃ c, cluster_by_id lc 1 = Some c ∧ m_id c = 1).
Proof.
  intros lc. split.
  - apply (cluster_by_id_has_id sample_clusters 2).
    + exact sample_clusters_built.
    + reflexivity.
    + vm_compute. discriminate.
  - apply (cluster_by_id_has_id lc 1).
    + apply generate_clusters_built, lcs_built_new.
    + reflexivity.
    + vm_compute. discriminate.
Defined.

Lemma join_cluster_with_keeps_edges_witness :
  ∃ cc', join_cluster_with (add_connection sample_connected 2 (1, 10)) 1 2 = Some cc'
    ∧ (∀ ci, (∃ j, ci ∈ connections_for_cluster cc' j)
             ↔ ∃ j, ci ∈ connections_for_cluster (add_connection sample_connected 2 (1, 10)) j)
    ∧ connections_for_cluster cc' 2 = [].
Proof.
  destruct (join_cluster_with_is_Some (add_connection sample_connected 2 (1, 10)) 1 2)
    as [cc' Hj]; [reflexivity|].
  destruct (join_cluster_with_keeps_edges _ _ _ _ Hj) as (Hedges & Hlen).
  exists cc'. split_and!; [exact Hj|exact Hedges|].
  apply Hlen. discriminate.
Defined.

Lemma add_single_pair_promote_dummies_witness :
  ∃ cc', add_single_pair_promote sample_connected (1, 0) (2, 0) = Some cc'
       ∧ m_clusters (base cc') = m_clusters sample_clusters.
Proof.
  pose proof (add_single_pair_promote_dummies sample_connected (1, 0) (2, 0)) as H.
  cbv zeta in H.
  destruct (H (or_introl eq_refl) (or_introl eq_refl)) as (cc' & He & Hc & _).
  exists cc'. split; [exact He|exact Hc].
Defined.

Lemma join_superclusters_returns_witness :
  ∃ r', join_superclusters
          (run_marks (hc_receiver_new sample_connected) [(1, 2); (3, 4); (2, 3)]) = Some r'
      ∧ m_cm2join_sets r'
        = m_cm2join_sets (run_marks (hc_receiver_new sample_connected) [(1, 2); (3, 4); (2, 3)]).
Proof.
  destruct (join_superclusters_returns sample_connected [(1, 2); (3, 4); (2, 3)])
    as (r' & Hr & Hsets & _).
  - intros a b Hin.
    repeat (apply elem_of_cons in Hin as [[= -> ->]|Hin]; [split; discriminate|]).
    by apply elem_of_nil in Hin.
  - exists r'. split; [exact Hr|exact Hsets].
Defined.

Lemma do_build_batches_ready_witness :
  ∃ st, do_build_loop sample_layout (called_set sample_layout 0)
          {| done := ∅; todo := []; stitched := [] |} [2; 1] = Some st
      ∧ (∀ c d, c ∈ todo st → is_child sample_layout c d → d ∈ done st).
Proof.
  destruct (do_build_batches_ready sample_layout 0 [2; 1] [0])
    as (st & Hst & _ & Hready & _).
  - reflexivity.
  - exact sample_layout_children_first.
  - exact sample_layout_called.
  - exists st. split; [exact Hst|exact Hready].
Defined.

Lemma rci_visits_net_witness :
  let net := rc_visit sample_hier sample_cell_of (sample_rank 0) 0 1 [] in
  rci_collect sample_hier sample_cell_of (S (length net)) (rci_new sample_hier 0 1) = net.
Proof.
  intros net.
  exact (proj1 (rci_visits_net sample_hier sample_cell_of sample_rank
                  sample_rank_decreases 0 1)).
Defined.

Lemma sample_events_ok : Forall cb_event_ok sample_events.
Proof. repeat constructor. discriminate. Qed.

Lemma candidates_are_components_witness :
  same_candidate (cb_run conn01 sample_deref cb_receiver_new sample_events) 1 2 ↔
  cb_seen conn01 sample_deref sample_events 1
  ∧ rtsc (cb_linked conn01 sample_deref sample_events) 1 2.
Proof.
  exact (candidates_are_components conn01 sample_deref sample_events 1 2 sample_events_ok).
Defined.

Lemma candidates_partition_witness :
  cb_seen conn01 sample_deref sample_events 3 ↔
  ∃ h v, (h, v) ∈ cb_clusters (cb_run conn01 sample_deref cb_receiver_new sample_events)
       ∧ 3 ∈ v.*1.
Proof.
  pose proof (candidates_partition conn01 sample_deref sample_events sample_events_ok) as H.
  cbv zeta in H. exact (proj1 H 3).
Defined.

Lemma incoming_first_query_witness :
  ∃ l st',
    incoming sample_hier sample_cell_of sample_parent_cells 3
      (incoming_cluster_connections_new sample_layout 0) 1 2 = Some (l, st')
    ∧ ∀ e, e ∈ l ↔
           (e.1.1 = 0 ∨ e.1.1 ∈ collect_called_cells sample_layout 0)
           ∧ is_incoming sample_hier sample_cell_of 1 2 e.
Proof.
  destruct (incoming_first_query sample_hier sample_cell_of sample_parent_cells N.to_nat
              sample_parent_rank sample_layout 0 1 2 3 sample_hier_parents)
    as (l & st' & Hinc & _ & Hl).
  - vm_compute. lia.
  - exists l, st'. split; [exact Hinc|exact Hl].
Defined.

Lemma incoming_sound_memo_witness :
  ∃ l st',
    incoming sample_hier sample_cell_of sample_parent_cells 3
      (incoming_cluster_connections_new sample_layout 0) 2 1 = Some (l, st')
    ∧ ∀ fuel', incoming sample_hier sample_cell_of sample_parent_cells fuel' st' 2 1
               = Some (l, st').
Proof.
  destruct (incoming_sound_memo sample_hier sample_cell_of sample_parent_cells N.to_nat
              sample_parent_rank sample_layout 0
              (incoming_cluster_connections_new sample_layout 0) 2 1 3)
    as (l & st' & Hinc & _ & _ & _ & Hagain).
  - apply icc_start.
  - vm_compute. lia.
  - exists l, st'. split; [exact Hinc|exact Hagain].
Defined.

Lemma local_inserts_fragments_witness :
  ∃ groups heap,
    @local_inserts box_geometry 2%Z [sample_cluster] = Some (concat groups, heap)
    ∧ Forall2 (λ c g,
         (g = [c] ∨ g ≠ [] ∧ ∀ f, f ∈ g → f ∈ heap)
         ∧ (∀ f, f ∈ g → m_id f = m_id c)
         ∧ (∀ l, concat ((λ f, shapes_on f l) <$> g) ≡ₚ shapes_on c l))
       [sample_cluster] groups.
Proof.
  exact (local_inserts_fragments (GL := box_geometry_laws) 2%Z [sample_cluster]).
Defined.

Lemma sample_net_ids :
  Forall (λ x : N * N * (Z * Z) * list ClusterInstance, 0 < x.1.1.2)
    (rcs_visit sample_hier sample_cell_of sample_inst_trans (sample_rank 0) 0 1 (0, 0)%Z []).
Proof. vm_compute. repeat constructor. Qed.

Lemma rcsi_visits_shapes_witness :
  let net := rcs_visit sample_hier sample_cell_of sample_inst_trans (sample_rank 0) 0 1
               (0, 0)%Z [] in
  ∃ it, rcsi_new sample_hier sample_cell_of sample_inst_trans (0, 0)%Z 8 0 0 1 = Some it
      ∧ rcsi_collect sample_hier sample_cell_of sample_inst_trans (0, 0)%Z 8 8 it
        = net ≫= rcs_shapes sample_hier 0.
Proof.
  intros net.
  apply (rcsi_visits_shapes sample_hier sample_cell_of sample_inst_trans (0, 0)%Z
           sample_rank sample_rank_decreases 0 0 1 8 8).
  - exact sample_net_ids.
  - vm_compute. lia.
  - vm_compute. lia.
Defined.

Lemma sample_parent_insts_child child pc es e :
  (pc, es) ∈ sample_parent_insts child → e ∈ es → sample_cell_of e = child.
Proof.
  unfold sample_parent_insts.
  destruct (N.eqb_spec child 1) as [->|H1]; [|destruct (N.eqb_spec child 2) as [->|H2]].
  - intros [= -> ->]%list_elem_of_singleton
      [->|[->|[]%elem_of_nil]%elem_of_cons]%elem_of_cons; reflexivity.
  - intros [= -> ->]%list_elem_of_singleton ->%list_elem_of_singleton. reflexivity.
  - by intros ?%elem_of_nil.
Qed.

Lemma make_path_valid_witness :
  ∃ ci st',
    make_path sample_cell_of sample_parent_insts 0
      {| mp_tree := sample_hier; mp_promoted := ∅ |} 1 [10; 20] = Some (ci, st')
    ∧ head [10; 20] = Some ci.2
    ∧ valid_path sample_cell_of (mp_tree st') ci.1 [10; 20] 1.
Proof.
  destruct (make_path sample_cell_of sample_parent_insts 0
              {| mp_tree := sample_hier; mp_promoted := ∅ |} 1 [10; 20])
    as [[ci st']|] eqn:Hres; [|vm_compute in Hres; discriminate].
  destruct (make_path_valid sample_cell_of sample_parent_insts 0 sample_parent_insts_child
              {| mp_tree := sample_hier; mp_promoted := ∅ |} 1) as [_ Hvalid].
  destruct (Hvalid [10; 20] ci st') as (Hhead & Hpath & _).
  - apply (bool_decide_unpack _). vm_compute. reflexivity.
  - exact Hres.
  - exists ci, st'. split_and!; [reflexivity|exact Hhead|exact Hpath].
Defined.
